(** * DataGovIN Sentinel: the governed acquisition pipeline

    A shallow embedding of the parts of the actor that its specification
    makes statements about:

    - [utils.js]: [calculateBackoff], [detectPII], [redactPII],
      [truncateText], [calculateQualityScore], [formatDatasetMetadata];
    - [search-discovery.js]: [SearchDiscovery.search] and [searchByIds];
    - [data-acquisition.js]: [DataAcquisition.acquireDataset] and
      [acquireResource], the counters of [DataGovINClient] and the
      configuration of its limiter;
    - [governance.js]: [GovernanceLayer.validateDatasetAccess],
      [checkRestrictions], [checkLicense], [validateResourceDownload].

    JavaScript strings are modelled as lists of code units below 256,
    numbers that the code only uses as counters as [nat] or [Z], the
    jittered delay as a double, and the remote catalog as functions the
    client is parameterised by. *)

From Stdlib Require Import List Ascii String ZArith QArith Qround Qminmax Lia Bool Arith.
From Stdlib Require Import Qabs Qpower Qreduction Lqa SpecFloat.
From Stdlib Require Import Permutation Sorted.
Import ListNotations.
Close Scope Q_scope.

Set Implicit Arguments.

(** ** Text *)

Module JsText.

Definition text := list ascii.

Definition lit (s : string) : text := list_ascii_of_string s.

Definition code (c : ascii) : nat := nat_of_ascii c.

Definition between (lo hi : nat) (c : ascii) : bool :=
  (lo <=? code c) && (code c <=? hi).

(** [\d] *)
Definition is_digit (c : ascii) : bool := between 48 57 c.
(** [[A-Z]] *)
Definition is_upper (c : ascii) : bool := between 65 90 c.
(** [[a-z]] *)
Definition is_lower (c : ascii) : bool := between 97 122 c.
(** [\w], which without the [u] flag is [[A-Za-z0-9_]] *)
Definition is_word (c : ascii) : bool :=
  is_upper c || is_lower c || is_digit c || (code c =? 95).
(** [[\w\.-]] *)
Definition is_mail (c : ascii) : bool :=
  is_word c || (code c =? 46) || (code c =? 45).

(** A character is a code unit below 256.  Besides [A-Z], the capital
    letters of that range are the code units 192 to 222 without the
    multiplication sign. *)
Definition is_capital (c : ascii) : bool :=
  is_upper c || (between 192 222 c && negb (code c =? 215)).

Definition lower_char (c : ascii) : ascii :=
  if is_capital c then ascii_of_nat (code c + 32) else c.

(** [String.prototype.toLowerCase] *)
Definition toLowerCase (s : text) : text := map lower_char s.

Fixpoint starts_with (k s : text) : bool :=
  match k, s with
  | [], _ => true
  | _ :: _, [] => false
  | a :: k', b :: s' => Ascii.eqb a b && starts_with k' s'
  end.

(** [String.prototype.includes] *)
Fixpoint includes (s k : text) : bool :=
  starts_with k s ||
  match s with
  | [] => false
  | _ :: s' => includes s' k
  end.

(** [Array.prototype.join] *)
Fixpoint join (sep : text) (parts : list text) : text :=
  match parts with
  | [] => []
  | [p] => p
  | p :: rest => p ++ sep ++ join sep rest
  end.

Definition text_eqb (a b : text) : bool :=
  if list_eq_dec ascii_dec a b then true else false.

End JsText.
Import JsText.

(** ** The regular expressions of [utils.js]

    A backtracking matcher for the fragment of JavaScript regular
    expressions that [detectPII] and [redactPII] use: word boundaries,
    literal characters, bounded repetition of a character class, and
    greedy [+] on a character class. *)

Module Regex.

Inductive atom :=
| WordBoundary
| Lit (c : ascii)
| Rep (n : nat) (cls : ascii -> bool)
| Plus (cls : ascii -> bool).

Definition regex := list atom.

(** A continuation receives the number of characters consumed so far,
    the character before the current position and the remaining input;
    it answers with the length of the whole match. *)
Definition cont := nat -> option ascii -> text -> option nat.

Definition wordy (prev : option ascii) : bool :=
  match prev with
  | Some c => is_word c
  | None => false
  end.

Definition at_boundary (prev : option ascii) (l : text) : bool :=
  xorb (wordy prev) (wordy (hd_error l)).

Fixpoint rep (cls : ascii -> bool) (n : nat) (k : cont) : cont :=
  fun used prev l =>
    match n with
    | 0 => k used prev l
    | S n' =>
        match l with
        | c :: l' => if cls c then rep cls n' k (S used) (Some c) l' else None
        | [] => None
        end
    end.

(** Greedy [cls+]: take one character, then prefer taking more, and fall
    back to the continuation when the longer attempt fails. *)
Fixpoint plus (cls : ascii -> bool) (k : cont) (used : nat)
         (prev : option ascii) (l : text) {struct l} : option nat :=
  match l with
  | c :: l' =>
      if cls c then
        match plus cls k (S used) (Some c) l' with
        | Some r => Some r
        | None => k (S used) (Some c) l'
        end
      else None
  | [] => None
  end.

Fixpoint exec (r : regex) (k : cont) : cont :=
  match r with
  | [] => k
  | WordBoundary :: r' =>
      fun used prev l =>
        if at_boundary prev l then exec r' k used prev l else None
  | Lit c :: r' =>
      fun used prev l =>
        match l with
        | x :: l' =>
            if Ascii.eqb x c then exec r' k (S used) (Some x) l' else None
        | [] => None
        end
  | Rep n cls :: r' => rep cls n (exec r' k)
  | Plus cls :: r' => plus cls (exec r' k)
  end.

Definition accept : cont := fun used _ _ => Some used.

(** The match of [r] that starts exactly at the current position. *)
Definition match_here (r : regex) (prev : option ascii) (l : text)
  : option nat :=
  exec r accept 0 prev l.

(** [RegExp.prototype.test] for a pattern without the [g] flag. *)
Fixpoint test_from (r : regex) (prev : option ascii) (l : text) : bool :=
  match match_here r prev l with
  | Some _ => true
  | None =>
      match l with
      | [] => false
      | c :: l' => test_from r (Some c) l'
      end
  end.

Definition test (r : regex) (s : text) : bool := test_from r None s.

(** [String.prototype.replace] with a [g] pattern and a constant
    replacement.  The scan walks the original string; [skip] counts the
    characters of the current match that are still to be dropped.  An
    empty match inserts the replacement and moves on by one character. *)
Fixpoint replace_from (r : regex) (repl : text) (prev : option ascii)
         (l : text) (skip : nat) {struct l} : text :=
  match l with
  | [] =>
      match match_here r prev [] with
      | Some _ => repl
      | None => []
      end
  | c :: l' =>
      match skip with
      | S n => replace_from r repl (Some c) l' n
      | 0 =>
          match match_here r prev l with
          | Some 0 => repl ++ c :: replace_from r repl (Some c) l' 0
          | Some (S n) => repl ++ replace_from r repl (Some c) l' n
          | None => c :: replace_from r repl (Some c) l' 0
          end
      end
  end.

Definition replace_all (r : regex) (repl : text) (s : text) : text :=
  replace_from r repl None s 0.

End Regex.
Import Regex.

(** ** [utils.js]: PII patterns *)

Module Utils.

(** [/\b\d{12}\b/] *)
Definition re_aadhaar : regex :=
  [WordBoundary; Rep 12 is_digit; WordBoundary].
(** [/\b[A-Z]{5}\d{4}[A-Z]\b/] *)
Definition re_pan : regex :=
  [WordBoundary; Rep 5 is_upper; Rep 4 is_digit; Rep 1 is_upper;
   WordBoundary].
(** [/\b[\w\.-]+@[\w\.-]+\.\w+\b/] *)
Definition re_email : regex :=
  [WordBoundary; Plus is_mail; Lit "@"; Plus is_mail; Lit ".";
   Plus is_word; WordBoundary].
(** [/\b\d{10}\b/] *)
Definition re_phone : regex :=
  [WordBoundary; Rep 10 is_digit; WordBoundary].
(** [/\b\d{3}-\d{2}-\d{4}\b/] *)
Definition re_ssn : regex :=
  [WordBoundary; Rep 3 is_digit; Lit "-"; Rep 2 is_digit; Lit "-";
   Rep 4 is_digit; WordBoundary].

Definition detectPII (t : text) : bool :=
  match t with
  | [] => false
  | _ => existsb (fun p => test p t)
           [re_aadhaar; re_pan; re_email; re_phone; re_ssn]
  end.

Definition mask12 : text := lit "XXXXXXXXXXXX".
Definition mask_email : text := lit "email@redacted.com".
Definition mask10 : text := lit "XXXXXXXXXX".

Definition redact_aadhaar (t : text) : text := replace_all re_aadhaar mask12 t.
Definition redact_email (t : text) : text := replace_all re_email mask_email t.
Definition redact_phone (t : text) : text := replace_all re_phone mask10 t.

Definition redactPII (t : text) : text :=
  match t with
  | [] => t
  | _ => redact_phone (redact_email (redact_aadhaar t))
  end.

End Utils.
Import Utils.

(** ** Numbers

    A JavaScript number is a double: a rational of the form [m * 2^x]
    with [|m| < 2^53] and [-1074 <= x], below [2^1024] in magnitude, or
    an infinity, or [NaN].  Each arithmetic operation gives the double
    nearest to the exact result, ties going to the even mantissa.  The
    two zeros are not told apart: nothing below divides. *)

Module Double.

Local Open Scope Q_scope.

Inductive number :=
| NaN
| Infinity
| NegInfinity
| Finite (q : Q).

(** [floor (log2 q)], for a positive [q]. *)
Definition floor_log2 (q : Q) : Z :=
  let d := (Z.log2 (Qnum q) - Z.log2 (Zpos (Qden q)))%Z in
  if Qle_bool (2 ^ d) q then d else (d - 1)%Z.

(** The exponent of the last place of the doubles around a positive
    [q]: fifty-three binary digits, and no finer than [2^-1074]. *)
Definition exponent (q : Q) : Z := Z.max (floor_log2 q - 52) (-1074).

(** The nearest integer, ties going to the even one. *)
Definition nearest_even (q : Q) : Z :=
  let f := Qfloor q in
  match Qcompare (q - inject_Z f) (1 # 2) with
  | Lt => f
  | Gt => (f + 1)%Z
  | Eq => if Z.even f then f else (f + 1)%Z
  end.

(** The nearest multiple of [2^x]. *)
Definition on_grid (x : Z) (q : Q) : Q :=
  inject_Z (nearest_even (q / 2 ^ x)) * 2 ^ x.

Definition nearest_pos (q : Q) : Q := on_grid (exponent q) q.

(** Rounding to nearest is symmetric in the sign. *)
Definition nearest (q : Q) : Q :=
  match Qcompare q 0 with
  | Lt => - nearest_pos (- q)
  | _ => nearest_pos q
  end.

(** The double for an exact result: an infinity once the rounded value
    reaches [2^1024]. *)
Definition round (q : Q) : number :=
  let v := Qred (nearest q) in
  if Qle_bool (2 ^ 1024) v then Infinity
  else if Qle_bool v (- 2 ^ 1024) then NegInfinity
  else Finite v.

(** The rationals that are doubles. *)
Definition is_double (q : Q) : Prop :=
  exists m x : Z,
    q == inject_Z m * 2 ^ x
    /\ (Z.abs m < 2 ^ 53)%Z /\ (-1074 <= x)%Z /\ Qabs q < 2 ^ 1024.

Definition neg (a : number) : number :=
  match a with
  | NaN => NaN
  | Infinity => NegInfinity
  | NegInfinity => Infinity
  | Finite q => Finite (- q)
  end.

(** [a * b]. *)
Definition mul (a b : number) : number :=
  match a, b with
  | NaN, _ | _, NaN => NaN
  | Finite p, Finite q => round (p * q)
  | Finite p, Infinity | Infinity, Finite p =>
      match Qcompare p 0 with
      | Eq => NaN
      | Gt => Infinity
      | Lt => NegInfinity
      end
  | Finite p, NegInfinity | NegInfinity, Finite p =>
      match Qcompare p 0 with
      | Eq => NaN
      | Gt => NegInfinity
      | Lt => Infinity
      end
  | Infinity, Infinity | NegInfinity, NegInfinity => Infinity
  | Infinity, NegInfinity | NegInfinity, Infinity => NegInfinity
  end.

(** [a + b]. *)
Definition add (a b : number) : number :=
  match a, b with
  | NaN, _ | _, NaN => NaN
  | Finite p, Finite q => round (p + q)
  | Infinity, NegInfinity | NegInfinity, Infinity => NaN
  | Infinity, _ | _, Infinity => Infinity
  | NegInfinity, _ | _, NegInfinity => NegInfinity
  end.

(** [a - b]. *)
Definition sub (a b : number) : number := add a (neg b).

(** [Math.min(a, b)]. *)
Definition Math_min (a b : number) : number :=
  match a, b with
  | NaN, _ | _, NaN => NaN
  | NegInfinity, _ | _, NegInfinity => NegInfinity
  | Infinity, c | c, Infinity => c
  | Finite p, Finite q => if Qle_bool p q then a else b
  end.

(** [Math.floor(a)]. *)
Definition Math_floor (a : number) : number :=
  match a with
  | Finite q => Finite (inject_Z (Qfloor q))
  | _ => a
  end.

(** [Math.pow(2, n)] for an integer [n]: the power itself while it is a
    double, [Infinity] from [2^1024] on. *)
Definition Math_pow2 (n : Z) : number := round (2 ^ n).

End Double.

(** ** [utils.js]: retry delay

    [Math.random()] is an argument: a double [random] with
    [0 <= random < 1].  The attempt is an integer. *)

Module Backoff.

Import Double.
Local Open Scope Q_scope.

Definition exponentialDelay (attempt : Z) (baseDelay maxDelay : number)
  : number :=
  Math_min (mul baseDelay (Math_pow2 attempt)) maxDelay.

Definition calculateBackoff (attempt : Z) (baseDelay maxDelay : number)
           (random : number) : number :=
  let exponentialDelay := exponentialDelay attempt baseDelay maxDelay in
  let jitter :=
    mul (mul exponentialDelay (Finite (1 # 4)))
        (sub (mul random (Finite 2)) (Finite 1)) in
  Math_floor (add exponentialDelay jitter).

(** The defaults of the signature:
    [calculateBackoff(attempt, baseDelay = 1000, maxDelay = 30000)]. *)
Definition calculateBackoff_default (attempt : Z) (random : number)
  : number :=
  calculateBackoff attempt (Finite 1000) (Finite 30000) random.

(** The bound of the specification, for one jitter outcome. *)
Definition within_spec_band (attempt : Z) (baseDelay maxDelay : Q)
           (random : Q) : Prop :=
  exists d : Q,
    calculateBackoff attempt (Finite baseDelay) (Finite maxDelay)
                     (Finite random)
    = Finite d
    /\ baseDelay * 2 ^ attempt * (3 # 4) <= d
    /\ d <= baseDelay * 2 ^ attempt * (5 # 4)
    /\ d <= maxDelay.

End Backoff.

(** ** The catalog's records

    Descriptors arrive from the remote source with optional fields; a
    field that is [undefined] or [null] in JavaScript is [None] here. *)

Module Catalog.

(** A tag is a plain string or an object with a [name]. *)
Inductive tag :=
| TagString (s : text)
| TagObject (name : option text).

Record organization := {
  org_title : option text;
  org_name : option text
}.

Record group := { group_title : option text }.

Record resource := {
  res_id : option text;
  res_name : option text;
  res_description : option text;
  res_format : option text;
  res_url : option text;
  res_size : option Z;
  res_created : option text;
  res_last_modified : option text;
  res_mimetype : option text
}.

Record dataset := {
  ds_id : option text;
  ds_name : option text;
  ds_title : option text;
  ds_notes : option text;
  ds_description : option text;
  ds_organization : option organization;
  ds_sector : option text;
  ds_groups : option (list group);
  ds_tags : option (list tag);
  ds_license : option text;
  ds_license_title : option text;
  ds_license_id : option text;
  ds_metadata_created : option text;
  ds_metadata_modified : option text;
  ds_num_resources : option nat;
  ds_resources : option (list resource);
  ds_url : option text;
  ds_maintainer : option text;
  ds_author : option text;
  ds_score : option Q
}.

(** A thrown value: the objects of [createError], the errors of the
    HTTP client and the engine's own [TypeError]/[ReferenceError]; the
    code only ever reads their [message]. *)
Record js_error := { message : option text }.

Definition TypeError (m : string) : js_error := {| message := Some (lit m) |}.
Definition ReferenceError (x : string) : js_error :=
  {| message := Some (lit x ++ lit " is not defined") |}.

(** Truthiness of an optional string: absent and empty are falsy. *)
Definition truthy (o : option text) : bool :=
  match o with
  | Some (_ :: _) => true
  | _ => false
  end.

(** [a || b] on optional strings. *)
Definition or_else (a b : option text) : option text :=
  if truthy a then a else b.

(** [a || 'default'] *)
Definition or_default (a : option text) (d : text) : text :=
  match a with
  | Some (c :: s) => c :: s
  | _ => d
  end.

(** [n || d] on optional numbers: absent and zero are falsy. *)
Definition num_or (o : option Z) (d : Z) : Z :=
  match o with
  | Some n => if (n =? 0)%Z then d else n
  | None => d
  end.

(** What a template literal prints for an optional string. *)
Definition interpolate (o : option text) : text :=
  match o with
  | Some s => s
  | None => lit "undefined"
  end.

Definition object_Object : text := lit "[object Object]".

End Catalog.
Import Catalog.

(** ** [utils.js]: descriptor formatting *)

Module Format.

Definition is_space (c : ascii) : bool :=
  between 9 13 c || (code c =? 32) || (code c =? 160).

(** [s.trim().length > 0] *)
Definition nonblank (s : text) : bool := negb (forallb is_space s).

(** [truncateText(text, maxLength)] *)
Definition truncateText (t : option text) (maxLength : nat) : option text :=
  match t with
  | None => None
  | Some s =>
      if negb (truthy t) || (List.length s <=? maxLength) then Some s
      else Some (firstn maxLength s ++ lit "...")
  end.

(** [String(t)] for a tag. *)
Definition tag_toString (t : tag) : text :=
  match t with
  | TagString s => s
  | TagObject _ => object_Object
  end.

Definition scored (present : bool) (weight : nat) : nat :=
  if present then weight else 0.

(** [dataset[field] && dataset[field].toString().trim().length > 0]
    for a string field. *)
Definition filled (o : option text) : bool :=
  match o with
  | Some s => truthy o && nonblank s
  | None => false
  end.

(** [calculateQualityScore]: the weights are summed in the order of the
    table. *)
Definition calculateQualityScore (d : dataset) : nat :=
  scored (filled (ds_title d)) 10
  + scored (filled (ds_description d)) 15
  + scored (match ds_resources d with
            | Some (_ :: _) => true
            | _ => false
            end) 25
  + scored (match ds_organization d with
            | Some _ => true
            | None => false
            end) 10
  + scored (match ds_tags d with
            | Some ts => nonblank (join (lit ",") (map tag_toString ts))
            | None => false
            end) 10
  + scored (filled (ds_metadata_created d)) 5
  + scored (filled (ds_metadata_modified d)) 5
  + scored (filled (ds_license d)) 10
  + scored (filled (ds_maintainer d)) 5
  + scored (filled (ds_author d)) 5.

Record metadata := {
  m_id : option text;
  m_title : option text;
  m_description : option text;
  m_organization : text;
  m_sector : text;
  m_tags : list (option text);
  m_license : text;
  m_createdDate : option text;
  m_modifiedDate : option text;
  m_resourceCount : nat;
  m_url : text;
  m_qualityScore : nat
}.

Definition organization_label (o : option organization) : text :=
  match o with
  | Some org =>
      or_default (or_else (org_title org) (org_name org)) (lit "Unknown")
  | None => lit "Unknown"
  end.

Definition sector_label (d : dataset) : text :=
  or_default
    (or_else (ds_sector d)
             (match ds_groups d with
              | Some (g :: _) => group_title g
              | _ => None
              end))
    (lit "General").

(** [typeof t === 'string' ? t : t.name] *)
Definition tag_name (t : tag) : option text :=
  match t with
  | TagString s => Some s
  | TagObject n => n
  end.

(** [dataset.num_resources || dataset.resources?.length || 0] *)
Definition resource_count (d : dataset) : nat :=
  match ds_num_resources d with
  | Some (S n) => S n
  | _ =>
      match ds_resources d with
      | Some rs => List.length rs
      | None => 0
      end
  end.

Definition formatDatasetMetadata (d : dataset) : metadata :=
  {| m_id := or_else (ds_id d) (ds_name d);
     m_title := ds_title d;
     m_description :=
       truncateText (or_else (ds_notes d) (ds_description d)) 500;
     m_organization := organization_label (ds_organization d);
     m_sector := sector_label d;
     m_tags := match ds_tags d with
               | Some ts => map tag_name ts
               | None => []
               end;
     m_license :=
       or_default (or_else (ds_license_title d) (ds_license_id d))
                  (lit "Not specified");
     m_createdDate := ds_metadata_created d;
     m_modifiedDate := ds_metadata_modified d;
     m_resourceCount := resource_count d;
     m_url :=
       or_default (ds_url d)
                  (lit "https://data.gov.in/resource/"
                   ++ interpolate (ds_name d));
     m_qualityScore := calculateQualityScore d |}.

End Format.
Import Format.

(** ** [governance.js]: the governance layer *)

Module Governance.

(** The feature flags; the constructor reads each as
    [config.flag !== false], so an absent flag is enabled. *)
Record config := {
  respectLicenses : bool;
  blockRestrictedData : bool;
  enableAuditLog : bool;
  piiDetection : bool
}.

Definition flag (o : option bool) : bool :=
  match o with
  | Some false => false
  | _ => true
  end.

Definition make_config (licenses restricted audit pii : option bool)
  : config :=
  {| respectLicenses := flag licenses;
     blockRestrictedData := flag restricted;
     enableAuditLog := flag audit;
     piiDetection := flag pii |}.

Record compliance := {
  licenseCheck : bool;
  restrictionCheck : bool;
  piiCheck : bool
}.

Record verdict := {
  allowed : bool;
  warnings : list text;
  errors : list text;
  checks : compliance
}.

Record audit_entry := {
  timestamp : text;
  datasetId : option text;
  datasetTitle : option text;
  action : text;
  logged : verdict
}.

(** The mutable fields of a [GovernanceLayer]; the two [Set]s keep
    their insertion order. *)
Record state := {
  auditLog : list audit_entry;
  blockedDatasets : list (option text);
  licenseWarnings : list (option text)
}.

Definition initial_state : state :=
  {| auditLog := []; blockedDatasets := []; licenseWarnings := [] |}.

Definition key_eq_dec (a b : option text) : {a = b} + {a <> b}.
Proof. decide equality. apply (list_eq_dec ascii_dec). Defined.

(** [Set.prototype.add] *)
Fixpoint set_add (k : option text) (s : list (option text))
  : list (option text) :=
  match s with
  | [] => [k]
  | x :: s' => if key_eq_dec k x then s else x :: set_add k s'
  end.

(** [dataset.id || dataset.name] *)
Definition dataset_key (d : dataset) : option text :=
  or_else (ds_id d) (ds_name d).

Definition restrictedKeywords : list text :=
  map lit ["internal-use"; "restricted"; "confidential"; "classified";
           "private"; "sensitive"; "secret"]%string.

(** [t.name || t], then what [join] prints for it. *)
Definition tag_label (t : tag) : text :=
  match t with
  | TagString s => s
  | TagObject n => or_default n object_Object
  end.

Definition tags_text (d : dataset) : text :=
  match ds_tags d with
  | Some ts => join (lit " ") (map tag_label ts)
  | None => []
  end.

Definition datasetText (d : dataset) : text :=
  toLowerCase
    (join (lit " ")
          [or_default (ds_title d) [];
           or_default (or_else (ds_description d) (ds_notes d)) [];
           tags_text d]).

Definition foundRestriction (d : dataset) : option text :=
  find (fun keyword => includes (datasetText d) keyword) restrictedKeywords.

Record restriction_result := {
  r_allowed : bool;
  r_reason : text;
  r_keyword : option text
}.

Definition blocked_reason (keyword : text) : text :=
  lit "Dataset contains restricted content (keyword: '" ++ keyword
  ++ lit "'). Access blocked per governance policy.".

Definition checkRestrictions (st : state) (d : dataset)
  : restriction_result * state :=
  match foundRestriction d with
  | Some (c :: k) =>
      ({| r_allowed := false;
          r_reason := blocked_reason (c :: k);
          r_keyword := Some (c :: k) |},
       {| auditLog := auditLog st;
          blockedDatasets := set_add (dataset_key d) (blockedDatasets st);
          licenseWarnings := licenseWarnings st |})
  | _ =>
      ({| r_allowed := true;
          r_reason := lit "No restrictions found";
          r_keyword := None |}, st)
  end.

Definition openLicenses : list text :=
  map lit ["cc-by"; "cc-by-4.0"; "creative commons attribution"; "cc0";
           "public domain"; "odc-by"; "odbl"; "open government license"]%string.

Record license_result := {
  restrictive : bool;
  warning : option text;
  license : text;
  requiresAttribution : bool;
  compliant : option bool
}.

Definition declared_license (d : dataset) : text :=
  or_default (or_else (ds_license_title d) (ds_license_id d)) [].

Definition no_license_warning : text :=
  lit "No license specified. Use with caution. Attribution recommended.".

Definition unknown_license_warning (l : text) : text :=
  lit "License '" ++ l
  ++ lit "' may have restrictions. Review terms before use.".

Definition note_license_warning (st : state) (d : dataset) : state :=
  {| auditLog := auditLog st;
     blockedDatasets := blockedDatasets st;
     licenseWarnings := set_add (dataset_key d) (licenseWarnings st) |}.

Definition checkLicense (st : state) (d : dataset)
  : license_result * state :=
  let l := declared_license d in
  let isOpenLicense :=
    existsb (fun ol => includes (toLowerCase l) ol) openLicenses in
  if negb (truthy (Some l))
     || text_eqb (toLowerCase l) (lit "not specified")
  then
    ({| restrictive := true;
        warning := Some no_license_warning;
        license := lit "Not specified";
        requiresAttribution := true;
        compliant := None |},
     note_license_warning st d)
  else if negb isOpenLicense then
    ({| restrictive := true;
        warning := Some (unknown_license_warning l);
        license := l;
        requiresAttribution := true;
        compliant := None |},
     note_license_warning st d)
  else
    ({| restrictive := false;
        warning := None;
        license := l;
        requiresAttribution := includes (toLowerCase l) (lit "cc-by");
        compliant := Some true |}, st).

Definition max_audit_entries : nat := 1000.

(** [logAccess]: append, then drop the oldest entry past the capacity.
    [now] is the clock reading of [new Date().toISOString()]. *)
Definition logAccess (cfg : config) (now : text) (st : state)
           (d : dataset) (v : verdict) : state :=
  if negb (enableAuditLog cfg) then st
  else
    let entry := {| timestamp := now;
                    datasetId := dataset_key d;
                    datasetTitle := ds_title d;
                    action := lit "ACCESS_ATTEMPT";
                    logged := v |} in
    let pushed := auditLog st ++ [entry] in
    {| auditLog := if max_audit_entries <? List.length pushed
                   then tl pushed else pushed;
       blockedDatasets := blockedDatasets st;
       licenseWarnings := licenseWarnings st |}.

Definition fresh_verdict : verdict :=
  {| allowed := true;
     warnings := [];
     errors := [];
     checks := {| licenseCheck := true;
                  restrictionCheck := true;
                  piiCheck := true |} |}.

Definition block (v : verdict) (reason : text) : verdict :=
  {| allowed := false;
     warnings := warnings v;
     errors := errors v ++ [reason];
     checks := {| licenseCheck := licenseCheck (checks v);
                  restrictionCheck := false;
                  piiCheck := piiCheck (checks v) |} |}.

Definition warn_license (v : verdict) (w : option text) : verdict :=
  {| allowed := allowed v;
     warnings := warnings v ++ [interpolate w];
     errors := errors v;
     checks := {| licenseCheck := false;
                  restrictionCheck := restrictionCheck (checks v);
                  piiCheck := piiCheck (checks v) |} |}.

Definition validateDatasetAccess (cfg : config) (now : text) (st : state)
           (d : dataset) : verdict * state :=
  let v0 := fresh_verdict in
  let '(v1, st1) :=
    if blockRestrictedData cfg then
      let '(rc, st') := checkRestrictions st d in
      if negb (r_allowed rc) then (block v0 (r_reason rc), st')
      else (v0, st')
    else (v0, st) in
  let '(v2, st2) :=
    if respectLicenses cfg then
      let '(lc, st') := checkLicense st1 d in
      if restrictive lc then (warn_license v1 (warning lc), st')
      else (v1, st')
    else (v1, st1) in
  let st3 := if enableAuditLog cfg then logAccess cfg now st2 d v2
             else st2 in
  (v2, st3).

(** [validateResourceDownload] and [validateURL].  The WHATWG parser
    behind [new URL(url)] belongs to the platform: [parseURL] returns
    the protocol, the hostname and the normalised href, or the message
    of the error the constructor throws. *)
Section ResourceDownload.

Variable parseURL : text -> text + (text * text * text).

Record url_check := { safe : bool; url_reason : option text }.

Definition allowedProtocols : list text := map lit ["http:"; "https:"]%string.

Definition suspiciousHosts : list text :=
  map lit ["localhost"; "127.0.0.1"; "0.0.0.0"; "169.254.169.254"]%string.

Definition validateURL (url : text) : url_check :=
  match parseURL url with
  | inl msg =>
      {| safe := false; url_reason := Some (lit "Invalid URL: " ++ msg) |}
  | inr (protocol, hostname, href) =>
      if negb (existsb (text_eqb protocol) allowedProtocols) then
        {| safe := false;
           url_reason := Some (lit "Unsafe protocol: " ++ protocol
                               ++ lit ". Only HTTP/HTTPS allowed.") |}
      else if existsb (fun host => includes hostname host) suspiciousHosts
      then
        {| safe := false;
           url_reason :=
             Some (lit "Cannot access internal/localhost URLs for security reasons.") |}
      else {| safe := true; url_reason := None |}
  end.

Record download_verdict := {
  dl_allowed : bool;
  dl_warnings : list text;
  dl_errors : list text
}.

(** The size of an attachment is a number.  [parseInt] turns it into
    its text and reads the leading integer off that text, which is the
    number itself only while the text is in plain decimal notation; the
    template literal prints the same text.  Both belong to the platform:
    [parseInt] and [numberToString] are arguments. *)
Variable parseInt : Z -> Z.
Variable numberToString : Z -> text.

Definition large_size_limit : Z := 500 * 1024 * 1024.

Definition validateResourceDownload (r : resource) : download_verdict :=
  let ws :=
    match res_size r with
    | Some n =>
        if negb (n =? 0)%Z && (large_size_limit <? parseInt n)%Z then
          [lit "Large file size (" ++ numberToString n
           ++ lit "). Consider streaming or chunked download."]
        else []
    | None => []
    end in
  if truthy (res_url r) then
    let check := validateURL (or_default (res_url r) []) in
    if negb (safe check) then
      {| dl_allowed := false;
         dl_warnings := ws;
         dl_errors := [interpolate (url_reason check)] |}
    else {| dl_allowed := true; dl_warnings := ws; dl_errors := [] |}
  else {| dl_allowed := true; dl_warnings := ws; dl_errors := [] |}.

End ResourceDownload.

End Governance.

(** ** The remote catalog and the effects of a call

    An [async] method is a computation over the log of the calls made so
    far.  It finishes with a value, throws, or, for the one loop whose
    number of rounds the catalog decides, runs out of fuel. *)

Module Remote.

Record search_options := {
  rows : nat;
  start : nat;
  fq : option text;
  sort : text;
  facet : bool;
  facetFields : list text
}.

Record facet_item := { fi_name : option text; fi_count : Z }.

Record facet_data := { items : option (list facet_item) }.

Record raw_facets := {
  f_organization : option facet_data;
  f_groups : option facet_data;
  f_tags : option facet_data;
  f_res_format : option facet_data
}.

Record search_result := {
  count : option nat;
  results : option (list dataset);
  facets : option raw_facets
}.

(** The calls the components make on one another. *)
Inductive event :=
| CallPackageSearch (q : text) (o : search_options)
| CallPackageShow (id : text)
| CallDownloadResource (url : text) (maxSize : Z)
| CallValidateResourceDownload (r : resource).

Definition history := list event.

(** The catalog client, as the engines see it: each answer may depend
    on everything that was asked before. *)
Record client := {
  packageSearch : history -> text -> search_options
                  -> js_error + search_result;
  packageShow : history -> text -> js_error + option dataset;
  downloadResource : history -> text -> Z -> js_error + text
}.

Inductive outcome (A : Type) :=
| Done (a : A)
| Thrown (e : js_error)
| OutOfFuel.
Arguments Done {A} a.
Arguments Thrown {A} e.
Arguments OutOfFuel {A}.

Definition M (A : Type) := history -> outcome A * history.

Definition ret {A} (a : A) : M A := fun h => (Done a, h).

Definition bind {A B} (m : M A) (f : A -> M B) : M B :=
  fun h =>
    match m h with
    | (Done a, h') => f a h'
    | (Thrown e, h') => (Thrown e, h')
    | (OutOfFuel, h') => (OutOfFuel, h')
    end.

Definition throw {A} (e : js_error) : M A := fun h => (Thrown e, h).

Definition out_of_fuel {A} : M A := fun h => (OutOfFuel, h).

(** [try { m } catch (error) { handler error }] *)
Definition try_catch {A} (m : M A) (handler : js_error -> M A) : M A :=
  fun h =>
    match m h with
    | (Thrown e, h') => handler e h'
    | r => r
    end.

Definition lift {A} (r : js_error + A) : outcome A :=
  match r with
  | inl e => Thrown e
  | inr a => Done a
  end.

Definition call_packageSearch (c : client) (q : text) (o : search_options)
  : M search_result :=
  fun h => (lift (packageSearch c h q o), h ++ [CallPackageSearch q o]).

Definition call_packageShow (c : client) (id : text) : M (option dataset) :=
  fun h => (lift (packageShow c h id), h ++ [CallPackageShow id]).

Definition call_downloadResource (c : client) (url : text) (maxSize : Z)
  : M text :=
  fun h => (lift (downloadResource c h url maxSize),
            h ++ [CallDownloadResource url maxSize]).

Definition run {A} (m : M A) : outcome A * history := m [].

End Remote.
Import Remote.

Declare Scope js_scope.
Delimit Scope js_scope with js.
Notation "x <- m ;; k" := (bind m (fun x => k))
  (at level 61, m at next level, right associativity) : js_scope.
Notation "' p <- m ;; k" := (bind m (fun x => match x with p => k end))
  (at level 61, p pattern, m at next level, right associativity) : js_scope.

(** ** [utils.js]: query compilation *)

Module Query.

Record filters := {
  organization : option text;
  sector : option text;
  tags : option (list text);
  format : option (list text);
  dateFrom : option text;
  dateTo : option text
}.

Definition no_filters : filters :=
  {| organization := None; sector := None; tags := None; format := None;
     dateFrom := None; dateTo := None |}.

Definition present {A} (o : option A) : bool :=
  match o with
  | Some _ => true
  | None => false
  end.

(** [Object.keys(filters).length > 0] *)
Definition has_keys (f : filters) : bool :=
  present (organization f) || present (sector f) || present (tags f)
  || present (format f) || present (dateFrom f) || present (dateTo f).

Fixpoint trim_left (s : text) : text :=
  match s with
  | c :: s' => if is_space c then trim_left s' else s
  | [] => []
  end.

Definition trim (s : text) : text := rev (trim_left (rev (trim_left s))).

(** [replace(/[^\w\s\-\.]/gi, ' ')] *)
Definition blank_special (c : ascii) : ascii :=
  if is_mail c || is_space c then c else " "%char.

(** [replace(/\s+/g, ' ')] *)
Fixpoint collapse (in_space : bool) (s : text) : text :=
  match s with
  | [] => []
  | c :: s' =>
      if is_space c then
        if in_space then collapse true s' else " "%char :: collapse true s'
      else c :: collapse false s'
  end.

Definition sanitizeQuery (query : option text) : text :=
  match query with
  | Some (c :: q) => firstn 500 (collapse false (map blank_special (trim (c :: q))))
  | _ => []
  end.

(** [buildSolrQuery]; [formatDateForAPI] sits on the date library and is
    an argument: it returns the formatted date, or [None] for [null]. *)
Section Solr.

Variable formatDateForAPI : text -> option text.

Definition dquote : ascii := ascii_of_nat 34.

Definition quoted (field : string) (v : text) : text :=
  lit field ++ lit ":" ++ [dquote] ++ v ++ [dquote].

Definition date_bound (o : option text) : text :=
  match o with
  | Some (c :: d) =>
      match formatDateForAPI (c :: d) with
      | Some s => s
      | None => lit "null"
      end
  | _ => lit "*"
  end.

Definition conditions (f : filters) : list text :=
  (if truthy (organization f)
   then [quoted "organization" (or_default (organization f) [])] else [])
  ++ (if truthy (sector f)
      then [quoted "sector" (or_default (sector f) [])] else [])
  ++ (match tags f with
      | Some (t :: ts) =>
          [lit "(" ++ join (lit " OR ") (map (quoted "tags") (t :: ts))
           ++ lit ")"]
      | _ => []
      end)
  ++ (if truthy (dateFrom f) || truthy (dateTo f)
      then [lit "metadata_modified:[" ++ date_bound (dateFrom f)
            ++ lit " TO " ++ date_bound (dateTo f) ++ lit "]"]
      else []).

Definition match_all : text := lit "*:*".

Definition buildSolrQuery (f : filters) : text :=
  match conditions f with
  | [] => match_all
  | cs => join (lit " AND ") cs
  end.

End Solr.

End Query.
Import Query.

(** ** [search-discovery.js]: the discovery engine *)

Module Discovery.

Local Open Scope js_scope.

Record config := { relevanceThreshold : Q }.

(** [config.relevanceThreshold || 0.5] *)
Definition make_config (threshold : option Q) : config :=
  {| relevanceThreshold :=
       match threshold with
       | Some t => if Qeq_bool t 0 then 1 # 2 else t
       | None => 1 # 2
       end |}.

(** [dataset.score || 1.0] *)
Definition score_of (d : dataset) : Q :=
  match ds_score d with
  | Some s => if Qeq_bool s 0 then 1 else s
  | None => 1
  end.

Definition relevant (cfg : config) (d : dataset) : bool :=
  Qle_bool (relevanceThreshold cfg) (score_of d).

Record formatted_resource := {
  fr_id : option text;
  fr_name : option text;
  fr_description : option text;
  fr_format : option text;
  fr_url : option text;
  fr_size : option Z;
  fr_created : option text;
  fr_modified : option text;
  fr_mimetype : option text
}.

Definition formatResource (r : resource) : formatted_resource :=
  {| fr_id := res_id r;
     fr_name := res_name r;
     fr_description := res_description r;
     fr_format := res_format r;
     fr_url := res_url r;
     fr_size := res_size r;
     fr_created := res_created r;
     fr_modified := res_last_modified r;
     fr_mimetype := res_mimetype r |}.

Definition formatResources (rs : list resource) : list formatted_resource :=
  map formatResource rs.

Definition resources_of (d : dataset) : list resource :=
  match ds_resources d with
  | Some rs => rs
  | None => []
  end.

(** Facets: sort by descending count, keep the first twenty.  The
    engine's sort is stable; insertion from the right keeps ties in
    their original order. *)
Fixpoint insert_by_count (x : facet_item) (l : list facet_item)
  : list facet_item :=
  match l with
  | [] => [x]
  | y :: l' =>
      if (fi_count x <? fi_count y)%Z then y :: insert_by_count x l'
      else x :: l
  end.

Definition sort_by_count (l : list facet_item) : list facet_item :=
  fold_right insert_by_count [] l.

Definition formatFacetItems (f : option facet_data) : list facet_item :=
  match f with
  | Some fd =>
      match items fd with
      | Some its => firstn 20 (sort_by_count its)
      | None => []
      end
  | None => []
  end.

Record processed_facets := {
  organizations : option (list facet_item);
  sectors : option (list facet_item);
  tag_counts : option (list facet_item);
  formats : option (list facet_item)
}.

Definition facet_field (f : option facet_data) : option (list facet_item) :=
  match f with
  | Some _ => Some (formatFacetItems f)
  | None => None
  end.

Definition processFacets (f : option raw_facets) : processed_facets :=
  match f with
  | Some fs =>
      {| organizations := facet_field (f_organization fs);
         sectors := facet_field (f_groups fs);
         tag_counts := facet_field (f_tags fs);
         formats := facet_field (f_res_format fs) |}
  | None =>
      {| organizations := None; sectors := None; tag_counts := None;
         formats := None |}
  end.

Record search_hit := {
  hit_meta : metadata;
  relevanceScore : Q;
  hit_resources : list formatted_resource
}.

Definition format_hit (d : dataset) : search_hit :=
  {| hit_meta := formatDatasetMetadata d;
     relevanceScore := score_of d;
     hit_resources := formatResources (resources_of d) |}.

Record report := {
  success : bool;
  error : option text;
  original : option text;
  processed : option text;
  report_filters : filters;
  hits : list search_hit;
  hit_count : nat;
  totalAvailable : option nat;
  report_facets : option processed_facets
}.

Definition batchSize : nat := 100.

Definition page_request (filterQuery : option text) (rows start : nat)
  : search_options :=
  {| rows := rows;
     start := start;
     fq := filterQuery;
     sort := lit "score desc, metadata_modified desc";
     facet := true;
     facetFields := map lit ["organization"; "groups"; "tags"; "res_format"]%string |}.

(** What the [while] loop leaves in the variables declared before it. *)
Record loop_state := {
  acc : list dataset;
  offset : nat;
  totalFound : nat
}.

(** The [while (results.length < maxResults)] loop.  [searchResult] is
    a [const] of the loop body: each round has its own, and none is
    left when the loop is over. *)
Fixpoint pages (fuel : nat) (c : client) (cfg : config)
         (finalQuery : text) (filterQuery : option text)
         (maxResults : nat) (s : loop_state) : M loop_state :=
  match fuel with
  | 0 => out_of_fuel
  | S fuel' =>
      if List.length (acc s) <? maxResults then
        let rows := Nat.min batchSize (maxResults - List.length (acc s)) in
        searchResult <-
          call_packageSearch c finalQuery
            (page_request filterQuery rows (offset s)) ;;
        let total := match count searchResult with
                     | Some n => n
                     | None => 0
                     end in
        match results searchResult with
        | None | Some [] =>
            ret {| acc := acc s; offset := offset s; totalFound := total |}
        | Some page =>
            let acc' := acc s ++ filter (relevant cfg) page in
            if (List.length page <? rows) || (total <=? List.length acc')
            then ret {| acc := acc'; offset := offset s;
                        totalFound := total |}
            else pages fuel' c cfg finalQuery filterQuery maxResults
                       {| acc := acc'; offset := offset s + rows;
                          totalFound := total |}
        end
      else ret s
  end.

(** The values an identifier can be bound to in [search]. *)
Inductive value :=
| VText (t : option text)
| VFilters (f : filters)
| VNat (n : nat)
| VDatasets (l : list dataset)
| VHits (l : list search_hit)
| VResponse (r : search_result)
| VFunction.

Definition environment := list (string * value).

Fixpoint lookup (env : environment) (x : string) : option value :=
  match env with
  | [] => None
  | (y, v) :: env' => if String.eqb x y then Some v else lookup env' x
  end.

(** Reading an identifier that no enclosing scope declares throws. *)
Definition read (env : environment) (x : string) : M value :=
  match lookup env x with
  | Some v => ret v
  | None => throw (ReferenceError x)
  end.

(** The bindings visible where [search] builds its result: the
    parameters, the declarations of the [try] block, and the names the
    module imports or declares. *)
Definition scope_at_return (query : option text) (f : filters)
           (maxResults : nat) (sanitizedQuery solrQuery finalQuery : text)
           (filterQuery : option text) (s : loop_state)
           (formattedResults : list search_hit) : environment :=
  [("formattedResults", VHits formattedResults);
   ("totalFound", VNat (totalFound s));
   ("start", VNat (offset s));
   ("results", VDatasets (acc s));
   ("batchSize", VNat batchSize);
   ("filterQuery", VText filterQuery);
   ("finalQuery", VText (Some finalQuery));
   ("solrQuery", VText (Some solrQuery));
   ("sanitizedQuery", VText (Some sanitizedQuery));
   ("query", VText query);
   ("filters", VFilters f);
   ("maxResults", VNat maxResults);
   ("sanitizeQuery", VFunction);
   ("buildSolrQuery", VFunction);
   ("formatDatasetMetadata", VFunction);
   ("SearchDiscovery", VFunction)]%string.

Section Search.

Variable formatDateForAPI : text -> option text.

Definition failure (query : option text) (f : filters) (e : js_error)
  : report :=
  {| success := false;
     error := Some (or_default (message e) (lit "Search failed"));
     original := query;
     processed := None;
     report_filters := f;
     hits := [];
     hit_count := 0;
     totalAvailable := None;
     report_facets := None |}.

Definition search (fuel : nat) (c : client) (cfg : config)
           (query : option text) (f : filters) (maxResults : nat)
  : M report :=
  try_catch
    (let sanitizedQuery :=
       if truthy query then sanitizeQuery query else [] in
     let solrQuery :=
       if has_keys f then buildSolrQuery formatDateForAPI f
       else match_all in
     let finalQuery :=
       if truthy (Some sanitizedQuery) then sanitizedQuery
       else solrQuery in
     let filterQuery :=
       if negb (text_eqb solrQuery match_all) then Some solrQuery
       else None in
     s <- pages fuel c cfg finalQuery filterQuery maxResults
                {| acc := []; offset := 0; totalFound := 0 |} ;;
     let formattedResults := map format_hit (firstn maxResults (acc s)) in
     let env := scope_at_return query f maxResults sanitizedQuery
                                solrQuery finalQuery filterQuery s
                                formattedResults in
     v <- read env "searchResult" ;;
     match v with
     | VResponse searchResult =>
         ret {| success := true;
                error := None;
                original := query;
                processed := Some finalQuery;
                report_filters := f;
                hits := formattedResults;
                hit_count := List.length formattedResults;
                totalAvailable := Some (totalFound s);
                report_facets :=
                  Some (processFacets (facets searchResult)) |}
     | _ => throw (TypeError "Cannot read properties of undefined (reading 'facets')")
     end)
    (fun e => ret (failure query f e)).

(** [searchByIds]: one round of [try]/[catch] per id.  A fetch that
    resolves to nothing makes [formatDatasetMetadata] throw. *)
Inductive id_record :=
| Descriptor (m : metadata) (rs : list formatted_resource)
| Failed (id : text) (error : text).

Definition fetch_record (c : client) (datasetId : text) : M id_record :=
  try_catch
    (d <- call_packageShow c datasetId ;;
     match d with
     | Some dataset =>
         ret (Descriptor (formatDatasetMetadata dataset)
                         (formatResources (resources_of dataset)))
     | None =>
         throw (TypeError "Cannot read properties of undefined (reading 'id')")
     end)
    (fun e =>
       ret (Failed datasetId
                   (or_default (message e)
                               (lit "Failed to fetch dataset")))).

Fixpoint fetch_each (c : client) (ids : list text)
         (found : list id_record) : M (list id_record) :=
  match ids with
  | [] => ret found
  | datasetId :: rest =>
      r <- fetch_record c datasetId ;;
      fetch_each c rest (found ++ [r])
  end.

Definition searchByIds (c : client) (datasetIds : list text)
  : M (list id_record) :=
  match datasetIds with
  | [] => ret []
  | _ => fetch_each c datasetIds []
  end.

End Search.

End Discovery.

(** ** [data-acquisition.js]: the acquisition engine *)

Module Acquisition.

Local Open Scope js_scope.
Local Open Scope Z_scope.

Record config := {
  maxFileSize : Z;
  resourceLimit : Z
}.

(** The constructor: [(config.maxFileSize || 50) * 1024 * 1024] and
    [config.resourceLimit || 3]. *)
Definition make_config (maxFileSizeMB limit : option Z) : config :=
  {| maxFileSize := num_or maxFileSizeMB 50 * 1024 * 1024;
     resourceLimit := num_or limit 3 |}.

Record options := {
  o_resourceLimit : option Z;
  o_includeData : option bool;
  o_maxFileSize : option Z
}.

Definition supportedFormats : list text :=
  map lit ["csv"; "json"; "xml"; "xls"; "xlsx"; "txt"; "tsv"]%string.

Record resource_metadata := {
  rm_id : option text;
  rm_name : option text;
  rm_description : option text;
  rm_format : option text;
  rm_url : option text;
  rm_size : text;
  rm_created : option text;
  rm_modified : option text;
  rm_mimetype : option text
}.

Section Engine.

(** [parseInt] turns the declared size, a number, into its text and
    reads the leading integer off that text: the number itself only
    while the text is in plain decimal notation.  [formatBytes] prints a
    size through [Math.log] and [toFixed]; the decoded preview belongs to
    the parsers.  All three are arguments. *)
Variable parseInt : Z -> Z.
Variable formatBytes : Z -> text.
Variable preview : Type.
Variable parseResourceData : text -> text -> preview.

Definition formatResourceMetadata (r : resource) : resource_metadata :=
  {| rm_id := res_id r;
     rm_name := res_name r;
     rm_description := res_description r;
     rm_format := res_format r;
     rm_url := res_url r;
     rm_size := match res_size r with
                | Some n => if n =? 0 then lit "Unknown" else formatBytes n
                | None => lit "Unknown"
                end;
     rm_created := res_created r;
     rm_modified := res_last_modified r;
     rm_mimetype := res_mimetype r |}.

Record resource_outcome := {
  meta : resource_metadata;
  acquired : bool;
  reason : option text;
  failure : option (option text);
  dataSize : option text;
  data : option preview
}.

Definition not_acquired (r : resource) (why : text) : resource_outcome :=
  {| meta := formatResourceMetadata r;
     acquired := false;
     reason := Some why;
     failure := None;
     dataSize := None;
     data := None |}.

Definition errored (r : resource) (e : js_error) : resource_outcome :=
  {| meta := formatResourceMetadata r;
     acquired := false;
     reason := None;
     failure := Some (message e);
     dataSize := None;
     data := None |}.

Definition declared_format (r : resource) : text :=
  toLowerCase (or_default (res_format r) []).

Definition oversized (cfg : config) (r : resource) : bool :=
  match res_size r with
  | Some n => negb (n =? 0) && (maxFileSize cfg <? parseInt n)
  | None => false
  end.

Record resource_options := {
  includeData : bool;
  ro_maxFileSize : Z
}.

Definition acquireResource (c : client) (cfg : config) (r : resource)
           (o : resource_options) : M resource_outcome :=
  let format := declared_format r in
  if negb (existsb (text_eqb format) supportedFormats) then
    ret (not_acquired r (lit "Format '" ++ format
                         ++ lit "' not supported for download"))
  else if oversized cfg r then
    ret (not_acquired r
           (lit "File size ("
            ++ formatBytes (match res_size r with
                            | Some n => n
                            | None => 0
                            end)
            ++ lit ") exceeds limit ("
            ++ formatBytes (maxFileSize cfg) ++ lit ")"))
  else if includeData o && truthy (res_url r) then
    try_catch
      (bytes <- call_downloadResource c (or_default (res_url r) [])
                  (if ro_maxFileSize o =? 0 then maxFileSize cfg
                   else ro_maxFileSize o) ;;
       ret {| meta := formatResourceMetadata r;
              acquired := true;
              reason := None;
              failure := None;
              dataSize := Some (formatBytes (Z.of_nat (List.length bytes)));
              data := Some (parseResourceData bytes format) |})
      (fun e => ret (errored r e))
  else ret (not_acquired r (lit "Data download not requested")).

Record summary := {
  s_id : option text;
  s_title : option text;
  s_description : option text;
  s_organization : text;
  s_license : text;
  s_tags : list (option text);
  s_metadata_created : option text;
  s_metadata_modified : option text;
  s_url : text
}.

Definition summarize (d : dataset) : summary :=
  {| s_id := or_else (ds_id d) (ds_name d);
     s_title := ds_title d;
     s_description := ds_notes d;
     s_organization :=
       match ds_organization d with
       | Some org => or_default (org_title org) (lit "Unknown")
       | None => lit "Unknown"
       end;
     s_license := or_default (ds_license_title d) (lit "Not specified");
     s_tags := match ds_tags d with
               | Some ts => map (fun t => match t with
                                          | TagString _ => None
                                          | TagObject n => n
                                          end) ts
               | None => []
               end;
     s_metadata_created := ds_metadata_created d;
     s_metadata_modified := ds_metadata_modified d;
     s_url := lit "https://data.gov.in/resource/" ++ interpolate (ds_name d) |}.

Record acquisition := {
  success : bool;
  item : option summary;
  datasetId : option text;
  error : option (option text);
  resources : list resource_outcome;
  resourceCount : option nat
}.

(** The [for (let i = 0; i < limit; i++)] loop: [todo] rounds are
    left, [i] is the index of the next attachment. *)
Fixpoint each_resource (c : client) (cfg : config)
         (all : list resource) (o : resource_options)
         (todo : nat) (i : nat) (processed : list resource_outcome)
  : M (list resource_outcome) :=
  match todo with
  | O => ret processed
  | S todo' =>
      match nth_error all i with
      | None =>
          throw (TypeError "Cannot read properties of undefined (reading 'name')")
      | Some r =>
          out <- try_catch (acquireResource c cfg r o)
                           (fun e => ret (errored r e)) ;;
          each_resource c cfg all o todo' (S i) (processed ++ [out])
      end
  end.

(** [Math.min(options.resourceLimit || this.resourceLimit,
    resources.length)] *)
Definition limit_of (cfg : config) (o : options) (all : list resource)
  : Z :=
  Z.min (num_or (o_resourceLimit o) (resourceLimit cfg))
        (Z.of_nat (List.length all)).

Definition acquireDataset (c : client) (cfg : config) (datasetId : text)
           (o : options) : M acquisition :=
  try_catch
    (found <- call_packageShow c datasetId ;;
     match found with
     | None =>
         throw {| message := Some (lit "Dataset " ++ datasetId
                                   ++ lit " not found") |}
     | Some d =>
         let all := match ds_resources d with
                    | Some rs => rs
                    | None => []
                    end in
         let limit := limit_of cfg o all in
         processed <-
           each_resource c cfg all
             {| includeData := match o_includeData o with
                               | Some false => false
                               | _ => true
                               end;
                ro_maxFileSize := num_or (o_maxFileSize o)
                                         (maxFileSize cfg) |}
             (Z.to_nat limit) 0 [] ;;
         ret {| success := true;
                item := Some (summarize d);
                datasetId := None;
                error := None;
                resources := processed;
                resourceCount := Some (List.length processed) |}
     end)
    (fun e =>
       ret {| success := false;
              item := None;
              datasetId := Some datasetId;
              error := Some (message e);
              resources := [];
              resourceCount := None |}).

(** [batchAcquire] *)
Fixpoint batchAcquire (c : client) (cfg : config) (ids : list text)
         (o : options) : M (list acquisition) :=
  match ids with
  | [] => ret []
  | datasetId :: rest =>
      r <- try_catch (acquireDataset c cfg datasetId o)
             (fun e =>
                ret {| success := false;
                       item := None;
                       datasetId := Some datasetId;
                       error := Some (message e);
                       resources := [];
                       resourceCount := None |}) ;;
      rs <- batchAcquire c cfg rest o ;;
      ret (r :: rs)
  end.

End Engine.

End Acquisition.

(** ** The limiter of the catalog client

    Every call of the client goes through [this.limiter.schedule].  The
    constructor configures the limiter; the limiter itself belongs to a
    library. *)

Module Limiter.

Open Scope Z_scope.

Record client_config := {
  requestsPerHour : option Z;
  concurrentRequests : option Z
}.

Record limiter_options := {
  maxConcurrent : Z;
  minTime : Z;
  reservoir : Z;
  reservoirRefreshAmount : Z;
  reservoirRefreshInterval : Z
}.

(** What the constructor passes to [new Bottleneck]. *)
Definition limiter_of (config : client_config) : limiter_options :=
  let requestsPerHour := num_or (requestsPerHour config) 1800 in
  let concurrentRequests := num_or (concurrentRequests config) 5 in
  {| maxConcurrent := concurrentRequests;
     minTime := 3600000 / requestsPerHour;
     reservoir := requestsPerHour;
     reservoirRefreshAmount := requestsPerHour;
     reservoirRefreshInterval := 60 * 60 * 1000 |}.

(** A call is known by the order in which it was made. *)
Definition call := nat.

(** Modelled from the spec: the state of the limiter, which the Bottleneck
    library keeps and the sources do not hold.  The Quota State of the
    specification: the remaining-request budget, the current in-flight
    count and the queue of pending calls, oldest first; the refill amount
    and interval are in the options. *)
Record quota_state := {
  budget : Z;
  in_flight : Z;
  queue : list call
}.

(** Modelled from the spec: the limiter as created at client
    construction, with the whole budget, nothing in flight and nothing
    queued. *)
Definition created (o : limiter_options) : quota_state :=
  {| budget := reservoir o; in_flight := 0; queue := [] |}.

(** Modelled from the spec: what happens to a limiter.  A call is
    attempted, the oldest queued call is admitted into the worker pool,
    a running call completes, a refill interval ends. *)
Inductive event :=
| Attempt (c : call)
| Admit (c : call)
| Complete
| Refill.

(** Modelled from the spec: whether the concurrency slot and the quota
    budget both allow the oldest queued call to run. *)
Definition can_admit (o : limiter_options) (s : quota_state) : bool :=
  match queue s with
  | [] => false
  | _ :: _ => (in_flight s <? maxConcurrent o) && (1 <=? budget s)
  end.

(** Modelled from the spec: the transitions of the limiter, which the
    Bottleneck library performs.  An attempted call joins the queue; a
    call is admitted only from the head of the queue and only when a
    slot and the budget allow it, and takes one unit of budget; a
    completed call frees its slot; a refill resets the budget to the
    configured amount, whatever was consumed.  [None] when the event
    cannot happen in the state. *)
Definition step (o : limiter_options) (s : quota_state) (e : event)
  : option quota_state :=
  match e with
  | Attempt c =>
      Some {| budget := budget s; in_flight := in_flight s;
              queue := queue s ++ [c] |}
  | Admit c =>
      match queue s with
      | c' :: q =>
          if Nat.eqb c c' && can_admit o s then
            Some {| budget := budget s - 1;
                    in_flight := in_flight s + 1;
                    queue := q |}
          else None
      | [] => None
      end
  | Complete =>
      if 1 <=? in_flight s then
        Some {| budget := budget s; in_flight := in_flight s - 1;
                queue := queue s |}
      else None
  | Refill =>
      Some {| budget := reservoirRefreshAmount o;
              in_flight := in_flight s; queue := queue s |}
  end.

(** The state after a sequence of events, when each can happen in turn. *)
Fixpoint run (o : limiter_options) (s : quota_state) (tr : list event)
  : option quota_state :=
  match tr with
  | [] => Some s
  | e :: tr' =>
      match step o s e with
      | Some s' => run o s' tr'
      | None => None
      end
  end.

(** The calls attempted and the calls admitted in a sequence of events,
    in order. *)
Fixpoint attempts (tr : list event) : list call :=
  match tr with
  | [] => []
  | Attempt c :: tr' => c :: attempts tr'
  | _ :: tr' => attempts tr'
  end.

Fixpoint admitted (tr : list event) : list call :=
  match tr with
  | [] => []
  | Admit c :: tr' => c :: admitted tr'
  | _ :: tr' => admitted tr'
  end.

Definition is_refill (e : event) : bool :=
  match e with Refill => true | _ => false end.

(** A sequence of events within one refill window. *)
Definition one_window (tr : list event) : bool :=
  negb (existsb is_refill tr).

(** A window opens when the limiter is created and at every refill. *)
Inductive opens_window (o : limiter_options) : quota_state -> Prop :=
| window_of_creation : opens_window o (created o)
| window_of_refill : forall tr s s',
    run o (created o) tr = Some s ->
    step o s Refill = Some s' ->
    opens_window o s'.

End Limiter.

(** * Properties *)

(** ** Redaction and detection cover different patterns *)

Module PiiFacts.

Definition pan_sample : text := lit "ABCDE1234F".
Definition ssn_sample : text := lit "123-45-6789".

Lemma pan_is_detected_only_by_pan :
  test re_pan pan_sample = true
  /\ test re_aadhaar pan_sample = false
  /\ test re_email pan_sample = false
  /\ test re_phone pan_sample = false.
Proof. vm_compute. repeat split. Qed.

Lemma ssn_is_detected_only_by_ssn :
  test re_ssn ssn_sample = true
  /\ test re_aadhaar ssn_sample = false
  /\ test re_email ssn_sample = false
  /\ test re_phone ssn_sample = false.
Proof. vm_compute. repeat split. Qed.

(** C10: some text is left unchanged by [redactPII] and is still
    flagged by [detectPII] after redaction; a PAN-style and an SSN-style
    text both are such texts, so redaction does not neutralise every
    pattern the detector knows. *)
Theorem redaction_misses_detected_patterns :
  (redactPII pan_sample = pan_sample
   /\ detectPII (redactPII pan_sample) = true)
  /\ (redactPII ssn_sample = ssn_sample
      /\ detectPII (redactPII ssn_sample) = true)
  /\ exists t, redactPII t = t /\ detectPII (redactPII t) = true.
Proof.
  assert (P : redactPII pan_sample = pan_sample
              /\ detectPII (redactPII pan_sample) = true)
    by (vm_compute; split; reflexivity).
  assert (S : redactPII ssn_sample = ssn_sample
              /\ detectPII (redactPII ssn_sample) = true)
    by (vm_compute; split; reflexivity).
  split; [exact P | split; [exact S | exists pan_sample; exact P]].
Qed.

End PiiFacts.

Unset Implicit Arguments.

(** ** Rounding to a double *)

Module DoubleFacts.

Import Double.
Local Open Scope Q_scope.

Lemma two_nonzero : ~ 2 == 0.
Proof. discriminate. Qed.

Lemma pow2_pos (x : Z) : 0 < 2 ^ x.
Proof. apply Qpower_0_lt. reflexivity. Qed.

Lemma pow2_add (x y : Z) : 2 ^ (x + y) == 2 ^ x * 2 ^ y.
Proof. apply Qpower_plus. exact two_nonzero. Qed.

Lemma pow2_le (x y : Z) : (x <= y)%Z -> 2 ^ x <= 2 ^ y.
Proof. intros H. apply Qpower_le_compat_l; [exact H | discriminate]. Qed.

Lemma pow2_lt (x y : Z) : (x < y)%Z -> 2 ^ x < 2 ^ y.
Proof. intros H. apply Qpower_lt_compat_l; [exact H | reflexivity]. Qed.

Lemma pow2_lt_inv (x y : Z) : 2 ^ x < 2 ^ y -> (x < y)%Z.
Proof.
  intros H. destruct (Z.lt_ge_cases x y) as [Hlt | Hge]; [exact Hlt |].
  apply pow2_le in Hge. lra.
Qed.

Lemma pow2_Z (n : Z) : (0 <= n)%Z -> 2 ^ n == inject_Z (2 ^ n).
Proof. intros H. symmetry. apply (Zpower_Qpower 2 n H). Qed.

Lemma pow2_sub (x y : Z) : 2 ^ x == 2 ^ (x - y) * 2 ^ y.
Proof. rewrite <- pow2_add. replace (x - y + y)%Z with x by lia. reflexivity. Qed.

(** *** The binary logarithm *)

Lemma floor_log2_spec (q : Q) :
  0 < q -> 2 ^ floor_log2 q <= q /\ q < 2 ^ (floor_log2 q + 1).
Proof.
  intros Hq. destruct q as [a b].
  assert (Ha : (0 < a)%Z).
  { unfold Qlt in Hq. cbn in Hq. lia. }
  unfold floor_log2. cbn [Qnum Qden].
  set (la := Z.log2 a). set (lb := Z.log2 (Z.pos b)).
  destruct (Z.log2_spec a Ha) as [Ha1 Ha2]. fold la in Ha1, Ha2.
  destruct (Z.log2_spec (Z.pos b) (Pos2Z.is_pos b)) as [Hb1 Hb2].
  fold lb in Hb1, Hb2.
  assert (Hla : (0 <= la)%Z) by apply Z.log2_nonneg.
  assert (Hlb : (0 <= lb)%Z) by apply Z.log2_nonneg.
  assert (Eq : a # b == inject_Z a / inject_Z (Z.pos b)) by apply Qmake_Qdiv.
  assert (HB : 0 < inject_Z (Z.pos b)).
  { change 0 with (inject_Z 0). rewrite <- Zlt_Qlt. apply Pos2Z.is_pos. }
  assert (Ea : (a # b) * inject_Z (Z.pos b) == inject_Z a).
  { rewrite Eq. field. lra. }
  assert (Qa1 : 2 ^ la <= inject_Z a).
  { rewrite (pow2_Z la Hla). rewrite <- Zle_Qle. exact Ha1. }
  assert (Qa2 : inject_Z a < 2 ^ (la + 1)).
  { rewrite (pow2_Z (la + 1)) by lia. rewrite <- Zlt_Qlt.
    replace (la + 1)%Z with (Z.succ la) by lia. exact Ha2. }
  assert (Qb1 : 2 ^ lb <= inject_Z (Z.pos b)).
  { rewrite (pow2_Z lb Hlb). rewrite <- Zle_Qle. exact Hb1. }
  assert (Qb2 : inject_Z (Z.pos b) < 2 ^ (lb + 1)).
  { rewrite (pow2_Z (lb + 1)) by lia. rewrite <- Zlt_Qlt.
    replace (lb + 1)%Z with (Z.succ lb) by lia. exact Hb2. }
  set (q := a # b) in *. set (B := inject_Z (Z.pos b)) in *.
  set (A := inject_Z a) in *.
  (* q < 2^(d+1) and 2^(d-1) <= q *)
  assert (Hup : q < 2 ^ (la - lb + 1)).
  { assert (E : 2 ^ (la + 1) == 2 ^ (la - lb + 1) * 2 ^ lb).
    { rewrite <- pow2_add. replace (la - lb + 1 + lb)%Z with (la + 1)%Z by lia.
      reflexivity. }
    pose proof (pow2_pos (la - lb + 1)) as Hp.
    apply Qnot_le_lt. intros Hle.
    assert (H1 : 2 ^ (la - lb + 1) * 2 ^ lb <= q * B).
    { apply Qle_trans with (y := 2 ^ (la - lb + 1) * B).
      - rewrite !(Qmult_comm (2 ^ (la - lb + 1))).
        apply Qmult_le_compat_r; [exact Qb1 | lra].
      - apply Qmult_le_compat_r; [exact Hle | lra]. }
    lra. }
  assert (Hlow : 2 ^ (la - lb - 1) <= q).
  { assert (E : 2 ^ la == 2 ^ (la - lb - 1) * 2 ^ (lb + 1)).
    { rewrite <- pow2_add. replace (la - lb - 1 + (lb + 1))%Z with la by lia.
      reflexivity. }
    pose proof (pow2_pos (la - lb - 1)) as Hp.
    apply Qnot_lt_le. intros Hlt.
    assert (H1 : q * B <= 2 ^ (la - lb - 1) * 2 ^ (lb + 1)).
    { apply Qle_trans with (y := 2 ^ (la - lb - 1) * B).
      - apply Qmult_le_compat_r; lra.
      - rewrite !(Qmult_comm (2 ^ (la - lb - 1))).
        apply Qmult_le_compat_r; lra. }
    assert (H2 : q * B < 2 ^ (la - lb - 1) * B).
    { apply Qmult_lt_compat_r; [exact HB | exact Hlt]. }
    assert (H3 : 2 ^ (la - lb - 1) * B < 2 ^ (la - lb - 1) * 2 ^ (lb + 1)).
    { rewrite !(Qmult_comm (2 ^ (la - lb - 1))).
      apply Qmult_lt_compat_r; [exact Hp | exact Qb2]. }
    lra. }
  destruct (Qle_bool (2 ^ (la - lb)) q) eqn:E.
  - apply Qle_bool_iff in E. split; [exact E | exact Hup].
  - assert (Hlt : q < 2 ^ (la - lb)).
    { apply Qnot_le_lt. intros H. apply Qle_bool_iff in H. congruence. }
    split; [exact Hlow |].
    replace (la - lb - 1 + 1)%Z with (la - lb)%Z by lia. exact Hlt.
Qed.

Lemma floor_log2_unique (q : Q) (L : Z) :
  2 ^ L <= q -> q < 2 ^ (L + 1) -> floor_log2 q = L.
Proof.
  intros H1 H2.
  assert (Hq : 0 < q) by (pose proof (pow2_pos L); lra).
  destruct (floor_log2_spec q Hq) as [H3 H4].
  assert (Ha : (floor_log2 q < L + 1)%Z) by (apply pow2_lt_inv; lra).
  assert (Hb : (L < floor_log2 q + 1)%Z) by (apply pow2_lt_inv; lra).
  lia.
Qed.

Lemma floor_log2_le (p q : Q) :
  0 < p -> p <= q -> (floor_log2 p <= floor_log2 q)%Z.
Proof.
  intros Hp Hpq.
  destruct (floor_log2_spec p Hp) as [H1 _].
  destruct (floor_log2_spec q) as [_ H2]; [lra |].
  assert (H : (floor_log2 p < floor_log2 q + 1)%Z) by (apply pow2_lt_inv; lra).
  lia.
Qed.


(** *** The nearest integer *)

Lemma nearest_even_comp (p q : Q) :
  p == q -> nearest_even p = nearest_even q.
Proof.
  intros E. unfold nearest_even.
  rewrite (Qfloor_comp _ _ E).
  assert (E' : p - inject_Z (Qfloor q) == q - inject_Z (Qfloor q))
    by (rewrite E; reflexivity).
  rewrite (Qcompare_comp _ _ E' _ _ (Qeq_refl (1 # 2))). reflexivity.
Qed.

Lemma nearest_even_Z (n : Z) : nearest_even (inject_Z n) = n.
Proof.
  unfold nearest_even. rewrite Qfloor_Z.
  assert (H : Qcompare (inject_Z n - inject_Z n) (1 # 2) = Lt).
  { apply Qlt_alt. setoid_replace (inject_Z n - inject_Z n) with 0 by ring.
    reflexivity. }
  rewrite H. reflexivity.
Qed.

(** Which way a number is rounded. *)
Lemma nearest_even_cases (q : Q) :
  let f := Qfloor q in
  (nearest_even q = f /\ q - inject_Z f <= 1 # 2
   /\ (q - inject_Z f == 1 # 2 -> Z.even f = true))
  \/ (nearest_even q = (f + 1)%Z /\ 1 # 2 <= q - inject_Z f
      /\ (q - inject_Z f == 1 # 2 -> Z.even f = false)).
Proof.
  intros f. unfold nearest_even. fold f.
  destruct (Qcompare (q - inject_Z f) (1 # 2)) eqn:E.
  - apply Qeq_alt in E. destruct (Z.even f) eqn:Ev.
    + left. split; [reflexivity | split; [lra | intros _; reflexivity]].
    + right. split; [reflexivity | split; [lra | intros _; reflexivity]].
  - apply Qlt_alt in E. left.
    split; [reflexivity | split; [lra | intros H; lra]].
  - apply Qgt_alt in E. right.
    split; [reflexivity | split; [lra | intros H; lra]].
Qed.

Lemma nearest_even_le (p q : Q) :
  p <= q -> (nearest_even p <= nearest_even q)%Z.
Proof.
  intros Hpq.
  pose proof (Qfloor_resp_le _ _ Hpq) as Hf.
  destruct (nearest_even_cases p) as [[Ep [Hp1 Hp2]] | [Ep [Hp1 Hp2]]];
    destruct (nearest_even_cases q) as [[Eq [Hq1 Hq2]] | [Eq [Hq1 Hq2]]];
    rewrite Ep, Eq; try lia.
  destruct (Z.eq_dec (Qfloor p) (Qfloor q)) as [Efl | Hne]; [| lia].
  exfalso. rewrite Efl in *.
  assert (H1 : p - inject_Z (Qfloor q) == 1 # 2) by lra.
  assert (H2 : q - inject_Z (Qfloor q) == 1 # 2) by lra.
  rewrite (Hp2 H1) in Hq2. specialize (Hq2 H2). discriminate.
Qed.

(** *** The nearest multiple of a power of two *)

Lemma on_grid_comp (x : Z) (p q : Q) :
  p == q -> on_grid x p == on_grid x q.
Proof.
  intros E. unfold on_grid.
  rewrite (nearest_even_comp (p / 2 ^ x) (q / 2 ^ x)); [reflexivity |].
  rewrite E. reflexivity.
Qed.

Lemma on_grid_le (x : Z) (p q : Q) :
  p <= q -> on_grid x p <= on_grid x q.
Proof.
  intros H. unfold on_grid. pose proof (pow2_pos x) as Hx.
  apply Qmult_le_compat_r; [| lra].
  rewrite <- Zle_Qle. apply nearest_even_le.
  unfold Qdiv. apply Qmult_le_compat_r; [exact H |].
  apply Qlt_le_weak, Qinv_lt_0_compat. exact Hx.
Qed.

Lemma on_grid_exact (x : Z) (q : Q) (n : Z) :
  q == inject_Z n * 2 ^ x -> on_grid x q == q.
Proof.
  intros E. unfold on_grid. pose proof (pow2_pos x) as Hx.
  rewrite (nearest_even_comp (q / 2 ^ x) (inject_Z n)).
  - rewrite nearest_even_Z. symmetry. exact E.
  - rewrite E. field. lra.
Qed.

(** A multiple of [2^y] is a multiple of every smaller power. *)
Lemma finer_grid (x y : Z) (q : Q) (n : Z) :
  (x <= y)%Z -> q == inject_Z n * 2 ^ y ->
  q == inject_Z (n * 2 ^ (y - x)) * 2 ^ x.
Proof.
  intros Hxy E. rewrite E, inject_Z_mult.
  rewrite <- (pow2_Z (y - x)) by lia.
  rewrite (pow2_sub y x). ring.
Qed.

(** *** The nearest double *)

Lemma exponent_comp (p q : Q) : 0 < p -> p == q -> exponent p = exponent q.
Proof.
  intros Hp E. unfold exponent. f_equal. f_equal.
  destruct (floor_log2_spec p Hp) as [H1 H2].
  symmetry. apply floor_log2_unique; rewrite <- E; assumption.
Qed.

Lemma nearest_pos_zero (q : Q) : q == 0 -> nearest_pos q == 0.
Proof.
  intros E. unfold nearest_pos.
  apply Qeq_trans with (y := q); [| exact E].
  apply (on_grid_exact (exponent q) q 0).
  apply Qeq_trans with (y := 0); [exact E |].
  change (inject_Z 0) with 0. ring.
Qed.

Lemma nearest_pos_comp (p q : Q) :
  0 <= p -> p == q -> nearest_pos p == nearest_pos q.
Proof.
  intros Hp E. destruct (Qlt_le_dec 0 p) as [Hpos | Hle].
  - unfold nearest_pos. rewrite (exponent_comp p q Hpos E).
    apply on_grid_comp. exact E.
  - rewrite !nearest_pos_zero; [reflexivity | lra | lra].
Qed.

Lemma exponent_le (p q : Q) :
  0 < p -> p <= q -> (exponent p <= exponent q)%Z.
Proof.
  intros Hp Hpq. unfold exponent.
  pose proof (floor_log2_le p q Hp Hpq). lia.
Qed.

Lemma nearest_pos_exact (q : Q) (m y : Z) :
  q == inject_Z m * 2 ^ y -> (0 <= m < 2 ^ 53)%Z -> (-1074 <= y)%Z ->
  nearest_pos q == q.
Proof.
  intros E Hm Hy.
  destruct (Z.eq_dec m 0) as [-> | Hne].
  - assert (Ez : q == 0) by (rewrite E; ring).
    rewrite (nearest_pos_zero q Ez). symmetry. exact Ez.
  - pose proof (pow2_pos y) as Hpy.
    assert (Hm1 : 1 <= inject_Z m).
    { change 1 with (inject_Z 1). rewrite <- Zle_Qle. lia. }
    assert (Hm2 : inject_Z m < 2 ^ 53).
    { rewrite (pow2_Z 53) by lia. rewrite <- Zlt_Qlt. lia. }
    assert (Hq : 0 < q).
    { rewrite E. apply Qmult_lt_0_compat; lra. }
    destruct (floor_log2_spec q Hq) as [H1 _].
    assert (Hlt : q < 2 ^ (53 + y)).
    { rewrite E, pow2_add. apply Qmult_lt_compat_r; assumption. }
    assert (HL : (floor_log2 q < 53 + y)%Z) by (apply pow2_lt_inv; lra).
    assert (Hx : (exponent q <= y)%Z) by (unfold exponent; lia).
    unfold nearest_pos.
    apply (on_grid_exact (exponent q) q _ (finer_grid _ _ q m Hx E)).
Qed.

Lemma nearest_pos_nonneg (q : Q) : 0 <= q -> 0 <= nearest_pos q.
Proof.
  intros H. unfold nearest_pos.
  assert (E : on_grid (exponent q) 0 == 0).
  { apply (on_grid_exact (exponent q) 0 0). ring. }
  rewrite <- E. apply on_grid_le. exact H.
Qed.

Lemma nearest_pos_le (p q : Q) :
  0 <= p -> p <= q -> nearest_pos p <= nearest_pos q.
Proof.
  intros Hp Hpq.
  destruct (Qlt_le_dec 0 p) as [Hpos | Hle].
  2:{ rewrite (nearest_pos_zero p) by lra. apply nearest_pos_nonneg. lra. }
  pose proof (exponent_le p q Hpos Hpq) as Hx.
  destruct (Z.eq_dec (exponent p) (exponent q)) as [Ex | Hne].
  - unfold nearest_pos. rewrite Ex. apply on_grid_le. exact Hpq.
  - assert (Hq : 0 < q) by lra.
    destruct (floor_log2_spec p Hpos) as [_ Hp2].
    destruct (floor_log2_spec q Hq) as [Hq1 _].
    set (Lp := floor_log2 p) in *. set (Lq := floor_log2 q) in *.
    assert (Hxq : exponent q = (Lq - 52)%Z).
    { unfold exponent in *. fold Lp Lq in Hx, Hne |- *. lia. }
    assert (HL : (Lp + 1 <= Lq)%Z).
    { unfold exponent in *. fold Lp Lq in Hx, Hne, Hxq. lia. }
    assert (Hxp : (exponent p <= Lq)%Z) by lia.
    pose proof (pow2_le _ _ HL) as Hmid.
    assert (Eb : 2 ^ Lq == inject_Z 1 * 2 ^ Lq) by ring.
    apply Qle_trans with (y := 2 ^ Lq).
    + unfold nearest_pos.
      rewrite <- (on_grid_exact (exponent p) (2 ^ Lq) _
                    (finer_grid _ _ _ 1 Hxp Eb)).
      apply on_grid_le. lra.
    + unfold nearest_pos.
      assert (Hxq' : (exponent q <= Lq)%Z) by lia.
      rewrite <- (on_grid_exact (exponent q) (2 ^ Lq) _
                    (finer_grid _ _ _ 1 Hxq' Eb)) at 1.
      apply on_grid_le. exact Hq1.
Qed.

Lemma nearest_nonneg (q : Q) : 0 <= q -> nearest q = nearest_pos q.
Proof.
  intros H. unfold nearest.
  destruct (Qcompare q 0) eqn:E; try reflexivity.
  apply Qlt_alt in E. lra.
Qed.

Lemma nearest_neg (q : Q) : q < 0 -> nearest q = - nearest_pos (- q).
Proof.
  intros H. unfold nearest.
  destruct (Qcompare q 0) eqn:E;
    [apply Qeq_alt in E; lra | reflexivity | apply Qgt_alt in E; lra].
Qed.

Lemma nearest_comp (p q : Q) : p == q -> nearest p == nearest q.
Proof.
  intros E. destruct (Qlt_le_dec p 0) as [Hneg | Hpos].
  - rewrite (nearest_neg p Hneg), (nearest_neg q) by lra.
    rewrite (nearest_pos_comp (- p) (- q)); [reflexivity | lra |].
    rewrite E. reflexivity.
  - rewrite (nearest_nonneg p Hpos), (nearest_nonneg q) by lra.
    apply nearest_pos_comp; assumption.
Qed.

(** A double that bounds the exact result bounds the rounded result. *)
Lemma nearest_within (q c : Q) (m y : Z) :
  c == inject_Z m * 2 ^ y -> (0 <= m < 2 ^ 53)%Z -> (-1074 <= y)%Z ->
  - c <= q -> q <= c -> - c <= nearest q /\ nearest q <= c.
Proof.
  intros E Hm Hy Hlo Hhi.
  pose proof (nearest_pos_exact c m y E Hm Hy) as Hc.
  destruct (Qlt_le_dec q 0) as [Hneg | Hpos].
  - rewrite (nearest_neg q Hneg).
    assert (H1 : nearest_pos (- q) <= nearest_pos c)
      by (apply nearest_pos_le; lra).
    assert (H2 : 0 <= nearest_pos (- q)) by (apply nearest_pos_nonneg; lra).
    lra.
  - rewrite (nearest_nonneg q Hpos).
    assert (H1 : nearest_pos q <= nearest_pos c)
      by (apply nearest_pos_le; lra).
    assert (H2 : 0 <= nearest_pos q) by (apply nearest_pos_nonneg; lra).
    lra.
Qed.

Lemma nearest_le (p q : Q) : 0 <= p -> p <= q -> nearest p <= nearest q.
Proof.
  intros Hp Hpq. rewrite (nearest_nonneg p Hp), (nearest_nonneg q) by lra.
  apply nearest_pos_le; assumption.
Qed.

Lemma nearest_exact (q : Q) (m y : Z) :
  q == inject_Z m * 2 ^ y -> (0 <= m < 2 ^ 53)%Z -> (-1074 <= y)%Z ->
  nearest q == q.
Proof.
  intros E Hm Hy.
  assert (Hq : 0 <= q).
  { rewrite E. apply Qmult_le_0_compat.
    - change 0 with (inject_Z 0). rewrite <- Zle_Qle. lia.
    - apply Qlt_le_weak, pow2_pos. }
  rewrite (nearest_nonneg q Hq). exact (nearest_pos_exact q m y E Hm Hy).
Qed.

(** An integer up to [2^53] is a double. *)
Lemma integer_form (n : Z) :
  (0 <= n <= 2 ^ 53)%Z ->
  exists m y, inject_Z n == inject_Z m * 2 ^ y
              /\ (0 <= m < 2 ^ 53)%Z /\ (-1074 <= y)%Z.
Proof.
  intros H. destruct (Z.eq_dec n (2 ^ 53)) as [-> | Hne].
  - exists 1%Z, 53%Z. split; [| split; lia].
    rewrite (pow2_Z 53) by lia. ring.
  - exists n, 0%Z. split; [| split; lia].
    change (2 ^ 0) with 1. ring.
Qed.

Lemma nearest_integer (n : Z) :
  (0 <= n <= 2 ^ 53)%Z -> nearest (inject_Z n) == inject_Z n.
Proof.
  intros H. destruct (integer_form n H) as [m [y [E [Hm Hy]]]].
  exact (nearest_exact _ m y E Hm Hy).
Qed.

(** *** The result of an operation *)

Lemma round_finite (q : Q) :
  - 2 ^ 1024 < nearest q -> nearest q < 2 ^ 1024 ->
  exists v, round q = Finite v /\ v == nearest q.
Proof.
  intros Hlo Hhi. unfold round.
  pose proof (Qred_correct (nearest q)) as E.
  set (v := Qred (nearest q)) in *.
  destruct (Qle_bool (2 ^ 1024) v) eqn:E1.
  { apply Qle_bool_iff in E1. lra. }
  destruct (Qle_bool v (- 2 ^ 1024)) eqn:E2.
  { apply Qle_bool_iff in E2. lra. }
  exists v. split; [reflexivity | exact E].
Qed.

Lemma round_overflow (q : Q) :
  2 ^ 1024 <= nearest q -> round q = Infinity.
Proof.
  intros H. unfold round.
  pose proof (Qred_correct (nearest q)) as E.
  set (v := Qred (nearest q)) in *.
  destruct (Qle_bool (2 ^ 1024) v) eqn:E1; [reflexivity |].
  assert (Hv : 2 ^ 1024 <= v) by lra.
  apply Qle_bool_iff in Hv. congruence.
Qed.


(** *** Non-negative doubles, whatever their size *)

Definition dyadic53 (q : Q) : Prop :=
  exists m y : Z,
    q == inject_Z m * 2 ^ y /\ (0 <= m < 2 ^ 53)%Z /\ (-1074 <= y)%Z.

Lemma dyadic53_comp (p q : Q) : p == q -> dyadic53 p -> dyadic53 q.
Proof.
  intros E [m [y [Ep H]]]. exists m, y.
  split; [rewrite <- E; exact Ep | exact H].
Qed.

Lemma dyadic53_nonneg (q : Q) : dyadic53 q -> 0 <= q.
Proof.
  intros [m [y [E [Hm _]]]]. rewrite E. apply Qmult_le_0_compat.
  - change 0 with (inject_Z 0). rewrite <- Zle_Qle. lia.
  - apply Qlt_le_weak, pow2_pos.
Qed.

Lemma is_double_dyadic53 (q : Q) : is_double q -> 0 <= q -> dyadic53 q.
Proof.
  intros [m [y [E [Hm [Hy _]]]]] Hq.
  destruct (Z.lt_ge_cases m 0) as [Hneg | Hpos].
  - exfalso. pose proof (pow2_pos y) as Hp.
    assert (Hm' : inject_Z m <= -1).
    { change (-1) with (inject_Z (-1)). rewrite <- Zle_Qle. lia. }
    assert (H : inject_Z m * 2 ^ y <= (-1) * 2 ^ y).
    { apply Qmult_le_compat_r; [exact Hm' | lra]. }
    lra.
  - exists m, y. split; [exact E | split; [lia | exact Hy]].
Qed.

Lemma dyadic53_Z (n : Z) : (0 <= n <= 2 ^ 53)%Z -> dyadic53 (inject_Z n).
Proof. exact (integer_form n). Qed.

Lemma dyadic53_scale (q : Q) (k : Z) :
  (0 <= k)%Z -> dyadic53 q -> dyadic53 (q * 2 ^ k).
Proof.
  intros Hk [m [y [E [Hm Hy]]]]. exists m, (y + k)%Z.
  split; [| split; [exact Hm | lia]].
  rewrite E, pow2_add. ring.
Qed.

Lemma dyadic53_quarter (q : Q) :
  1 <= q -> dyadic53 q -> dyadic53 (q * (1 # 4)).
Proof.
  intros Hq [m [y [E [Hm Hy]]]]. exists m, (y - 2)%Z.
  assert (Hy' : (-53 < y)%Z).
  { apply pow2_lt_inv.
    assert (Hm2 : inject_Z m < 2 ^ 53).
    { rewrite (pow2_Z 53) by lia. rewrite <- Zlt_Qlt. lia. }
    pose proof (pow2_pos y) as Hp.
    assert (H : inject_Z m * 2 ^ y < 2 ^ 53 * 2 ^ y)
      by (apply Qmult_lt_compat_r; assumption).
    assert (E1 : 2 ^ 53 * 2 ^ (-53) == 1) by reflexivity.
    apply Qnot_le_lt. intros Hle.
    assert (H2 : 2 ^ 53 * 2 ^ y <= 2 ^ 53 * 2 ^ (-53)).
    { rewrite !(Qmult_comm (2 ^ 53)).
      apply Qmult_le_compat_r; [exact Hle |].
      apply Qlt_le_weak, pow2_pos. }
    lra. }
  split; [| split; [exact Hm | lia]].
  rewrite E. replace (y - 2)%Z with (y + -2)%Z by lia. rewrite pow2_add.
  change (2 ^ (-2)) with (1 # 4). ring.
Qed.

Lemma nearest_dyadic53 (q : Q) : dyadic53 q -> nearest q == q.
Proof. intros [m [y [E [Hm Hy]]]]. exact (nearest_exact q m y E Hm Hy). Qed.

Lemma nearest_bounded (q c : Q) :
  dyadic53 c -> - c <= q -> q <= c -> - c <= nearest q /\ nearest q <= c.
Proof.
  intros [m [y [E [Hm Hy]]]]. exact (nearest_within q c m y E Hm Hy).
Qed.

Lemma nearest_nonneg_le (q : Q) : 0 <= q -> 0 <= nearest q.
Proof.
  intros H. rewrite (nearest_nonneg q H). apply nearest_pos_nonneg. exact H.
Qed.

(** The result of an operation whose exact result is bounded by a
    double is a double within the same bound. *)
Lemma round_bounded (q c : Q) :
  dyadic53 c -> c < 2 ^ 1024 -> - c <= q -> q <= c ->
  exists v, round q = Finite v /\ v == nearest q /\ - c <= v /\ v <= c.
Proof.
  intros Hc Hfin Hlo Hhi.
  destruct (nearest_bounded q c Hc Hlo Hhi) as [H1 H2].
  destruct (round_finite q) as [v [Hv Ev]]; [lra | lra |].
  exists v. split; [exact Hv | split; [exact Ev |]]. lra.
Qed.

Lemma round_exact (q : Q) :
  dyadic53 q -> q < 2 ^ 1024 -> exists v, round q = Finite v /\ v == q.
Proof.
  intros Hq Hfin. pose proof (dyadic53_nonneg q Hq) as H0.
  destruct (round_bounded q q Hq Hfin) as [v [Hv [Ev _]]]; [lra | lra |].
  exists v. split; [exact Hv |]. rewrite Ev. exact (nearest_dyadic53 q Hq).
Qed.

Lemma round_comp (p q : Q) : p == q -> round p = round q.
Proof.
  intros E. unfold round.
  rewrite (Qred_complete _ _ (nearest_comp p q E)). reflexivity.
Qed.

(** *** Some doubles *)

Example round_tenth :
  round (1 # 10) = Finite (3602879701896397 # 36028797018963968)
  /\ round (- (1 # 10)) = Finite (- 3602879701896397 # 36028797018963968).
Proof. vm_compute. split; reflexivity. Qed.

(** [0.1 + 0.2] is [0.30000000000000004]. *)
Example tenth_plus_fifth :
  add (Finite (3602879701896397 # 36028797018963968))
      (Finite (3602879701896397 # 18014398509481984))
  = Finite (1351079888211149 # 4503599627370496).
Proof. vm_compute. reflexivity. Qed.

Example ties_to_even :
  round (inject_Z (2 ^ 53 + 1)) = Finite 9007199254740992
  /\ round (inject_Z (2 ^ 53 + 3)) = Finite 9007199254740996.
Proof. vm_compute. split; reflexivity. Qed.

Example gradual_underflow :
  round (2 ^ (-1075)) = Finite 0
  /\ round (3 * 2 ^ (-1075)) = Finite (Qred (2 ^ (-1073))).
Proof. vm_compute. split; reflexivity. Qed.

Example overflow :
  round (2 ^ 1024 - 2 ^ 970) = Infinity
  /\ round (2 ^ 1024 - 2 ^ 971) = Finite (Qred (2 ^ 1024 - 2 ^ 971)).
Proof. vm_compute. split; reflexivity. Qed.

Example zero_times_infinity : mul (Finite 0) Infinity = NaN.
Proof. reflexivity. Qed.

(** *** Agreement with the binary64 operations of the standard library *)

Definition of_spec (f : spec_float) : number :=
  match f with
  | S754_zero _ => Finite 0
  | S754_infinity s => if s then NegInfinity else Infinity
  | S754_nan => NaN
  | S754_finite s m e =>
      Finite (Qred ((if s then - inject_Z (Zpos m) else inject_Z (Zpos m))
                    * 2 ^ e))
  end.

Definition binary64 (m : positive) (e : Z) : spec_float :=
  S754_finite false m e.

Example mul_agrees :
  of_spec (SFmul 53 1024 (binary64 7500 0)
                 (S754_finite true 3602879701896397 (-53)))
  = mul (of_spec (binary64 7500 0))
        (of_spec (S754_finite true 3602879701896397 (-53)))
  /\ of_spec (SFmul 53 1024 (binary64 3 (-1074)) (binary64 1 (-1)))
     = mul (of_spec (binary64 3 (-1074))) (of_spec (binary64 1 (-1)))
  /\ of_spec (SFmul 53 1024 (binary64 9007199254740991 971) (binary64 2 0))
     = mul (of_spec (binary64 9007199254740991 971))
           (of_spec (binary64 2 0))
  /\ of_spec (SFmul 53 1024 (S754_zero false) (S754_infinity false))
     = mul (of_spec (S754_zero false)) (of_spec (S754_infinity false)).
Proof. vm_compute. repeat split. Qed.

Example add_agrees :
  of_spec (SFadd 53 1024 (binary64 3602879701896397 (-55))
                 (binary64 3602879701896397 (-54)))
  = add (of_spec (binary64 3602879701896397 (-55)))
        (of_spec (binary64 3602879701896397 (-54)))
  /\ of_spec (SFadd 53 1024 (binary64 4503599627370496 1) (binary64 1 0))
     = add (of_spec (binary64 4503599627370496 1)) (of_spec (binary64 1 0))
  /\ of_spec (SFadd 53 1024 (binary64 4503599627370496 1) (binary64 3 0))
     = add (of_spec (binary64 4503599627370496 1)) (of_spec (binary64 3 0))
  /\ of_spec (SFadd 53 1024 (binary64 30000 0)
                    (S754_finite true 3602879701896397 (-53)))
     = add (of_spec (binary64 30000 0))
           (of_spec (S754_finite true 3602879701896397 (-53))).
Proof. vm_compute. repeat split. Qed.

End DoubleFacts.


(** ** The retry delay *)

Module BackoffFacts.

Import Double Backoff DoubleFacts.
Local Open Scope Q_scope.

Lemma one_dyadic53 : dyadic53 1.
Proof. exists 1%Z, 0%Z. split; [reflexivity | split; lia]. Qed.

Lemma quarter_dyadic53 : dyadic53 (1 # 4).
Proof. exists 1%Z, (-2)%Z. split; [reflexivity | split; lia]. Qed.

Lemma five_quarters_dyadic53 : dyadic53 (5 # 4).
Proof. exists 5%Z, (-2)%Z. split; [reflexivity | split; lia]. Qed.

Lemma small_is_finite (c : Q) : c <= 2 ^ 53 -> c < 2 ^ 1024.
Proof.
  intros H. assert (H1 : 2 ^ 53 < 2 ^ 1024) by (apply pow2_lt; lia). lra.
Qed.

(** The capped delay is the exact [min(base * 2^k, maxDelay)]. *)
Lemma exponentialDelay_value (k : Z) (base maxD : Q) :
  (0 <= k <= 1023)%Z -> is_double base -> is_double maxD ->
  0 <= base -> 0 <= maxD ->
  exists e,
    exponentialDelay k (Finite base) (Finite maxD) = Finite e
    /\ e == Qmin (base * 2 ^ k) maxD
    /\ dyadic53 e.
Proof.
  intros Hk Hb HM Hb0 HM0.
  pose proof (is_double_dyadic53 base Hb Hb0) as Db.
  pose proof (is_double_dyadic53 maxD HM HM0) as DM.
  assert (HMfin : maxD < 2 ^ 1024).
  { destruct HM as [_ [_ [_ [_ [_ H]]]]]. rewrite Qabs_pos in H; assumption. }
  unfold exponentialDelay, Math_pow2.
  destruct (round_exact (2 ^ k)) as [p [Hp Ep]].
  { exists 1%Z, k. split; [ring | split; lia]. }
  { apply pow2_lt. lia. }
  rewrite Hp. cbn [mul].
  rewrite (round_comp (base * p) (base * 2 ^ k))
    by (rewrite Ep; reflexivity).
  assert (Dp : dyadic53 (base * 2 ^ k))
    by (apply dyadic53_scale; [lia | exact Db]).
  destruct (Qlt_le_dec (base * 2 ^ k) (2 ^ 1024)) as [Hfin | Hinf].
  - destruct (round_exact (base * 2 ^ k) Dp Hfin) as [a [Ha Ea]].
    rewrite Ha. cbn [Math_min].
    destruct (Qle_bool a maxD) eqn:E.
    + apply Qle_bool_iff in E. exists a.
      split; [reflexivity | split].
      * rewrite Q.min_l; [exact Ea | rewrite <- Ea; exact E].
      * apply (dyadic53_comp (base * 2 ^ k)); [symmetry; exact Ea | exact Dp].
    + assert (Hlt : maxD < a).
      { apply Qnot_le_lt. intros H. apply Qle_bool_iff in H. congruence. }
      exists maxD. split; [reflexivity | split; [| exact DM]].
      rewrite Q.min_r; [reflexivity | lra].
  - rewrite (round_overflow (base * 2 ^ k))
      by (rewrite (nearest_dyadic53 _ Dp); exact Hinf).
    cbn [Math_min]. exists maxD.
    split; [reflexivity | split; [| exact DM]].
    rewrite Q.min_r; [reflexivity | lra].
Qed.

(** The jittered and floored delay, from the capped delay. *)
Lemma jittered_band (e r : Q) :
  dyadic53 e -> e <= 2 ^ 52 -> is_double r -> 0 <= r -> r < 1 ->
  exists d : Z,
    Math_floor
      (add (Finite e)
           (mul (mul (Finite e) (Finite (1 # 4)))
                (sub (mul (Finite r) (Finite 2)) (Finite 1))))
    = Finite (inject_Z d)
    /\ (Qfloor (e * (3 # 4)) <= d <= Qceiling (e * (5 # 4)))%Z.
Proof.
  intros De He Hr Hr0 Hr1.
  pose proof (dyadic53_nonneg e De) as He0.
  pose proof (is_double_dyadic53 r Hr Hr0) as Dr.
  assert (E53 : 2 ^ 53 == 2 * 2 ^ 52) by reflexivity.
  assert (P52 : 0 < 2 ^ 52) by apply pow2_pos.
  assert (Hefin : e < 2 ^ 1024) by (apply small_is_finite; lra).
  (* the quarter of the delay *)
  cbn [mul].
  destruct (round_bounded (e * (1 # 4)) e De Hefin) as [t [Ht [Et [Ht1 Ht2]]]];
    [lra | lra |].
  rewrite Ht.
  assert (Ht0 : 0 <= t) by (rewrite Et; apply nearest_nonneg_le; lra).
  (* twice the draw, less one *)
  destruct (round_exact (r * 2)) as [r2 [Hr2 Er2]].
  { apply (dyadic53_comp (r * 2 ^ 1)); [reflexivity |].
    apply dyadic53_scale; [lia | exact Dr]. }
  { apply small_is_finite. lra. }
  rewrite Hr2. unfold sub. cbn [neg add].
  destruct (round_bounded (r2 + - (1)) 1 one_dyadic53) as [u [Hu [_ [Hu1 Hu2]]]];
    [reflexivity | lra | lra |].
  rewrite Hu. cbn [mul].
  assert (Htu : - t <= t * u /\ t * u <= t) by (split; nra).
  destruct Htu as [Htu1 Htu2].
  destruct (Qlt_le_dec e 1) as [Hsmall | Hbig].
  - (* below one millisecond *)
    assert (Ht3 : t <= 1 # 4).
    { destruct (nearest_bounded (e * (1 # 4)) (1 # 4) quarter_dyadic53)
        as [_ H]; [lra | lra |]. rewrite Et. exact H. }
    destruct (round_bounded (t * u) e De Hefin) as [j [Hj [Ej [Hj1 Hj2]]]];
      [lra | lra |].
    assert (Hj3 : j <= 1 # 4).
    { destruct (nearest_bounded (t * u) (1 # 4) quarter_dyadic53)
        as [_ H]; [lra | lra |]. rewrite Ej. exact H. }
    rewrite Hj. cbn [add].
    destruct (round_bounded (e + j) (5 # 4) five_quarters_dyadic53)
      as [s [Hs [Es [_ Hs2]]]]; [reflexivity | lra | lra |].
    rewrite Hs. cbn [Math_floor].
    assert (Hs0 : 0 <= s) by (rewrite Es; apply nearest_nonneg_le; lra).
    exists (Qfloor s). split; [reflexivity |].
    assert (Hf0 : (0 <= Qfloor s)%Z).
    { change 0%Z with (Qfloor 0). apply Qfloor_resp_le. exact Hs0. }
    assert (Hf1 : (Qfloor s <= 1)%Z).
    { change 1%Z with (Qfloor (5 # 4)). apply Qfloor_resp_le. exact Hs2. }
    split.
    + assert (H : (Qfloor (e * (3 # 4)) <= 0)%Z).
      { change 0%Z with (Qfloor (3 # 4)). apply Qfloor_resp_le. lra. }
      lia.
    + destruct (Qlt_le_dec 0 e) as [Hpos | Hzero].
      * assert (H : (0 < Qceiling (e * (5 # 4)))%Z).
        { rewrite Zlt_Qlt. change (inject_Z 0) with 0.
          apply Qlt_le_trans with (y := e * (5 # 4)); [lra |].
          apply Qle_ceiling. }
        lia.
      * assert (Ez : e + j == 0) by lra.
        assert (Hs3 : s == 0).
        { rewrite Es, (nearest_comp _ _ Ez).
          change 0 with (inject_Z 0). apply nearest_integer. lia. }
        assert (H1 : Qfloor s = 0%Z) by (rewrite (Qfloor_comp _ _ Hs3); reflexivity).
        assert (H2 : Qceiling (e * (5 # 4)) = 0%Z).
        { assert (E0 : e * (5 # 4) == 0) by lra.
          rewrite (Qceiling_comp _ _ E0). reflexivity. }
        lia.
  - (* a millisecond and more: the quarter is exact *)
    pose proof (dyadic53_quarter e Hbig De) as Dq.
    assert (Et' : t == e * (1 # 4)).
    { rewrite Et. exact (nearest_dyadic53 _ Dq). }
    destruct (round_bounded (t * u) (e * (1 # 4)) Dq)
      as [j [Hj [_ [Hj1 Hj2]]]]; [lra | lra | lra |].
    rewrite Hj. cbn [add].
    set (lo := Qfloor (e * (3 # 4))). set (hi := Qceiling (e * (5 # 4))).
    assert (Hlo : inject_Z lo <= e * (3 # 4)) by apply Qfloor_le.
    assert (Hhi : e * (5 # 4) <= inject_Z hi) by apply Qle_ceiling.
    assert (Hlo0 : (0 <= lo)%Z).
    { change 0%Z with (Qfloor 0). apply Qfloor_resp_le. lra. }
    assert (Hhi53 : (hi <= 2 ^ 53)%Z).
    { assert (H : (hi <= Qceiling (inject_Z (5 * 2 ^ 50)))%Z).
      { apply Qceiling_resp_le.
        assert (E : inject_Z (5 * 2 ^ 50) == 2 ^ 52 * (5 # 4)) by reflexivity.
        rewrite E. lra. }
      rewrite Qceiling_Z in H. lia. }
    assert (Hlohi : (lo <= hi)%Z).
    { rewrite Zle_Qle. lra. }
    assert (Dlo : dyadic53 (inject_Z lo)) by (apply dyadic53_Z; lia).
    assert (Dhi : dyadic53 (inject_Z hi)) by (apply dyadic53_Z; lia).
    assert (Hhifin : inject_Z hi < 2 ^ 1024).
    { apply small_is_finite. rewrite (pow2_Z 53) by lia.
      rewrite <- Zle_Qle. exact Hhi53. }
    assert (Hsum0 : 0 <= e + j) by lra.
    destruct (round_bounded (e + j) (inject_Z hi) Dhi Hhifin)
      as [s [Hs [Es [_ Hs2]]]]; [lra | lra |].
    rewrite Hs. cbn [Math_floor].
    assert (Hs1 : inject_Z lo <= s).
    { rewrite Es, <- (nearest_dyadic53 _ Dlo).
      apply nearest_le; [| lra].
      change 0 with (inject_Z 0). rewrite <- Zle_Qle. exact Hlo0. }
    exists (Qfloor s). split; [reflexivity |]. split.
    + rewrite <- (Qfloor_Z lo). apply Qfloor_resp_le. exact Hs1.
    + rewrite <- (Qfloor_Z hi). apply Qfloor_resp_le. exact Hs2.
Qed.


(** Once [base * 2^k] is above the cap, the capped delay is the cap,
    also when [2^k] is no longer a double. *)
Lemma exponentialDelay_capped (k : Z) (base maxD : Q) :
  (0 <= k)%Z -> is_double base -> is_double maxD ->
  0 < base -> 0 <= maxD -> maxD < base * 2 ^ k ->
  exponentialDelay k (Finite base) (Finite maxD) = Finite maxD.
Proof.
  intros Hk Hb HM Hb0 HM0 Hcap.
  assert (Db : dyadic53 base) by (apply is_double_dyadic53; [exact Hb | lra]).
  assert (Dk : dyadic53 (2 ^ k)).
  { exists 1%Z, k. split; [ring | split; lia]. }
  unfold exponentialDelay, Math_pow2.
  destruct (Qlt_le_dec (2 ^ k) (2 ^ 1024)) as [Hfin | Hinf].
  - destruct (round_exact (2 ^ k) Dk Hfin) as [p [Hp Ep]].
    rewrite Hp. cbn [mul].
    rewrite (round_comp (base * p) (base * 2 ^ k))
      by (rewrite Ep; reflexivity).
    assert (Dp : dyadic53 (base * 2 ^ k))
      by (apply dyadic53_scale; [lia | exact Db]).
    destruct (Qlt_le_dec (base * 2 ^ k) (2 ^ 1024)) as [Hfin' | Hinf'].
    + destruct (round_exact (base * 2 ^ k) Dp Hfin') as [a [Ha Ea]].
      rewrite Ha. cbn [Math_min].
      destruct (Qle_bool a maxD) eqn:E; [| reflexivity].
      apply Qle_bool_iff in E. lra.
    + rewrite (round_overflow (base * 2 ^ k))
        by (rewrite (nearest_dyadic53 _ Dp); exact Hinf').
      reflexivity.
  - rewrite (round_overflow (2 ^ k))
      by (rewrite (nearest_dyadic53 _ Dk); exact Hinf).
    cbn [mul].
    destruct (Qcompare base 0) eqn:E;
      [apply Qeq_alt in E; lra | apply Qlt_alt in E; lra | reflexivity].
Qed.

(** C4, as the code has it: for an attempt from 0 to 1023, a base delay
    and a cap that are non-negative doubles, the cap at most [2^52], and
    a draw in [0, 1), the delay is an integer between the floor of three
    quarters and the ceiling of five quarters of the capped delay
    [e = min(base * 2^k, maxDelay)].  It is at most the ceiling of five
    quarters of the cap and of [base * 2^k]; while [base * 2^k] is within
    the cap, it is at least the floor of three quarters of
    [base * 2^k]. *)
Theorem calculateBackoff_band (k : Z) (base maxD r : Q) :
  (0 <= k <= 1023)%Z ->
  is_double base -> is_double maxD -> is_double r ->
  0 <= base -> 0 <= maxD -> maxD <= 2 ^ 52 -> 0 <= r -> r < 1 ->
  let e := Qmin (base * 2 ^ k) maxD in
  exists d : Z,
    calculateBackoff k (Finite base) (Finite maxD) (Finite r)
    = Finite (inject_Z d)
    /\ (Qfloor (e * (3 # 4)) <= d <= Qceiling (e * (5 # 4)))%Z
    /\ (d <= Qceiling (maxD * (5 # 4)))%Z
    /\ (d <= Qceiling (base * 2 ^ k * (5 # 4)))%Z
    /\ (base * 2 ^ k <= maxD ->
        (Qfloor (base * 2 ^ k * (3 # 4)) <= d)%Z).
Proof.
  intros Hk Hb HM Hr Hb0 HM0 HM52 Hr0 Hr1 e.
  destruct (exponentialDelay_value k base maxD Hk Hb HM Hb0 HM0)
    as [e' [He' [Ee' De']]].
  fold e in Ee'.
  assert (Hcap : e <= maxD) by apply Q.le_min_r.
  assert (Hunc : e <= base * 2 ^ k) by apply Q.le_min_l.
  destruct (jittered_band e' r De') as [d [Hd [Hlo Hhi]]];
    [lra | exact Hr | exact Hr0 | exact Hr1 |].
  rewrite (Qfloor_comp _ (e * (3 # 4))) in Hlo by (rewrite Ee'; reflexivity).
  rewrite (Qceiling_comp _ (e * (5 # 4))) in Hhi by (rewrite Ee'; reflexivity).
  exists d. unfold calculateBackoff. rewrite He'.
  split; [exact Hd |].
  split; [split; assumption |].
  split.
  { eapply Z.le_trans; [exact Hhi |]. apply Qceiling_resp_le. lra. }
  split.
  { eapply Z.le_trans; [exact Hhi |]. apply Qceiling_resp_le. lra. }
  intros Hwithin.
  assert (E : e == base * 2 ^ k) by (apply Q.min_l; exact Hwithin).
  rewrite <- (Qfloor_comp _ _ (Qmult_comp _ _ E _ _ (Qeq_refl (3 # 4)))).
  exact Hlo.
Qed.

Lemma thousand_is_double : is_double 1000.
Proof.
  exists 1000%Z, 0%Z.
  split; [reflexivity | split; [reflexivity | split; [discriminate |]]].
  reflexivity.
Qed.

Lemma thirty_thousand_is_double : is_double 30000.
Proof.
  exists 30000%Z, 0%Z.
  split; [reflexivity | split; [reflexivity | split; [discriminate |]]].
  reflexivity.
Qed.

Lemma three_quarters_is_double : is_double (3 # 4).
Proof.
  exists 3%Z, (-2)%Z.
  split; [reflexivity | split; [reflexivity | split; [discriminate |]]].
  reflexivity.
Qed.

Lemma calculateBackoff_band_witness :
  let e := Qmin (1000 * 2 ^ 5) 30000 in
  exists d : Z,
    calculateBackoff 5 (Finite 1000) (Finite 30000) (Finite (3 # 4))
    = Finite (inject_Z d)
    /\ (Qfloor (e * (3 # 4)) <= d <= Qceiling (e * (5 # 4)))%Z
    /\ (d <= Qceiling (30000 * (5 # 4)))%Z
    /\ (d <= Qceiling (1000 * 2 ^ 5 * (5 # 4)))%Z
    /\ (1000 * 2 ^ 5 <= 30000 ->
        (Qfloor (1000 * 2 ^ 5 * (3 # 4)) <= d)%Z).
Proof.
  apply (calculateBackoff_band 5 1000 30000 (3 # 4)).
  - lia.
  - exact thousand_is_double.
  - exact thirty_thousand_is_double.
  - exact three_quarters_is_double.
  - discriminate.
  - discriminate.
  - vm_compute. discriminate.
  - discriminate.
  - reflexivity.
Defined.

Example delay_above_cap :
  calculateBackoff 5 (Finite 1000) (Finite 30000) (Finite (3 # 4))
  = Finite 33750.
Proof. vm_compute. reflexivity. Qed.

Example delay_below_uncapped_band :
  calculateBackoff 10 (Finite 1000) (Finite 30000) (Finite 0)
  = Finite 22500.
Proof. vm_compute. reflexivity. Qed.

(** The jitter, a little below -3000 in exact arithmetic, is rounded to
    -3000, and the delay is 27000 where the exact arithmetic gives
    26999. *)
Example delay_rounded_up :
  calculateBackoff 5 (Finite 1000) (Finite 30000)
                   (Finite (5404319552844595 # 18014398509481984))
  = Finite 27000
  /\ Qfloor (30000 + 30000 * (1 # 4)
                     * ((5404319552844595 # 18014398509481984) * 2 - 1))
     = 26999%Z.
Proof. vm_compute. split; reflexivity. Qed.

(** Without a base delay, an attempt so late that [2^k] is no longer a
    double gives no delay at all: [0 * Infinity] is [NaN]. *)
Example delay_not_a_number :
  calculateBackoff 1100 (Finite 0) (Finite 30000) (Finite (1 # 2)) = NaN.
Proof. vm_compute. reflexivity. Qed.

(** Flooring takes the delay below three quarters of the capped delay. *)
Example delay_floored :
  calculateBackoff 0 (Finite 1001) (Finite 30000) (Finite 0) = Finite 750.
Proof. vm_compute. reflexivity. Qed.

(** Rounding takes the delay above five quarters of the capped delay:
    the base is [8817203645461299 * 2^-43], a little above 1002.4, and
    the draw the largest double below one. *)
Example delay_above_five_quarters :
  calculateBackoff 0 (Finite (8817203645461299 # 8796093022208))
                   (Finite 30000)
                   (Finite (9007199254740991 # 9007199254740992))
  = Finite 1253
  /\ (8817203645461299 # 8796093022208) * (5 # 4) < 1253.
Proof. vm_compute. split; reflexivity. Qed.

(** Above [2^52] the doubles are too sparse for the band: with a base of
    [2^60 + 768] the delay is above the ceiling of five quarters of it. *)
Example delay_beyond_the_band :
  calculateBackoff 0 (Finite 1152921504606847744)
                   (Finite 2305843009213693952)
                   (Finite (9007199254740991 # 9007199254740992))
  = Finite 1441151880758559744
  /\ Qceiling (1152921504606847744 * (5 # 4)) = 1441151880758559680%Z.
Proof. vm_compute. split; reflexivity. Qed.

(** C4, as the specification words it, fails: on the sixth attempt with
    the default base and cap, a jitter outcome of three quarters gives a
    delay of 33750 ms, above the cap of 30000 ms. *)
Lemma spec_band_fails_above_cap : ~ within_spec_band 5 1000 30000 (3 # 4).
Proof.
  unfold within_spec_band. rewrite delay_above_cap.
  intros [d [E [_ [_ H]]]]. injection E as <-.
  vm_compute in H. apply H. reflexivity.
Qed.

(** The lower bound is lost as well once the cap applies. *)
Lemma spec_band_fails_below : ~ within_spec_band 10 1000 30000 0.
Proof.
  unfold within_spec_band. rewrite delay_below_uncapped_band.
  intros [d [E [H _]]]. injection E as <-.
  vm_compute in H. apply H. reflexivity.
Qed.

End BackoffFacts.

Set Implicit Arguments.

(** ** Substrings *)

Module TextFacts.

Lemma starts_with_app (k s : text) : starts_with k (k ++ s) = true.
Proof.
  induction k as [|a k IH]; simpl; [reflexivity |].
  rewrite Ascii.eqb_refl. exact IH.
Qed.

Lemma starts_with_split (k s : text) :
  starts_with k s = true -> exists b, s = k ++ b.
Proof.
  revert s. induction k as [|a k IH]; intros s H.
  - exists s. reflexivity.
  - destruct s as [|c s]; simpl in H; [discriminate |].
    apply andb_true_iff in H. destruct H as [Hc Hs].
    apply Ascii.eqb_eq in Hc. subst c.
    destruct (IH _ Hs) as [b ->]. exists b. reflexivity.
Qed.

Lemma includes_cons (c : ascii) (s k : text) :
  includes s k = true -> includes (c :: s) k = true.
Proof. intros H. simpl. rewrite H. apply orb_true_r. Qed.

Lemma includes_app (a k b : text) : includes (a ++ k ++ b) k = true.
Proof.
  induction a as [|c a IH].
  - simpl. destruct (k ++ b) eqn:E; simpl; rewrite <- E;
      rewrite starts_with_app; reflexivity.
  - simpl app. apply includes_cons. exact IH.
Qed.

Lemma includes_split (s k : text) :
  includes s k = true -> exists a b, s = a ++ k ++ b.
Proof.
  induction s as [|c s IH]; intros H.
  - simpl in H. rewrite orb_false_r in H.
    destruct (starts_with_split _ _ H) as [b ->]. exists [], b. reflexivity.
  - simpl in H. apply orb_true_iff in H. destruct H as [H | H].
    + destruct (starts_with_split _ _ H) as [b ->]. exists [], b. reflexivity.
    + destruct (IH H) as [a [b ->]]. exists (c :: a), b. reflexivity.
Qed.

(** A substring of the middle part of a text is a substring of the
    whole. *)
Lemma includes_within (p x q k : text) :
  includes x k = true -> includes (p ++ x ++ q) k = true.
Proof.
  intros H. destruct (includes_split _ _ H) as [a [b ->]].
  replace (p ++ (a ++ k ++ b) ++ q) with ((p ++ a) ++ k ++ (b ++ q))
    by (repeat rewrite <- app_assoc; reflexivity).
  apply includes_app.
Qed.

Lemma includes_nonempty (s k : text) :
  k <> [] -> includes s k = true -> s <> [].
Proof.
  intros Hk H ->. simpl in H. destruct k; [congruence | discriminate].
Qed.

Lemma toLowerCase_app (a b : text) :
  toLowerCase (a ++ b) = toLowerCase a ++ toLowerCase b.
Proof. apply map_app. Qed.

End TextFacts.

(** ** The governance verdict *)

Module GovernanceFacts.

Import Governance TextFacts.

Definition confidential : text := lit "confidential".

Lemma datasetText_parts (d : dataset) :
  datasetText d
  = toLowerCase (or_default (ds_title d) [] ++ lit " ")
    ++ toLowerCase (or_default (or_else (ds_description d) (ds_notes d)) [])
    ++ toLowerCase (lit " " ++ tags_text d).
Proof.
  unfold datasetText. cbn [join].
  repeat rewrite toLowerCase_app. repeat rewrite <- app_assoc. reflexivity.
Qed.

(** A keyword in the description is a keyword in the scanned text. *)
Lemma description_is_scanned (d : dataset) (desc k : text) :
  k <> [] ->
  ds_description d = Some desc ->
  includes (toLowerCase desc) k = true ->
  includes (datasetText d) k = true.
Proof.
  intros Hk Hd H. rewrite datasetText_parts. apply includes_within.
  rewrite Hd. assert (N : desc <> []).
  { intros ->. simpl in H. destruct k; [congruence | discriminate]. }
  destruct desc as [|c desc]; [congruence |]. exact H.
Qed.

Lemma found_is_listed (d : dataset) (k : text) :
  foundRestriction d = Some k ->
  In k restrictedKeywords /\ includes (datasetText d) k = true.
Proof. intros H. apply find_some in H. exact H. Qed.

Lemma found_is_nonempty (d : dataset) (k : text) :
  foundRestriction d = Some k -> exists c k', k = c :: k'.
Proof.
  intros H. destruct (found_is_listed _ H) as [HIn _].
  simpl in HIn.
  repeat (destruct HIn as [<- | HIn]; [eexists; eexists; reflexivity |]).
  contradiction.
Qed.

Lemma checkRestrictions_found (st : state) (d : dataset) (k : text) :
  foundRestriction d = Some k ->
  fst (checkRestrictions st d)
  = {| r_allowed := false; r_reason := blocked_reason k;
       r_keyword := Some k |}.
Proof.
  intros H. destruct (found_is_nonempty _ H) as [c [k' ->]].
  unfold checkRestrictions. rewrite H. reflexivity.
Qed.

Lemma checkRestrictions_clear (st : state) (d : dataset) :
  foundRestriction d = None ->
  checkRestrictions st d
  = ({| r_allowed := true; r_reason := lit "No restrictions found";
        r_keyword := None |}, st).
Proof. intros H. unfold checkRestrictions. rewrite H. reflexivity. Qed.

(** The license step leaves the decision and the blocking errors
    alone, whatever it finds. *)
Lemma verdict_shape (cfg : config) (now : text) (st : state) (d : dataset) :
  let v := fst (validateDatasetAccess cfg now st d) in
  let rc := fst (checkRestrictions st d) in
  allowed v = negb (blockRestrictedData cfg && negb (r_allowed rc))
  /\ errors v = (if blockRestrictedData cfg && negb (r_allowed rc)
                 then [r_reason rc] else [])
  /\ restrictionCheck (checks v)
     = negb (blockRestrictedData cfg && negb (r_allowed rc)).
Proof.
  unfold validateDatasetAccess.
  destruct (blockRestrictedData cfg); simpl.
  - destruct (checkRestrictions st d) as [rc st'] eqn:E. simpl.
    destruct (r_allowed rc); simpl;
      destruct (respectLicenses cfg); simpl;
      try (destruct (checkLicense st' d) as [lc st''];
           destruct (restrictive lc)); simpl; repeat split.
  - destruct (respectLicenses cfg); simpl;
      try (destruct (checkLicense st d) as [lc st''];
           destruct (restrictive lc)); simpl; repeat split.
Qed.

Unset Implicit Arguments.

(** *** Where a keyword can occur

    The scanned text joins title, description and tag labels with
    spaces, and no keyword holds a space: a keyword occurs in the scanned
    text exactly when it occurs in one of the parts. *)

Definition space : ascii := " "%char.

Lemma starts_with_before (sp : ascii) (k : text) :
  ~ In sp k ->
  forall u b, starts_with k (u ++ sp :: b) = starts_with k u.
Proof.
  induction k as [|c k IH]; intros Hsp u b; [reflexivity |].
  assert (Hc : Ascii.eqb c sp = false).
  { destruct (Ascii.eqb c sp) eqn:E; [| reflexivity].
    apply Ascii.eqb_eq in E. subst c. contradiction Hsp. left. reflexivity. }
  destruct u as [|y u]; cbn [app starts_with].
  - rewrite Hc. reflexivity.
  - rewrite IH; [reflexivity |]. intros H. apply Hsp. right. exact H.
Qed.

Lemma includes_across (sp : ascii) (k : text) :
  ~ In sp k -> k <> [] ->
  forall a b, includes (a ++ sp :: b) k = includes a k || includes b k.
Proof.
  intros Hsp Hk. induction a as [|x a IH]; intros b.
  - pose proof (starts_with_before sp k Hsp [] b) as E. cbn [app] in *.
    destruct k as [|c k]; [contradiction Hk; reflexivity |].
    cbn [includes]. rewrite E. reflexivity.
  - pose proof (starts_with_before sp k Hsp (x :: a) b) as E.
    cbn [app] in *. cbn [includes]. rewrite E, IH.
    rewrite Bool.orb_assoc. reflexivity.
Qed.

Lemma includes_nil (k : text) : k <> [] -> includes [] k = false.
Proof. destruct k; [intros H; contradiction H |]; reflexivity. Qed.

Lemma includes_joined (k : text) :
  ~ In space k -> k <> [] ->
  forall parts,
    includes (join [space] parts) k = existsb (fun p => includes p k) parts.
Proof.
  intros Hsp Hk. induction parts as [|p rest IH].
  - cbn [join existsb]. apply includes_nil. exact Hk.
  - destruct rest as [|q rest].
    + cbn [join existsb]. rewrite Bool.orb_false_r. reflexivity.
    + change (join [space] (p :: q :: rest))
        with (p ++ space :: join [space] (q :: rest)).
      rewrite (includes_across space k Hsp Hk), IH. reflexivity.
Qed.

Lemma toLowerCase_join (parts : list text) :
  toLowerCase (join [space] parts) = join [space] (map toLowerCase parts).
Proof.
  induction parts as [|p rest IH]; [reflexivity |].
  destruct rest as [|q rest]; [reflexivity |].
  change (join [space] (p :: q :: rest))
    with (p ++ space :: join [space] (q :: rest)).
  rewrite toLowerCase_app. cbn [map].
  change (join [space] (toLowerCase p :: toLowerCase q :: map toLowerCase rest))
    with (toLowerCase p
          ++ space :: join [space] (map toLowerCase (q :: rest))).
  rewrite <- IH. reflexivity.
Qed.

Definition tags_of (d : dataset) : list tag :=
  match ds_tags d with
  | Some ts => ts
  | None => []
  end.

(** The keyword occurs, in any letter case, in the title, in the
    description (the notes when there is no description), or in the
    label of a tag. *)
Definition occurs (d : dataset) (k : text) : bool :=
  includes (toLowerCase (or_default (ds_title d) [])) k
  || includes (toLowerCase
                 (or_default (or_else (ds_description d) (ds_notes d)) []))
              k
  || existsb (fun t => includes (toLowerCase (tag_label t)) k) (tags_of d).

Lemma keywords_hold_no_space :
  forallb (fun k => negb (existsb (Ascii.eqb space) k)
                    && negb (text_eqb k []))
          restrictedKeywords = true.
Proof. vm_compute. reflexivity. Qed.

Lemma keyword_shape (k : text) :
  In k restrictedKeywords -> ~ In space k /\ k <> [].
Proof.
  intros Hin. pose proof keywords_hold_no_space as H.
  rewrite forallb_forall in H. specialize (H k Hin).
  apply andb_prop in H. destruct H as [Hs Hn]. split.
  - intros Hsp. apply Bool.negb_true_iff in Hs.
    assert (Hex : existsb (Ascii.eqb space) k = true).
    { apply existsb_exists. exists space.
      split; [exact Hsp | apply Ascii.eqb_refl]. }
    rewrite Hex in Hs. discriminate.
  - intros ->. discriminate.
Qed.

Lemma scanned_text_parts (d : dataset) (k : text) :
  In k restrictedKeywords -> includes (datasetText d) k = occurs d k.
Proof.
  intros Hin. destruct (keyword_shape k Hin) as [Hsp Hk].
  unfold datasetText, occurs.
  change (lit " ") with [space].
  rewrite toLowerCase_join, (includes_joined k Hsp Hk).
  cbn [map existsb]. rewrite Bool.orb_false_r, Bool.orb_assoc.
  f_equal. unfold tags_text, tags_of.
  destruct (ds_tags d) as [ts |].
  - change (lit " ") with [space].
    rewrite toLowerCase_join, (includes_joined k Hsp Hk).
    induction ts as [|t ts IH]; [reflexivity |].
    cbn [map existsb]. rewrite IH. reflexivity.
  - cbn. apply includes_nil. exact Hk.
Qed.

(** Two ways to cut the same list at an entry: at the same place, or
    one entry lies before the other. *)
Lemma split_compare {A : Type} (l1 l2 : list A) (x y : A) (r1 r2 : list A) :
  l1 ++ x :: r1 = l2 ++ y :: r2 ->
  (l1 = l2 /\ x = y) \/ In y l1 \/ In x l2.
Proof.
  revert l2. induction l1 as [|a l1 IH]; intros [|b l2] H;
    cbn [app] in H; inversion H; subst.
  - left. split; reflexivity.
  - right. right. left. reflexivity.
  - right. left. left. reflexivity.
  - destruct (IH l2 H2) as [[-> ->] | [E | E]].
    + left. split; reflexivity.
    + right. left. right. exact E.
    + right. right. right. exact E.
Qed.

(** [find] returns the first entry that passes. *)
Lemma find_first {A : Type} (f : A -> bool) (l : list A) (x : A) :
  find f l = Some x ->
  exists earlier later,
    l = earlier ++ x :: later
    /\ f x = true
    /\ Forall (fun y => f y = false) earlier.
Proof.
  induction l as [|y l IH]; intros H; [discriminate |].
  cbn [find] in H. destruct (f y) eqn:E.
  - inversion H; subst. exists [], l. repeat split; [exact E | constructor].
  - destruct (IH H) as [earlier [later [-> [Hx Hall]]]].
    exists (y :: earlier), later. repeat split; [exact Hx |].
    constructor; assumption.
Qed.

(** The keyword recorded is the first of the list that occurs in the
    title, the description or the tags. *)
Lemma found_is_first (d : dataset) (k : text) :
  foundRestriction d = Some k ->
  exists earlier later,
    restrictedKeywords = earlier ++ k :: later
    /\ occurs d k = true
    /\ Forall (fun k' => occurs d k' = false) earlier.
Proof.
  intros H. unfold foundRestriction in H.
  destruct (find_first _ _ _ H) as [earlier [later [Hl [Hk Hall]]]].
  exists earlier, later. split; [exact Hl |].
  assert (Hin : forall x, In x (earlier ++ k :: later) ->
                          In x restrictedKeywords)
    by (intros x Hx; rewrite Hl; exact Hx).
  split.
  - rewrite <- scanned_text_parts; [exact Hk |].
    apply Hin. apply in_or_app. right. left. reflexivity.
  - rewrite Forall_forall in *. intros x Hx.
    rewrite <- scanned_text_parts; [apply Hall; exact Hx |].
    apply Hin. apply in_or_app. left. exact Hx.
Qed.

Definition internal_use : text := lit "internal-use".
Definition restricted : text := lit "restricted".

(** A description with "confidential" in it: one of the first three
    keywords is found. *)
Lemma confidential_found (d : dataset) :
  includes (datasetText d) confidential = true ->
  exists k,
    foundRestriction d = Some k
    /\ In k [internal_use; restricted; confidential].
Proof.
  intros H. unfold foundRestriction, restrictedKeywords. cbn [map find].
  destruct (includes (datasetText d) (lit "internal-use")) eqn:E1.
  { eexists. split; [reflexivity |]. left. reflexivity. }
  destruct (includes (datasetText d) (lit "restricted")) eqn:E2.
  { eexists. split; [reflexivity |]. right. left. reflexivity. }
  change (lit "confidential") with confidential. rewrite H.
  eexists. split; [reflexivity |]. right. right. left. reflexivity.
Qed.

Set Implicit Arguments.

(** C5, as the code has it: with restriction blocking enabled, an item
    whose description contains "confidential" (in any letter case) is
    never allowed, whatever the license, audit and PII flags are.  The
    keyword recorded in the verdict is the first entry of the keyword
    list that occurs in the title, in the description or in a tag:
    every entry before it occurs in none of them.  It is one of
    "internal-use", "restricted" and "confidential": "internal-use" when
    that occurs, else "restricted" when that occurs, and "confidential"
    exactly when neither of the two occurs. *)
Theorem confidential_is_blocked
        (cfg : config) (now : text) (st : state) (d : dataset)
        (desc : text) :
  blockRestrictedData cfg = true ->
  ds_description d = Some desc ->
  includes (toLowerCase desc) confidential = true ->
  let v := fst (validateDatasetAccess cfg now st d) in
  allowed v = false
  /\ restrictionCheck (checks v) = false
  /\ occurs d confidential = true
  /\ exists earlier later k,
      restrictedKeywords = earlier ++ k :: later
      /\ occurs d k = true
      /\ Forall (fun k' => occurs d k' = false) earlier
      /\ r_keyword (fst (checkRestrictions st d)) = Some k
      /\ errors v = [blocked_reason k]
      /\ (occurs d internal_use = true -> k = internal_use)
      /\ (occurs d internal_use = false -> occurs d restricted = true ->
          k = restricted)
      /\ (occurs d internal_use = false -> occurs d restricted = false ->
          k = confidential).
Proof.
  intros Hflag Hd Hc v.
  assert (Hk : confidential <> []) by discriminate.
  pose proof (description_is_scanned d Hk Hd Hc) as Hscan.
  destruct (confidential_found d Hscan) as [k [Hfound Hin]].
  destruct (found_is_first d k Hfound) as [earlier [later [Hl [Hocc Hall]]]].
  destruct (verdict_shape cfg now st d) as [Ha [He Hr]].
  fold v in Ha, He, Hr.
  rewrite (checkRestrictions_found st _ Hfound) in Ha, He, Hr.
  rewrite Hflag in Ha, He, Hr. simpl in Ha, He, Hr.
  assert (Hconf : occurs d confidential = true).
  { rewrite <- scanned_text_parts; [exact Hscan |].
    unfold restrictedKeywords. cbn. tauto. }
  split; [exact Ha | split; [exact Hr | split; [exact Hconf |]]].
  exists earlier, later, k.
  rewrite (checkRestrictions_found st _ Hfound). cbn [r_keyword fst].
  split; [exact Hl |]. split; [exact Hocc |]. split; [exact Hall |].
  split; [reflexivity |]. split; [exact He |].
  assert (Hnot : forall x, In x earlier -> occurs d x = false)
    by (rewrite Forall_forall in Hall; exact Hall).
  split; [| split].
  - intros H1.
    destruct (split_compare earlier [] k internal_use later
                (tl restrictedKeywords))
      as [[_ E] | [E | []]]; [rewrite <- Hl; reflexivity | exact E |].
    rewrite (Hnot _ E) in H1. discriminate.
  - intros H1 H2.
    destruct (split_compare earlier [internal_use] k restricted later
                (tl (tl restrictedKeywords)))
      as [[_ E] | [E | [E | []]]]; [rewrite <- Hl; reflexivity | exact E | |].
    + rewrite (Hnot _ E) in H2. discriminate.
    + rewrite <- E, H1 in Hocc. discriminate.
  - intros H1 H2.
    destruct (split_compare earlier [internal_use; restricted] k
                confidential later (tl (tl (tl restrictedKeywords))))
      as [[_ E] | [E | [E | [E | []]]]];
      [rewrite <- Hl; reflexivity | exact E | | |].
    + rewrite (Hnot _ E) in Hconf. discriminate.
    + rewrite <- E, H1 in Hocc. discriminate.
    + rewrite <- E, H2 in Hocc. discriminate.
Qed.

Definition bare : dataset :=
  {| ds_id := Some (lit "d-1"); ds_name := None; ds_title := None;
     ds_notes := None; ds_description := None; ds_organization := None;
     ds_sector := None; ds_groups := None; ds_tags := None;
     ds_license := None; ds_license_title := None; ds_license_id := None;
     ds_metadata_created := None; ds_metadata_modified := None;
     ds_num_resources := None; ds_resources := None; ds_url := None;
     ds_maintainer := None; ds_author := None; ds_score := None |}.

Definition described (title desc : string) : dataset :=
  {| ds_id := ds_id bare; ds_name := None; ds_title := Some (lit title);
     ds_notes := None; ds_description := Some (lit desc);
     ds_organization := None;
     ds_sector := None; ds_groups := None; ds_tags := None;
     ds_license := None; ds_license_title := None; ds_license_id := None;
     ds_metadata_created := None; ds_metadata_modified := None;
     ds_num_resources := None; ds_resources := None; ds_url := None;
     ds_maintainer := None; ds_author := None; ds_score := None |}.

Definition all_enabled : config := make_config None None None None.

Definition confidential_survey : dataset :=
  described "Household survey" "Confidential microdata of the survey".

Definition restricted_survey : dataset :=
  described "Household survey" "Restricted and confidential microdata".

Lemma confidential_is_blocked_witness :
  let d := confidential_survey in
  let v := fst (validateDatasetAccess all_enabled (lit "t0") initial_state
                                       d) in
  allowed v = false
  /\ restrictionCheck (checks v) = false
  /\ occurs d confidential = true
  /\ exists earlier later k,
      restrictedKeywords = earlier ++ k :: later
      /\ occurs d k = true
      /\ Forall (fun k' => occurs d k' = false) earlier
      /\ r_keyword (fst (checkRestrictions initial_state d)) = Some k
      /\ errors v = [blocked_reason k]
      /\ (occurs d internal_use = true -> k = internal_use)
      /\ (occurs d internal_use = false -> occurs d restricted = true ->
          k = restricted)
      /\ (occurs d internal_use = false -> occurs d restricted = false ->
          k = confidential).
Proof.
  apply (@confidential_is_blocked all_enabled (lit "t0") initial_state
           confidential_survey
           (lit "Confidential microdata of the survey"));
    reflexivity.
Defined.

(** C5, as the specification words it, fails: a description that
    contains both "restricted" and "confidential" is blocked with the
    keyword "restricted", which comes first in the list. *)
Lemma restricted_is_reported_first :
  includes (toLowerCase (lit "Restricted and confidential microdata"))
           confidential = true
  /\ ds_description restricted_survey
     = Some (lit "Restricted and confidential microdata")
  /\ let v := fst (validateDatasetAccess all_enabled (lit "t0")
                                          initial_state restricted_survey) in
     allowed v = false
     /\ r_keyword (fst (checkRestrictions initial_state restricted_survey))
        = Some (lit "restricted")
     /\ errors v = [blocked_reason (lit "restricted")]
     /\ errors v <> [blocked_reason confidential].
Proof.
  vm_compute. repeat split. discriminate.
Qed.

Definition without_license_check (cfg : config) : config :=
  {| respectLicenses := false;
     blockRestrictedData := blockRestrictedData cfg;
     enableAuditLog := enableAuditLog cfg;
     piiDetection := piiDetection cfg |}.

Lemma license_check_never_blocks
      (cfg : config) (now : text) (st : state) (d : dataset) :
  allowed (fst (validateDatasetAccess cfg now st d))
  = allowed (fst (validateDatasetAccess (without_license_check cfg)
                                         now st d))
  /\ errors (fst (validateDatasetAccess cfg now st d))
     = errors (fst (validateDatasetAccess (without_license_check cfg)
                                           now st d)).
Proof.
  destruct (verdict_shape cfg now st d) as [Ha [He _]].
  destruct (verdict_shape (without_license_check cfg) now st d)
    as [Ha' [He' _]].
  simpl in *. rewrite Ha, Ha', He, He'. split; reflexivity.
Qed.

Lemma checkLicense_undeclared (st : state) (d : dataset) :
  truthy (ds_license_title d) = false ->
  truthy (ds_license_id d) = false ->
  restrictive (fst (checkLicense st d)) = true
  /\ warning (fst (checkLicense st d)) = Some no_license_warning.
Proof.
  intros Ht Hi. unfold checkLicense.
  assert (E : declared_license d = []).
  { unfold declared_license, or_else. rewrite Ht.
    destruct (ds_license_id d) as [[|c l]|]; simpl in *;
      try reflexivity; discriminate. }
  rewrite E. simpl. split; reflexivity.
Qed.

(** C8: with the license check enabled, an item that declares no
    license and contains no restriction keyword is allowed, and its
    warnings are exactly the "No license specified" warning; and for
    every item the license check leaves the decision and the blocking
    errors as they are without it. *)
Theorem undeclared_license_warns
        (cfg : config) (now : text) (st : state) (d : dataset) :
  respectLicenses cfg = true ->
  truthy (ds_license_title d) = false ->
  truthy (ds_license_id d) = false ->
  foundRestriction d = None ->
  let v := fst (validateDatasetAccess cfg now st d) in
  allowed v = true
  /\ warnings v = [no_license_warning]
  /\ starts_with (lit "No license") no_license_warning = true
  /\ licenseCheck (checks v) = false
  /\ forall d' : dataset,
      allowed (fst (validateDatasetAccess cfg now st d'))
      = allowed (fst (validateDatasetAccess (without_license_check cfg)
                                             now st d')).
Proof.
  intros Hflag Ht Hi Hnone v.
  assert (Hv : allowed v = true /\ warnings v = [no_license_warning]
               /\ licenseCheck (checks v) = false).
  { subst v. unfold validateDatasetAccess. rewrite Hflag.
    rewrite (checkRestrictions_clear st _ Hnone).
    destruct (blockRestrictedData cfg); simpl;
      destruct (checkLicense_undeclared st d Ht Hi) as [Hr Hw];
      destruct (checkLicense st d) as [lc st']; simpl in *;
      rewrite Hr, Hw; simpl; repeat split. }
  destruct Hv as [Ha [Hw Hl]].
  repeat split; try assumption.
  intros d'. apply license_check_never_blocks.
Qed.

Lemma undeclared_license_warns_witness :
  let v := fst (validateDatasetAccess all_enabled (lit "t0") initial_state
                                       bare) in
  allowed v = true
  /\ warnings v = [no_license_warning]
  /\ starts_with (lit "No license") no_license_warning = true
  /\ licenseCheck (checks v) = false
  /\ forall d' : dataset,
      allowed (fst (validateDatasetAccess all_enabled (lit "t0")
                                           initial_state d'))
      = allowed (fst (validateDatasetAccess
                        (without_license_check all_enabled) (lit "t0")
                        initial_state d')).
Proof.
  apply (@undeclared_license_warns all_enabled (lit "t0") initial_state bare);
    reflexivity.
Defined.

End GovernanceFacts.

(** ** The discovery engine *)

Module DiscoveryFacts.

Import Discovery.

Section WithDates.

Variable formatDateForAPI : text -> option text.

(** *** Pagination *)

(** The page requests of one search: the same query and filter, a page
    size between one and [batchSize], and each offset the previous
    offset plus the previous page size. *)
Inductive page_chain (q : text) (fq : option text)
  : nat -> list event -> Prop :=
| chain_end : forall from, page_chain q fq from []
| chain_page : forall from rows evs,
    1 <= rows <= batchSize ->
    page_chain q fq (from + rows) evs ->
    page_chain q fq from
               (CallPackageSearch q (page_request fq rows from) :: evs).

Lemma pages_issue_a_chain (c : client) (cfg : config) (q : text)
      (fq : option text) (maxResults fuel : nat) :
  forall (s : loop_state) (h : history),
  exists evs,
    snd (pages fuel c cfg q fq maxResults s h) = h ++ evs
    /\ page_chain q fq (offset s) evs.
Proof.
  induction fuel as [|fuel IH]; intros s h.
  - exists []. simpl. rewrite app_nil_r. split; [reflexivity | constructor].
  - cbn [pages]. destruct (List.length (acc s) <? maxResults) eqn:Hlt.
    2:{ exists []. simpl. rewrite app_nil_r. split; [reflexivity | constructor]. }
    apply Nat.ltb_lt in Hlt.
    set (rows := Nat.min batchSize (maxResults - List.length (acc s))).
    assert (Hrows : 1 <= rows <= batchSize).
    { unfold rows, batchSize. lia. }
    clearbody rows.
    unfold bind, call_packageSearch.
    destruct (packageSearch c h q (page_request fq rows (offset s)))
      as [e | sr]; simpl.
    { eexists. split; [reflexivity |].
      apply chain_page; [exact Hrows | constructor]. }
    destruct (results sr) as [[|d page]|].
    + eexists. split; [reflexivity |].
      apply chain_page; [exact Hrows | constructor].
    + match goal with
      | |- context [if ?b then _ else _] => destruct b
      end.
      * eexists. split; [reflexivity |].
        apply chain_page; [exact Hrows | constructor].
      * match goal with
        | |- context [pages fuel c cfg q fq maxResults ?s' ?h'] =>
            destruct (IH s' h') as [evs [Hh Hc]]
        end.
        eexists. split.
        -- rewrite Hh. rewrite <- app_assoc. reflexivity.
        -- apply chain_page; [exact Hrows | exact Hc].
    + eexists. split; [reflexivity |].
      apply chain_page; [exact Hrows | constructor].
Qed.

(** *** The result of [search] *)

Lemma searchResult_is_out_of_scope
      (query : option text) (f : filters) (maxResults : nat)
      (sq solr fin : text) (fq : option text) (s : loop_state)
      (formatted : list search_hit) :
  lookup (scope_at_return query f maxResults sq solr fin fq s formatted)
         "searchResult" = None.
Proof. reflexivity. Qed.

Definition not_defined : text := lit "searchResult is not defined".

(** [search] catches whatever is thrown inside it. *)
Lemma search_does_not_throw (fuel : nat) (c : client) (cfg : config)
      (query : option text) (f : filters) (maxResults : nat)
      (h : history) (e : js_error) :
  fst (search formatDateForAPI fuel c cfg query f maxResults h)
  <> Thrown e.
Proof.
  unfold search, try_catch, bind.
  match goal with
  | |- context [pages fuel c cfg ?q ?fq maxResults ?s h] =>
      destruct (pages fuel c cfg q fq maxResults s h) as [[s'|e'|] h']
  end; simpl; discriminate.
Qed.

(** Once the loop is over, building the result throws, and the
    [catch] turns that into the failure record. *)
Lemma search_after_the_loop (fuel : nat) (c : client) (cfg : config)
      (query : option text) (f : filters) (maxResults : nat)
      (h : history) :
  let sanitizedQuery := if truthy query then sanitizeQuery query else [] in
  let solrQuery := if has_keys f then buildSolrQuery formatDateForAPI f
                   else match_all in
  let finalQuery := if truthy (Some sanitizedQuery) then sanitizedQuery
                    else solrQuery in
  let filterQuery := if negb (text_eqb solrQuery match_all)
                     then Some solrQuery else None in
  forall (s : loop_state) (h' : history),
    pages fuel c cfg finalQuery filterQuery maxResults
          {| acc := []; offset := 0; totalFound := 0 |} h = (Done s, h') ->
    search formatDateForAPI fuel c cfg query f maxResults h
    = (Done (failure query f (ReferenceError "searchResult")), h').
Proof.
  intros sq solr fin fq s h' H.
  unfold search, try_catch, bind. fold sq. fold solr. fold fin. fold fq.
  rewrite H. reflexivity.
Qed.

Definition compiled_query (query : option text) (f : filters) : text :=
  let sanitizedQuery := if truthy query then sanitizeQuery query else [] in
  if truthy (Some sanitizedQuery) then sanitizedQuery
  else if has_keys f then buildSolrQuery formatDateForAPI f
       else match_all.

Definition compiled_filter (f : filters) : option text :=
  let solrQuery := if has_keys f then buildSolrQuery formatDateForAPI f
                   else match_all in
  if negb (text_eqb solrQuery match_all) then Some solrQuery else None.

Definition first_round : loop_state :=
  {| acc := []; offset := 0; totalFound := 0 |}.

(** C1: [search] never returns a successful result.  Whenever it
    returns, the result has [success = false], no items and a count
    of zero.  If the catalog answered every page, the error reported
    is that [searchResult] is not defined: the result is built from
    an identifier declared inside the loop body, out of scope where
    it is read.  Otherwise the error is the one the catalog call
    threw. *)
Theorem search_never_succeeds (fuel : nat) (c : client) (cfg : config)
        (query : option text) (f : filters) (maxResults : nat)
        (h h' : history) (r : report) :
  search formatDateForAPI fuel c cfg query f maxResults h = (Done r, h') ->
  success r = false
  /\ hits r = []
  /\ hit_count r = 0
  /\ report_facets r = None
  /\ match pages fuel c cfg (compiled_query query f) (compiled_filter f)
                 maxResults first_round h with
     | (Done _, _) => error r = Some not_defined
     | (Thrown e, _) =>
         error r = Some (or_default (message e) (lit "Search failed"))
     | (OutOfFuel, _) => False
     end.
Proof.
  unfold search, try_catch, bind, compiled_query, compiled_filter,
    first_round.
  match goal with
  | |- context [pages fuel c cfg ?q ?fq maxResults ?s h] =>
      destruct (pages fuel c cfg q fq maxResults s h) as [[s'|e'|] h1]
        eqn:Hp
  end; simpl; intros H; inversion H; subst; simpl;
    repeat split; reflexivity.
Qed.

End WithDates.

(** *** A catalog with three items *)

Definition item (id : string) : dataset :=
  {| ds_id := Some (lit id); ds_name := None;
     ds_title := Some (lit "Rainfall"); ds_notes := None;
     ds_description := None; ds_organization := None;
     ds_sector := None; ds_groups := None; ds_tags := None;
     ds_license := None; ds_license_title := None; ds_license_id := None;
     ds_metadata_created := None; ds_metadata_modified := None;
     ds_num_resources := None; ds_resources := None; ds_url := None;
     ds_maintainer := None; ds_author := None; ds_score := None |}.

Definition not_found : js_error :=
  {| message := Some (lit "Resource not found.") |}.

Definition small_catalog : client :=
  {| packageSearch := fun _ _ _ =>
       inr {| count := Some 3;
              results := Some [item "a"; item "b"; item "c"];
              facets := None |};
     packageShow := fun _ id =>
       if text_eqb id (lit "good-id") then inr (Some (item "good-id"))
       else inl not_found;
     downloadResource := fun _ _ _ => inl not_found |}.

Definition no_dates : text -> option text := fun _ => None.

Definition rainfall_search : outcome report * history :=
  run (search no_dates 5 small_catalog (make_config None)
              (Some (lit "rainfall")) no_filters 10).

(** On a catalog that answers the one page asked for with three items,
    [search] still reports failure. *)
Example rainfall_search_fails :
  rainfall_search
  = (Done (failure (Some (lit "rainfall")) no_filters
                   (ReferenceError "searchResult")),
     [CallPackageSearch (lit "rainfall") (page_request None 10 0)]).
Proof. reflexivity. Qed.

Lemma search_never_succeeds_witness :
  let r := failure (Some (lit "rainfall")) no_filters
                   (ReferenceError "searchResult") in
  success r = false
  /\ hits r = []
  /\ hit_count r = 0
  /\ report_facets r = None
  /\ match pages 5 small_catalog (make_config None)
                 (compiled_query no_dates (Some (lit "rainfall")) no_filters)
                 (compiled_filter no_dates no_filters)
                 10 first_round [] with
     | (Done _, _) => error r = Some not_defined
     | (Thrown e, _) =>
         error r = Some (or_default (message e) (lit "Search failed"))
     | (OutOfFuel, _) => False
     end.
Proof.
  exact (@search_never_succeeds no_dates 5 small_catalog
           (make_config None) (Some (lit "rainfall")) no_filters 10
           [] _ _ eq_refl).
Defined.

(** *** [searchByIds] *)

Definition expected (id : text) (answer : js_error + option dataset)
  : id_record :=
  match answer with
  | inr (Some d) =>
      Descriptor (formatDatasetMetadata d) (formatResources (resources_of d))
  | inr None =>
      Failed id (lit "Cannot read properties of undefined (reading 'id')")
  | inl e => Failed id (or_default (message e) (lit "Failed to fetch dataset"))
  end.

Fixpoint answers (c : client) (h : history) (ids : list text)
  : list id_record :=
  match ids with
  | [] => []
  | id :: rest =>
      expected id (packageShow c h id)
      :: answers c (h ++ [CallPackageShow id]) rest
  end.

Lemma fetch_record_run (c : client) (id : text) (h : history) :
  fetch_record c id h
  = (Done (expected id (packageShow c h id)), h ++ [CallPackageShow id]).
Proof.
  unfold fetch_record, try_catch, bind, call_packageShow.
  destruct (packageShow c h id) as [e | [d |]]; reflexivity.
Qed.

Lemma fetch_each_run (c : client) (ids : list text) :
  forall (found : list id_record) (h : history),
    fetch_each c ids found h
    = (Done (found ++ answers c h ids), h ++ map CallPackageShow ids).
Proof.
  induction ids as [|id rest IH]; intros found h.
  - simpl. rewrite !app_nil_r. reflexivity.
  - cbn [fetch_each]. unfold bind. rewrite fetch_record_run.
    rewrite IH. cbn [answers map].
    rewrite <- !app_assoc. reflexivity.
Qed.

Lemma answers_length (c : client) (ids : list text) :
  forall h, List.length (answers c h ids) = List.length ids.
Proof.
  induction ids as [|id rest IH]; intros h; simpl; [| rewrite IH];
    reflexivity.
Qed.

Lemma answers_nth (c : client) (ids : list text) :
  forall (h : history) (i : nat) (id : text),
    nth_error ids i = Some id ->
    nth_error (answers c h ids) i
    = Some (expected id
              (packageShow c (h ++ map CallPackageShow (firstn i ids)) id)).
Proof.
  induction ids as [|x rest IH]; intros h i id H.
  - destruct i; discriminate.
  - destruct i as [|i].
    + inversion H; subst. simpl. rewrite app_nil_r. reflexivity.
    + simpl in H. cbn [answers nth_error firstn map].
      rewrite (IH _ _ _ H). rewrite <- app_assoc. reflexivity.
Qed.

(** *** What a record carries

    The fields of a record, told from the descriptor it was made of. *)

(** The field holds something other than white space. *)
Definition has_text (o : option text) : bool :=
  match o with
  | Some s => existsb (fun c => negb (is_space c)) s
  | None => false
  end.

Definition weight (present : bool) (w : nat) : nat :=
  if present then w else 0.

Definition completeness (d : dataset) : nat :=
  weight (has_text (ds_title d)) 10
  + weight (has_text (ds_description d)) 15
  + weight (match ds_resources d with
            | Some (_ :: _) => true
            | _ => false
            end) 25
  + weight (match ds_organization d with
            | Some _ => true
            | None => false
            end) 10
  + weight (match ds_tags d with
            | Some ts =>
                has_text
                  (Some (join (lit ",")
                              (map (fun t => match t with
                                             | TagString s => s
                                             | TagObject _ => object_Object
                                             end) ts)))
            | None => false
            end) 10
  + weight (has_text (ds_metadata_created d)) 5
  + weight (has_text (ds_metadata_modified d)) 5
  + weight (has_text (ds_license d)) 10
  + weight (has_text (ds_maintainer d)) 5
  + weight (has_text (ds_author d)) 5.

Definition carries_descriptor (d : dataset) (m : metadata) : Prop :=
  m_id m = (if truthy (ds_id d) then ds_id d else ds_name d)
  /\ m_title m = ds_title d
  /\ m_description m
     = match (if truthy (ds_notes d) then ds_notes d
              else ds_description d) with
       | Some s =>
           Some (if List.length s <=? 500 then s
                 else firstn 500 s ++ lit "...")
       | None => None
       end
  /\ m_organization m
     = match ds_organization d with
       | Some org =>
           if truthy (org_title org) then interpolate (org_title org)
           else if truthy (org_name org) then interpolate (org_name org)
                else lit "Unknown"
       | None => lit "Unknown"
       end
  /\ m_sector m
     = (if truthy (ds_sector d) then interpolate (ds_sector d)
        else match ds_groups d with
             | Some (g :: _) =>
                 if truthy (group_title g) then interpolate (group_title g)
                 else lit "General"
             | _ => lit "General"
             end)
  /\ m_tags m
     = match ds_tags d with
       | Some ts => map (fun t => match t with
                                  | TagString s => Some s
                                  | TagObject n => n
                                  end) ts
       | None => []
       end
  /\ m_license m
     = (if truthy (ds_license_title d) then interpolate (ds_license_title d)
        else if truthy (ds_license_id d) then interpolate (ds_license_id d)
             else lit "Not specified")
  /\ m_createdDate m = ds_metadata_created d
  /\ m_modifiedDate m = ds_metadata_modified d
  /\ m_resourceCount m
     = match ds_num_resources d, ds_resources d with
       | Some (S n), _ => S n
       | _, Some rs => List.length rs
       | _, None => 0
       end
  /\ m_url m
     = (if truthy (ds_url d) then interpolate (ds_url d)
        else lit "https://data.gov.in/resource/"
             ++ match ds_name d with
                | Some n => n
                | None => lit "undefined"
                end)
  /\ m_qualityScore m = completeness d.

Definition carries_resource (r : resource) (fr : formatted_resource)
  : Prop :=
  fr_id fr = res_id r
  /\ fr_name fr = res_name r
  /\ fr_description fr = res_description r
  /\ fr_format fr = res_format r
  /\ fr_url fr = res_url r
  /\ fr_size fr = res_size r
  /\ fr_created fr = res_created r
  /\ fr_modified fr = res_last_modified r
  /\ fr_mimetype fr = res_mimetype r.

Definition declared_resources (d : dataset) : list resource :=
  match ds_resources d with
  | Some rs => rs
  | None => []
  end.

Lemma has_text_filled (o : option text) : filled o = has_text o.
Proof.
  destruct o as [s |]; [| reflexivity]. unfold filled, has_text, nonblank.
  induction s as [|c s IH]; [reflexivity |].
  cbn [truthy forallb existsb andb] in *.
  destruct (is_space c); cbn [negb andb orb]; [| reflexivity].
  destruct s as [|c' s]; [reflexivity | exact IH].
Qed.

Lemma truthy_interpolate (o : option text) (dflt : text) :
  or_default o dflt = if truthy o then interpolate o else dflt.
Proof. destruct o as [[|c s] |]; reflexivity. Qed.

Lemma truncate_at_500 (o : option text) :
  truncateText o 500
  = match o with
    | Some s =>
        Some (if List.length s <=? 500 then s else firstn 500 s ++ lit "...")
    | None => None
    end.
Proof.
  destruct o as [[|c s] |]; try reflexivity.
  unfold truncateText. cbn [truthy negb orb].
  destruct (List.length (c :: s) <=? 500); reflexivity.
Qed.

Lemma blank_or_not (s : text) :
  negb (forallb is_space s) = existsb (fun c => negb (is_space c)) s.
Proof.
  induction s as [|c s IH]; [reflexivity |]. cbn [forallb existsb].
  rewrite Bool.negb_andb, IH. reflexivity.
Qed.

Lemma formatDatasetMetadata_carries (d : dataset) :
  carries_descriptor d (formatDatasetMetadata d).
Proof.
  unfold carries_descriptor, formatDatasetMetadata.
  cbn [m_id m_title m_description m_organization m_sector m_tags m_license
       m_createdDate m_modifiedDate m_resourceCount m_url m_qualityScore].
  split; [reflexivity |].
  split; [reflexivity |].
  split; [apply truncate_at_500 |].
  split.
  { unfold organization_label, or_else.
    destruct (ds_organization d) as [org |]; [| reflexivity].
    destruct (org_title org) as [[|c s] |];
      destruct (org_name org) as [[|c' s'] |]; reflexivity. }
  split.
  { unfold sector_label, or_else.
    destruct (ds_sector d) as [[|c s] |];
      destruct (ds_groups d) as [[|g gs] |]; try reflexivity;
      destruct (group_title g) as [[|c' s'] |]; reflexivity. }
  split; [reflexivity |].
  split.
  { unfold or_else.
    destruct (ds_license_title d) as [[|c s] |];
      destruct (ds_license_id d) as [[|c' s'] |]; reflexivity. }
  split; [reflexivity |].
  split; [reflexivity |].
  split.
  { unfold resource_count.
    destruct (ds_num_resources d) as [[|n] |];
      destruct (ds_resources d); reflexivity. }
  split.
  { rewrite truthy_interpolate. unfold interpolate at 2.
    destruct (ds_name d); reflexivity. }
  unfold calculateQualityScore, completeness.
  rewrite !has_text_filled. unfold scored, weight.
  destruct (ds_tags d) as [ts |]; [| reflexivity].
  unfold nonblank, has_text. rewrite blank_or_not. reflexivity.
Qed.

Lemma formatResources_carry (rs : list resource) :
  Forall2 carries_resource rs (formatResources rs).
Proof.
  induction rs as [|r rs IH]; [constructor |].
  constructor; [| exact IH]. repeat split.
Qed.

(** C6: [searchByIds] never throws and returns one record per id, in
    the order of the ids.  The record of an id whose fetch yields a
    descriptor carries the fields of that descriptor: its id (or name),
    title, description cut at five hundred characters, organization,
    sector, tag names, license, dates, number of resources, address and
    completeness score, and one entry per declared resource with that
    resource's id, name, description, format, address, size, dates and
    type.  The record of an id whose fetch throws, or yields nothing, is
    an error record with that id and a message that is not empty, and
    has no descriptor fields.  Each fetch sees the calls made for the ids
    before it. *)
Theorem searchByIds_one_record_per_id
        (c : client) (ids : list text) (h : history) :
  exists recs,
    searchByIds c ids h = (Done recs, h ++ map CallPackageShow ids)
    /\ List.length recs = List.length ids
    /\ forall (i : nat) (id : text),
        nth_error ids i = Some id ->
        match packageShow c (h ++ map CallPackageShow (firstn i ids)) id with
        | inr (Some d) =>
            exists m rs,
              nth_error recs i = Some (Descriptor m rs)
              /\ carries_descriptor d m
              /\ Forall2 carries_resource (declared_resources d) rs
        | inr None =>
            exists msg, nth_error recs i = Some (Failed id msg) /\ msg <> []
        | inl e =>
            nth_error recs i
            = Some (Failed id (if truthy (message e)
                               then interpolate (message e)
                               else lit "Failed to fetch dataset"))
            /\ (if truthy (message e) then interpolate (message e)
                else lit "Failed to fetch dataset") <> []
        end.
Proof.
  exists (answers c h ids). split; [| split].
  - destruct ids as [|id rest].
    + simpl. rewrite app_nil_r. reflexivity.
    + unfold searchByIds. rewrite fetch_each_run. reflexivity.
  - apply answers_length.
  - intros i id H. pose proof (answers_nth c ids h i H) as Hn.
    destruct (packageShow c (h ++ map CallPackageShow (firstn i ids)) id)
      as [e | [d |]]; cbn [expected] in Hn.
    + rewrite truthy_interpolate in Hn. split; [exact Hn |].
      destruct (message e) as [[|x s] |]; discriminate.
    + exists (formatDatasetMetadata d), (formatResources (resources_of d)).
      split; [exact Hn |].
      split; [apply formatDatasetMetadata_carries |].
      apply formatResources_carry.
    + eexists. split; [exact Hn | discriminate].
Qed.

Example good_and_missing :
  run (searchByIds small_catalog [lit "good-id"; lit "missing-id"])
  = (Done [Descriptor (formatDatasetMetadata (item "good-id")) [];
           Failed (lit "missing-id") (lit "Resource not found.")],
     [CallPackageShow (lit "good-id"); CallPackageShow (lit "missing-id")]).
Proof. reflexivity. Qed.

End DiscoveryFacts.

(** ** The acquisition engine *)

Module AcquisitionFacts.

Import Acquisition.
Local Open Scope Z_scope.

Section Engine.

Variable parseInt : Z -> Z.
Variable formatBytes : Z -> text.
Variable preview : Type.
Variable parseResourceData : text -> text -> preview.

Abbreviation acquire_resource := (acquireResource parseInt formatBytes parseResourceData).
Abbreviation acquire_each := (each_resource parseInt formatBytes parseResourceData).
Abbreviation acquire_dataset := (acquireDataset parseInt formatBytes parseResourceData).
Abbreviation metadata_of := (formatResourceMetadata formatBytes).

(** When [acquireResource] reaches the download. *)
Definition will_download (cfg : config) (r : resource)
           (o : resource_options) : bool :=
  existsb (text_eqb (declared_format r)) supportedFormats
  && negb (oversized parseInt cfg r)
  && (includeData o && truthy (res_url r)).

Definition download_call (cfg : config) (r : resource)
           (o : resource_options) : event :=
  CallDownloadResource
    (or_default (res_url r) [])
    (if ro_maxFileSize o =? 0 then maxFileSize cfg else ro_maxFileSize o).

Definition calls_of (cfg : config) (o : resource_options) (r : resource)
  : list event :=
  if will_download cfg r o then [download_call cfg r o] else [].

Lemma acquireResource_run (c : client) (cfg : config) (r : resource)
      (o : resource_options) (h : history) :
  exists out,
    acquire_resource c cfg r o h = (Done out, h ++ calls_of cfg o r)
    /\ meta out = metadata_of r.
Proof.
  unfold acquireResource, calls_of, will_download, download_call.
  destruct (existsb (text_eqb (declared_format r)) supportedFormats);
    cbn [negb andb].
  2:{ eexists. rewrite app_nil_r. split; reflexivity. }
  destruct (oversized parseInt cfg r); cbn [negb andb].
  { eexists. rewrite app_nil_r. split; reflexivity. }
  destruct (includeData o && truthy (res_url r))%bool.
  - unfold try_catch, bind, call_downloadResource.
    match goal with
    | |- context [downloadResource c h ?u ?m] =>
        destruct (downloadResource c h u m) as [e | bytes]
    end; eexists; split; reflexivity.
  - eexists. rewrite app_nil_r. split; reflexivity.
Qed.

Lemma each_resource_run (c : client) (cfg : config) (all : list resource)
      (o : resource_options) :
  forall (todo i : nat) (processed : list (resource_outcome preview))
         (h : history),
    (i + todo <= List.length all)%nat ->
    exists outs,
      acquire_each c cfg all o todo i processed h
      = (Done (processed ++ outs),
         h ++ flat_map (calls_of cfg o) (firstn todo (skipn i all)))
      /\ map (@meta preview) outs
         = map metadata_of (firstn todo (skipn i all)).
Proof.
  induction todo as [|todo IH]; intros i processed h Hlen.
  - exists []. simpl. rewrite !app_nil_r. split; reflexivity.
  - cbn [each_resource].
    destruct (nth_error all i) as [r |] eqn:Hr.
    2:{ apply nth_error_None in Hr. lia. }
    destruct (acquireResource_run c cfg r o h) as [out [Hrun Hmeta]].
    unfold bind, try_catch. rewrite Hrun.
    destruct (IH (S i) (processed ++ [out]) (h ++ calls_of cfg o r))
      as [outs [Hrest Hmetas]]; [lia |].
    rewrite Hrest. exists (out :: outs).
    assert (Hsplit : skipn i all = r :: skipn (S i) all).
    { clear - Hr. revert i Hr.
      induction all as [|x l IHl]; intros [|i] Hr; try discriminate.
      - inversion Hr. reflexivity.
      - simpl in Hr. apply IHl in Hr. exact Hr. }
    rewrite Hsplit. cbn [firstn flat_map map].
    rewrite <- !app_assoc. split; [reflexivity |].
    rewrite Hmeta, Hmetas. reflexivity.
Qed.

Definition attachments (d : dataset) : list resource :=
  match ds_resources d with
  | Some rs => rs
  | None => []
  end.

Definition resource_options_of (cfg : config) (o : options)
  : resource_options :=
  {| includeData := match o_includeData o with
                    | Some false => false
                    | _ => true
                    end;
     ro_maxFileSize := num_or (o_maxFileSize o) (maxFileSize cfg) |}.

(** The outcomes of [acquireDataset] for a descriptor that was
    fetched: one per selected attachment, in declared order, whatever
    the downloads do. *)
Lemma acquireDataset_run (c : client) (cfg : config) (id : text)
      (o : options) (h : history) (d : dataset) :
  packageShow c h id = inr (Some d) ->
  let n := Z.to_nat (limit_of cfg o (attachments d)) in
  exists a,
    acquire_dataset c cfg id o h
    = (Done a,
       h ++ CallPackageShow id
         :: flat_map (calls_of cfg (resource_options_of cfg o))
                     (firstn n (attachments d)))
    /\ success a = true
    /\ map (@meta preview) (resources a)
       = map metadata_of (firstn n (attachments d)).
Proof.
  intros Hshow n.
  unfold acquireDataset, try_catch, bind, call_packageShow.
  rewrite Hshow. cbn [lift].
  fold (attachments d). fold (resource_options_of cfg o). fold n.
  destruct (each_resource_run c cfg (attachments d)
              (resource_options_of cfg o) n 0 []
              (h ++ [CallPackageShow id])) as [outs [Hrun Hmeta]].
  { unfold n, limit_of. lia. }
  rewrite Hrun. eexists. split; [| split].
  - cbn [skipn]. rewrite <- app_assoc. reflexivity.
  - reflexivity.
  - exact Hmeta.
Qed.

(** [options.resourceLimit || this.resourceLimit] *)
Definition effective_limit (cfg : config) (o : options) : Z :=
  num_or (o_resourceLimit o) (resourceLimit cfg).

(** C9, as the code has it: [acquireDataset] returns exactly
    [min(L, n)] outcomes, the outcomes of the first [min(L, n)]
    attachments in declared order, for every behaviour of the downloads,
    where [L] is the effective limit: the [attachmentLimit] asked for
    when that is at least one, and the configured default when it is zero
    or absent. *)
Theorem acquireDataset_outcomes (c : client) (cfg : config) (id : text)
        (o : options) (h : history) (d : dataset) :
  packageShow c h id = inr (Some d) ->
  exists a h',
    acquire_dataset c cfg id o h = (Done a, h')
    /\ success a = true
    /\ List.length (resources a)
       = Nat.min (Z.to_nat (effective_limit cfg o))
                 (List.length (attachments d))
    /\ map (@meta preview) (resources a)
       = map metadata_of
             (firstn (Z.to_nat (effective_limit cfg o)) (attachments d))
    /\ (forall L, o_resourceLimit o = Some L -> 1 <= L ->
                  effective_limit cfg o = L)
    /\ (o_resourceLimit o = None \/ o_resourceLimit o = Some 0 ->
        effective_limit cfg o = resourceLimit cfg).
Proof.
  intros Hshow.
  destruct (@acquireDataset_run c cfg id o h d Hshow) as [a [Hrun [Hs Hm]]].
  assert (Hn : firstn (Z.to_nat (limit_of cfg o (attachments d)))
                      (attachments d)
               = firstn (Z.to_nat (effective_limit cfg o)) (attachments d)).
  { unfold limit_of. fold (effective_limit cfg o).
    destruct (Z.le_ge_cases (effective_limit cfg o)
                            (Z.of_nat (List.length (attachments d))))
      as [Hle | Hge].
    - rewrite Z.min_l by exact Hle. reflexivity.
    - rewrite Z.min_r by exact Hge. rewrite Nat2Z.id.
      rewrite firstn_all. symmetry. apply firstn_all2. lia. }
  rewrite Hn in Hm.
  exists a. eexists.
  split; [exact Hrun | split; [exact Hs | split; [| split; [exact Hm |]]]].
  - rewrite <- (length_map (@meta preview)), Hm, length_map.
    apply length_firstn.
  - split.
    + intros L HL Hpos. unfold effective_limit, num_or. rewrite HL.
      destruct (L =? 0) eqn:E; [apply Z.eqb_eq in E; lia | reflexivity].
    + intros [HL | HL]; unfold effective_limit; rewrite HL; reflexivity.
Qed.

(** The only call [acquireResource] makes is the download itself, made
    exactly when the format is supported, [parseInt] of the declared
    size is within the limit (or the size is absent or zero), data is
    requested and the attachment has a URL.  Every safety check in the
    log afterwards was in it before. *)
Lemma acquireResource_calls (c : client) (cfg : config) (r : resource)
        (o : resource_options) (h : history) :
  snd (acquire_resource c cfg r o h)
  = h ++ (if will_download cfg r o then [download_call cfg r o] else [])
  /\ forall x,
      In (CallValidateResourceDownload x)
         (snd (acquire_resource c cfg r o h)) ->
      In (CallValidateResourceDownload x) h.
Proof.
  destruct (acquireResource_run c cfg r o h) as [out [Hrun _]].
  rewrite Hrun. cbn [snd]. split; [reflexivity |].
  intros x Hin. apply in_app_or in Hin. destruct Hin as [Hin | Hin];
    [exact Hin |].
  unfold calls_of in Hin. destruct (will_download cfg r o); simpl in Hin.
  - destruct Hin as [Hin | []]. discriminate.
  - contradiction.
Qed.

End Engine.

(** *** An item with five attachments *)

(** [parseInt] on a number whose text is in plain decimal notation,
    as the sizes below are. *)
Definition parseInt_decimal : Z -> Z := fun n => n.

Definition bytes_label : Z -> text := fun _ => lit "n Bytes".

Definition attachment (id url : string) : resource :=
  {| res_id := Some (lit id); res_name := Some (lit id);
     res_description := None; res_format := Some (lit "CSV");
     res_url := Some (lit url); res_size := Some 2048;
     res_created := None; res_last_modified := None;
     res_mimetype := None |}.

Definition five : list resource :=
  [attachment "r1" "https://data.gov.in/files/r1.csv";
   attachment "r2" "https://data.gov.in/files/r2.csv";
   attachment "r3" "https://data.gov.in/files/r3.csv";
   attachment "r4" "https://data.gov.in/files/r4.csv";
   attachment "r5" "https://data.gov.in/files/r5.csv"].

Definition rainfall : dataset :=
  {| ds_id := Some (lit "rainfall"); ds_name := Some (lit "rainfall");
     ds_title := Some (lit "Rainfall"); ds_notes := None;
     ds_description := None; ds_organization := None;
     ds_sector := None; ds_groups := None; ds_tags := None;
     ds_license := None; ds_license_title := None; ds_license_id := None;
     ds_metadata_created := None; ds_metadata_modified := None;
     ds_num_resources := None; ds_resources := Some five; ds_url := None;
     ds_maintainer := None; ds_author := None; ds_score := None |}.

Definition timed_out : js_error :=
  {| message := Some (lit "Download timeout exceeded") |}.

(** The second attachment cannot be downloaded. *)
Definition flaky : client :=
  {| packageSearch := fun _ _ _ => inl timed_out;
     packageShow := fun _ _ => inr (Some rainfall);
     downloadResource := fun _ url _ =>
       if text_eqb url (lit "https://data.gov.in/files/r2.csv")
       then inl timed_out else inr (lit "a,b") |}.

Definition defaults : config := make_config None None.

Definition limited (L : Z) : options :=
  {| o_resourceLimit := Some L; o_includeData := Some true;
     o_maxFileSize := None |}.

Definition decoded : text -> text -> text := fun bytes _ => bytes.

Definition outcomes_for (L : Z) : list (resource_outcome text) :=
  match fst (run (acquireDataset parseInt_decimal bytes_label decoded flaky defaults
                                 (lit "rainfall") (limited L))) with
  | Done a => resources a
  | _ => []
  end.

Lemma acquireDataset_outcomes_witness :
  exists a h',
    acquireDataset parseInt_decimal bytes_label decoded flaky defaults (lit "rainfall")
                   (limited 2) []
    = (Done a, h')
    /\ success a = true
    /\ List.length (resources a)
       = Nat.min (Z.to_nat (effective_limit defaults (limited 2)))
                 (List.length (attachments rainfall))
    /\ map (@meta text) (resources a)
       = map (formatResourceMetadata bytes_label)
             (firstn (Z.to_nat (effective_limit defaults (limited 2)))
                     (attachments rainfall))
    /\ (forall L, o_resourceLimit (limited 2) = Some L -> 1 <= L ->
                  effective_limit defaults (limited 2) = L)
    /\ (o_resourceLimit (limited 2) = None
        \/ o_resourceLimit (limited 2) = Some 0 ->
        effective_limit defaults (limited 2) = resourceLimit defaults).
Proof.
  apply (@acquireDataset_outcomes parseInt_decimal bytes_label text decoded flaky defaults
           (lit "rainfall") (limited 2) [] rainfall).
  reflexivity.
Defined.

Example two_is_the_limit : effective_limit defaults (limited 2) = 2.
Proof. reflexivity. Qed.

Example two_of_five :
  map (fun out => (rm_id (meta out), acquired out)) (outcomes_for 2)
  = [(Some (lit "r1"), true); (Some (lit "r2"), false)].
Proof. reflexivity. Qed.

(** C9, as the specification words it, fails for a limit of zero: the
    limit falls back to the configured default of three, and the item
    with five attachments yields three outcomes, not [min(0, 5)]. *)
Lemma zero_limit_falls_back :
  List.length (attachments rainfall) = 5%nat
  /\ List.length (outcomes_for 0) = 3%nat
  /\ List.length (outcomes_for 0)
     <> Nat.min (Z.to_nat 0) (List.length (attachments rainfall)).
Proof. vm_compute. repeat split. discriminate. Qed.

(** *** A download without a safety check *)

(** The property of the specification: every download in the log has a
    safety check of an attachment with that URL before it. *)
Definition checked_before_download (log : history) : Prop :=
  forall pre url maxSize post,
    log = pre ++ CallDownloadResource url maxSize :: post ->
    exists r, In (CallValidateResourceDownload r) pre
              /\ res_url r = Some url.

Definition metadata_endpoint : resource :=
  attachment "r0" "http://169.254.169.254/latest/meta-data/iam.csv".

Definition with_data : resource_options :=
  {| includeData := true; ro_maxFileSize := 0 |}.

Example metadata_endpoint_log :
  snd (run (acquireResource parseInt_decimal bytes_label decoded flaky defaults
                            metadata_endpoint with_data))
  = [CallDownloadResource
       (lit "http://169.254.169.254/latest/meta-data/iam.csv")
       (50 * 1024 * 1024)].
Proof. reflexivity. Qed.

(** C2: the engine downloads an attachment without a safety check.  The
    attachment points at the cloud metadata address; the log of
    [acquireResource] with data requested holds the download and nothing
    else, so the download has no safety check before it, while
    [validateResourceDownload], the guard written to prevent such
    requests, refuses this very attachment whenever it is asked. *)
Theorem download_without_check :
  snd (run (acquireResource parseInt_decimal bytes_label decoded flaky
                            defaults metadata_endpoint with_data))
  = [CallDownloadResource
       (lit "http://169.254.169.254/latest/meta-data/iam.csv")
       (50 * 1024 * 1024)]
  /\ ~ checked_before_download
        (snd (run (acquireResource parseInt_decimal bytes_label decoded
                                   flaky defaults metadata_endpoint
                                   with_data)))
  /\ forall parseURL parseInt numberToString href,
      parseURL (lit "http://169.254.169.254/latest/meta-data/iam.csv")
      = inr (lit "http:", lit "169.254.169.254", href) ->
      let v := Governance.validateResourceDownload
                 parseURL parseInt numberToString metadata_endpoint in
      Governance.dl_allowed v = false
      /\ Governance.dl_errors v
         = [lit "Cannot access internal/localhost URLs for security reasons."].
Proof.
  split; [exact metadata_endpoint_log | split].
  - rewrite metadata_endpoint_log. intros H.
    destruct (H [] _ _ [] eq_refl) as [r [[] _]].
  - intros parseURL parseInt numberToString href Hparse.
    assert (Hurl : res_url metadata_endpoint
                   = Some (lit "http://169.254.169.254/latest/meta-data/iam.csv"))
      by reflexivity.
    assert (Hcheck : Governance.validateURL parseURL
                       (lit "http://169.254.169.254/latest/meta-data/iam.csv")
                     = {| Governance.safe := false;
                          Governance.url_reason :=
                            Some (lit "Cannot access internal/localhost URLs for security reasons.") |}).
    { unfold Governance.validateURL. rewrite Hparse. reflexivity. }
    unfold Governance.validateResourceDownload.
    rewrite Hurl.
    change (or_default (Some (lit "http://169.254.169.254/latest/meta-data/iam.csv")) [])
      with (lit "http://169.254.169.254/latest/meta-data/iam.csv").
    rewrite Hcheck.
    split; reflexivity.
Qed.

End AcquisitionFacts.

(** ** Scanning a text for a pattern *)

Unset Implicit Arguments.

Module ScanFacts.

(** The character before the position reached after [k] more characters. *)
Fixpoint prev_after (p : option ascii) (l : text) (k : nat) {struct k}
  : option ascii :=
match k with
| 0 => p
| S k' =>
    match l with
    | c :: l' => prev_after (Some c) l' k'
    | [] => p
    end
end.

Lemma skip_phase (r : regex) (W : text) :
  forall (l : text) (p : option ascii) (k : nat),
    replace_from r W p l k
    = replace_from r W (prev_after p l k) (skipn k l) 0.
Proof.
  induction l as [|c l IH]; intros p k.
  - destruct k; reflexivity.
  - destruct k as [|k]; [reflexivity |]. simpl. apply IH.
Qed.

Lemma scan_match (r : regex) (W : text) (p : option ascii) (l : text)
      (n : nat) :
  match_here r p l = Some n -> 1 <= n <= List.length l ->
  replace_from r W p l 0
  = W ++ replace_from r W (prev_after p l n) (skipn n l) 0.
Proof.
  intros H [Hpos Hlen].
  destruct l as [|c l]; [simpl in Hlen; lia |].
  destruct n as [|n]; [lia |].
  cbn [replace_from]. rewrite H. rewrite skip_phase. reflexivity.
Qed.

Lemma scan_skip (r : regex) (W : text) (p : option ascii) (c : ascii)
      (l : text) :
  match_here r p (c :: l) = None ->
  replace_from r W p (c :: l) 0 = c :: replace_from r W (Some c) l 0.
Proof. intros H. cbn [replace_from]. rewrite H. reflexivity. Qed.

Lemma scan_nil (r : regex) (W : text) (p : option ascii) :
  match_here r p [] = None -> replace_from r W p [] 0 = [].
Proof. intros H. cbn [replace_from]. rewrite H. reflexivity. Qed.

(** A text without a match is left as it is. *)
Lemma scan_without_match (r : regex) (W : text) :
  forall (l : text) (p : option ascii),
    test_from r p l = false -> replace_from r W p l 0 = l.
Proof.
  induction l as [|c l IH]; intros p H; cbn [test_from] in H.
  - destruct (match_here r p []) eqn:E; [discriminate |].
    apply scan_nil. exact E.
  - destruct (match_here r p (c :: l)) eqn:E; [discriminate |].
    rewrite scan_skip by exact E. rewrite (IH _ H). reflexivity.
Qed.

(** A match further on is a match of the whole text. *)
Lemma test_later (r : regex) :
  forall (k : nat) (l : text) (p : option ascii),
    test_from r (prev_after p l k) (skipn k l) = true ->
    test_from r p l = true.
Proof.
  induction k as [|k IH]; intros l p H.
  - destruct l; exact H.
  - destruct l as [|c l]; [exact H |].
    cbn [test_from]. destruct (match_here r p (c :: l)); [reflexivity |].
    apply IH. exact H.
Qed.

Lemma prev_after_all (p : option ascii) (a s : text) :
  prev_after p (a ++ s) (List.length a) = prev_after p a (List.length a).
Proof.
  revert p. induction a as [|c a IH]; intros p; simpl.
  - reflexivity.
  - apply IH.
Qed.

(** *** Masking digits

    [masked c c'] relates a character to what a digit mask may have
    turned it into: itself, or [X] for a digit. *)

Definition masked (c c' : ascii) : Prop :=
c' = c \/ (is_digit c = true /\ c' = "X"%char).

Lemma masked_refl (c : ascii) : masked c c.
Proof. left. reflexivity. Qed.

Lemma masked_all_refl (l : text) : Forall2 masked l l.
Proof. induction l; constructor; [apply masked_refl | assumption]. Qed.

Ltac by_cases c :=
  destruct c as [[|] [|] [|] [|] [|] [|] [|] [|]];
  vm_compute; intros; try reflexivity; try discriminate.

Lemma digit_is_word (c : ascii) : is_digit c = true -> is_word c = true.
Proof. by_cases c. Qed.

Lemma word_is_mail (c : ascii) : is_word c = true -> is_mail c = true.
Proof. by_cases c. Qed.

Lemma masked_word (c c' : ascii) : masked c c' -> is_word c = is_word c'.
Proof.
  intros [-> | [H ->]]; [reflexivity |]. rewrite (digit_is_word _ H).
  reflexivity.
Qed.

Lemma masked_mail (c c' : ascii) : masked c c' -> is_mail c = is_mail c'.
Proof.
  intros [-> | [H ->]]; [reflexivity |].
  rewrite (word_is_mail _ (digit_is_word _ H)). reflexivity.
Qed.

Lemma masked_literal (x c c' : ascii) :
  is_word x = false -> masked c c' -> Ascii.eqb c x = Ascii.eqb c' x.
Proof.
  intros Hx [-> | [H ->]]; [reflexivity |].
  assert (Ec : Ascii.eqb c x = false).
  { destruct (Ascii.eqb c x) eqn:E; [| reflexivity].
    apply Ascii.eqb_eq in E. subst. rewrite (digit_is_word _ H) in Hx.
    discriminate. }
  assert (EX : Ascii.eqb "X" x = false).
  { destruct (Ascii.eqb "X" x) eqn:E; [| reflexivity].
    apply Ascii.eqb_eq in E. subst. discriminate. }
  rewrite Ec, EX. reflexivity.
Qed.

Lemma masked_digit_back (c c' : ascii) :
  masked c c' -> is_digit c' = true -> c' = c.
Proof. intros [-> | [_ ->]] H; [reflexivity | discriminate]. Qed.

Lemma masked_head (l l' : text) :
  Forall2 masked l l' -> wordy (hd_error l) = wordy (hd_error l').
Proof.
  intros H. destruct H as [|c c' l l' Hc _]; [reflexivity |].
  simpl. apply masked_word. exact Hc.
Qed.

Lemma masked_boundary (p p' : option ascii) (l l' : text) :
  wordy p = wordy p' -> Forall2 masked l l' ->
  at_boundary p l = at_boundary p' l'.
Proof.
  intros Hp Hl. unfold at_boundary. rewrite Hp, (masked_head _ _ Hl).
  reflexivity.
Qed.

(** A pattern whose classes and literals do not tell a digit from its
    mask matches a text and its masked form alike. *)

Definition cls_respects (cls : ascii -> bool) : Prop :=
forall c c', masked c c' -> cls c = cls c'.

Definition atom_respects (a : atom) : Prop :=
match a with
| WordBoundary => True
| Lit x => is_word x = false
| Rep _ cls => cls_respects cls
| Plus cls => cls_respects cls
end.

Definition cont_respects (k : cont) : Prop :=
forall u p p' l l',
  wordy p = wordy p' -> Forall2 masked l l' -> k u p l = k u p' l'.

Lemma rep_respects (cls : ascii -> bool) (k : cont) :
  cls_respects cls -> cont_respects k ->
  forall n, cont_respects (rep cls n k).
Proof.
  intros Hcls Hk. induction n as [|n IH]; intros u p p' l l' Hp Hl.
  - simpl. apply Hk; assumption.
  - simpl. destruct Hl as [|c c' l l' Hc Hl]; [reflexivity |].
    rewrite (Hcls _ _ Hc). destruct (cls c'); [| reflexivity].
    apply IH; [simpl; apply masked_word; exact Hc | exact Hl].
Qed.

Lemma plus_respects (cls : ascii -> bool) (k : cont) :
  cls_respects cls -> cont_respects k -> cont_respects (plus cls k).
Proof.
  intros Hcls Hk u p p' l l' _ Hl. revert u p p'.
  induction Hl as [|c c' l l' Hc Hl IH]; intros u p p'; [reflexivity |].
  simpl. rewrite (Hcls _ _ Hc). destruct (cls c'); [| reflexivity].
  rewrite (IH (S u) (Some c) (Some c')).
  rewrite (Hk (S u) (Some c) (Some c') l l');
    [reflexivity | simpl; apply masked_word; exact Hc | exact Hl].
Qed.

Lemma exec_respects (r : regex) :
  Forall atom_respects r ->
  forall k, cont_respects k -> cont_respects (exec r k).
Proof.
  induction 1 as [|a r Ha Hr IH]; intros k Hk; [exact Hk |].
  destruct a as [| x | n cls | cls]; cbn [exec].
  - intros u p p' l l' Hp Hl. rewrite (masked_boundary _ _ _ _ Hp Hl).
    destruct (at_boundary p' l'); [| reflexivity].
    apply IH; assumption.
  - intros u p p' l l' Hp Hl.
    destruct Hl as [|c c' l l' Hc Hl]; [reflexivity |].
    rewrite (masked_literal _ _ _ Ha Hc). destruct (Ascii.eqb c' x); [| reflexivity].
    apply IH; [exact Hk | simpl; apply masked_word; exact Hc | exact Hl].
  - apply rep_respects; [exact Ha | apply IH; exact Hk].
  - apply plus_respects; [exact Ha | apply IH; exact Hk].
Qed.

Lemma accept_respects : cont_respects accept.
Proof. intros u p p' l l' _ _. reflexivity. Qed.

Lemma match_here_respects (r : regex) (p p' : option ascii) (l l' : text) :
  Forall atom_respects r ->
  wordy p = wordy p' -> Forall2 masked l l' ->
  match_here r p l = match_here r p' l'.
Proof.
  intros Hr Hp Hl. unfold match_here.
  apply exec_respects; [exact Hr | apply accept_respects | exact Hp | exact Hl].
Qed.

End ScanFacts.

(** ** The digit patterns *)

Module DigitRunFacts.

Import ScanFacts.

(** [/\b\d{n}\b/] and its mask of [n] letters X. *)
Definition re_digits (n : nat) : regex :=
[WordBoundary; Rep n is_digit; WordBoundary].

Definition mask (n : nat) : text := repeat "X"%char n.

Fixpoint digits_prefix (n : nat) (l : text) : bool :=
match n with
| 0 => true
| S n' =>
    match l with
    | c :: l' => is_digit c && digits_prefix n' l'
    | [] => false
    end
end.

Lemma rep_digits (k : cont) :
  forall (n u : nat) (p : option ascii) (l : text),
    rep is_digit n k u p l
    = if digits_prefix n l then k (u + n) (prev_after p l n) (skipn n l)
      else None.
Proof.
  induction n as [|n IH]; intros u p l.
  - simpl. rewrite Nat.add_0_r. reflexivity.
  - simpl. destruct l as [|c l]; [reflexivity |].
    destruct (is_digit c); [| reflexivity]. simpl. rewrite IH.
    replace (S u + n) with (u + S n) by lia. reflexivity.
Qed.

Lemma digits_prefix_length :
  forall (n : nat) (l : text),
    digits_prefix n l = true -> n <= List.length l.
Proof.
  induction n as [|n IH]; intros l H; [lia |].
  destruct l as [|c l]; [discriminate |]. simpl in *.
  apply andb_true_iff in H. destruct H as [_ H]. apply IH in H. lia.
Qed.

Lemma digits_prefix_last :
  forall (n : nat) (l : text) (p : option ascii),
    1 <= n -> digits_prefix n l = true -> wordy (prev_after p l n) = true.
Proof.
  induction n as [|n IH]; intros l p Hn H; [lia |].
  destruct l as [|c l]; [discriminate |]. simpl in *.
  apply andb_true_iff in H. destruct H as [Hc H].
  destruct n as [|n].
  - simpl. apply digit_is_word. exact Hc.
  - apply IH; [lia | exact H].
Qed.

Lemma digits_prefix_masked :
  forall (n : nat) (l l' : text),
    Forall2 masked l l' ->
    digits_prefix n l' = true -> digits_prefix n l = true.
Proof.
  induction n as [|n IH]; intros l l' Hl H; [reflexivity |].
  destruct Hl as [|c c' l l' Hc Hl]; [discriminate |]. simpl in *.
  apply andb_true_iff in H. destruct H as [Hd H].
  rewrite <- (masked_digit_back _ _ Hc Hd), Hd. simpl.
  apply (IH _ _ Hl H).
Qed.

Lemma digits_prefix_mask :
  forall (n : nat) (l : text),
    digits_prefix n l = true -> Forall2 masked (firstn n l) (mask n).
Proof.
  induction n as [|n IH]; intros l H; [constructor |].
  destruct l as [|c l]; [discriminate |]. simpl in *.
  apply andb_true_iff in H. destruct H as [Hd H].
  constructor; [right; split; [exact Hd | reflexivity] | apply IH; exact H].
Qed.

Lemma masked_skipn :
  forall (n : nat) (l l' : text),
    Forall2 masked l l' -> Forall2 masked (skipn n l) (skipn n l').
Proof.
  induction n as [|n IH]; intros l l' H; [exact H |].
  destruct H as [|c c' l l' _ H]; [constructor |]. simpl. apply IH. exact H.
Qed.

Section Run.

Variable n : nat.
Hypothesis n_positive : 1 <= n.

Lemma digits_match_form (p : option ascii) (l : text) :
  match_here (re_digits n) p l
  = if at_boundary p l then
      if digits_prefix n l then
        if at_boundary (prev_after p l n) (skipn n l) then Some n else None
      else None
    else None.
Proof.
  unfold match_here, re_digits. cbn [exec].
  destruct (at_boundary p l); [| reflexivity].
  rewrite rep_digits. destruct (digits_prefix n l); [| reflexivity].
  reflexivity.
Qed.

Lemma digits_head (l : text) :
  digits_prefix n l = true -> wordy (hd_error l) = true.
Proof.
  destruct n as [|m]; [lia |]. destruct l as [|c l]; [discriminate |].
  simpl. intros H. apply andb_true_iff in H. destruct H as [H _].
  apply digit_is_word. exact H.
Qed.

Lemma digits_match_inv (p : option ascii) (l : text) (k : nat) :
  match_here (re_digits n) p l = Some k ->
  k = n /\ digits_prefix n l = true /\ wordy p = false
  /\ wordy (hd_error (skipn n l)) = false.
Proof.
  rewrite digits_match_form. unfold at_boundary.
  destruct (digits_prefix n l) eqn:Hd.
  2:{ destruct (xorb (wordy p) (wordy (hd_error l))); discriminate. }
  rewrite (digits_head _ Hd).
  rewrite (digits_prefix_last n l p n_positive Hd).
  destruct (wordy p); simpl; [discriminate |].
  destruct (wordy (hd_error (skipn n l))); simpl; [discriminate |].
  intros H. inversion H. repeat split.
Qed.

Lemma digits_match_intro (p : option ascii) (l : text) :
  digits_prefix n l = true -> wordy p = false ->
  wordy (hd_error (skipn n l)) = false ->
  match_here (re_digits n) p l = Some n.
Proof.
  intros Hd Hp Hs. rewrite digits_match_form. unfold at_boundary.
  rewrite Hd, (digits_head _ Hd), (digits_prefix_last n l p n_positive Hd),
    Hp, Hs. reflexivity.
Qed.

Lemma digits_no_match_nil (p : option ascii) :
  match_here (re_digits n) p [] = None.
Proof.
  destruct (match_here (re_digits n) p []) eqn:E; [| reflexivity].
  apply digits_match_inv in E. destruct E as [_ [Hd _]].
  apply digits_prefix_length in Hd. simpl in Hd. lia.
Qed.

Lemma digits_no_match_other (p : option ascii) (c : ascii) (l : text) :
  is_digit c = false -> match_here (re_digits n) p (c :: l) = None.
Proof.
  intros Hc. destruct (match_here (re_digits n) p (c :: l)) eqn:E;
    [| reflexivity].
  apply digits_match_inv in E. destruct E as [_ [Hd _]].
  destruct n as [|m]; [lia |]. simpl in Hd. rewrite Hc in Hd. discriminate.
Qed.

(** A match in a masked text is a match in the text itself. *)
Lemma digits_match_unmasked (p p' : option ascii) (l l' : text) (k : nat) :
  wordy p = wordy p' -> Forall2 masked l l' ->
  match_here (re_digits n) p' l' = Some k ->
  match_here (re_digits n) p l = Some k.
Proof.
  intros Hp Hl H. apply digits_match_inv in H.
  destruct H as [-> [Hd [Hp' Hs]]].
  apply digits_match_intro.
  - apply (digits_prefix_masked _ _ _ Hl Hd).
  - congruence.
  - rewrite (masked_head _ _ (masked_skipn n _ _ Hl)). exact Hs.
Qed.

Lemma digits_test_unmasked :
  forall (l l' : text), Forall2 masked l l' ->
  forall (p p' : option ascii),
    wordy p = wordy p' ->
    test_from (re_digits n) p' l' = true ->
    test_from (re_digits n) p l = true.
Proof.
  induction 1 as [|c c' l l' Hc Hl IH]; intros p p' Hp H.
  - cbn [test_from] in H. rewrite digits_no_match_nil in H. discriminate.
  - cbn [test_from] in *.
    destruct (match_here (re_digits n) p' (c' :: l')) eqn:E.
    + rewrite (digits_match_unmasked p p' (c :: l) (c' :: l') n0 Hp
                 (Forall2_cons _ _ Hc Hl) E). reflexivity.
    + destruct (match_here (re_digits n) p (c :: l)); [reflexivity |].
      apply (IH (Some c) (Some c')); [simpl; apply masked_word; exact Hc |].
      exact H.
Qed.

Abbreviation scan_digits := (replace_from (re_digits n) (mask n)).

Lemma scan_digits_match (p : option ascii) (l : text) (k : nat) :
  match_here (re_digits n) p l = Some k ->
  scan_digits p l 0
  = mask n ++ scan_digits (prev_after p l n) (skipn n l) 0
  /\ digits_prefix n l = true
  /\ wordy (prev_after p l n) = true
  /\ List.length (skipn n l) < List.length l.
Proof.
  intros H. pose proof (digits_match_inv _ _ _ H) as [-> [Hd _]].
  pose proof (digits_prefix_length _ _ Hd) as Hlen.
  split; [apply scan_match; [exact H | lia] |].
  split; [exact Hd |].
  split; [apply digits_prefix_last; assumption |].
  rewrite length_skipn. lia.
Qed.

(** The scan only turns digits into X. *)
Lemma scan_digits_masks :
  forall (m : nat) (l : text) (p : option ascii),
    List.length l <= m -> Forall2 masked l (scan_digits p l 0).
Proof.
  induction m as [|m IH]; intros l p Hm.
  - destruct l; [| simpl in Hm; lia].
    rewrite scan_nil by apply digits_no_match_nil. constructor.
  - destruct (match_here (re_digits n) p l) as [k |] eqn:E.
    + destruct (scan_digits_match _ _ _ E) as [-> [Hd [_ Hlt]]].
      rewrite <- (firstn_skipn n l) at 1.
      apply Forall2_app; [apply digits_prefix_mask; exact Hd |].
      apply IH. lia.
    + destruct l as [|c l].
      * rewrite scan_nil by exact E. constructor.
      * rewrite scan_skip by exact E.
        constructor; [apply masked_refl | apply IH; simpl in Hm; lia].
Qed.

Lemma test_through_letters (s : text) :
  forall (m : nat) (p : option ascii),
    test_from (re_digits n) p (repeat "X"%char (S m) ++ s)
    = test_from (re_digits n) (Some "X"%char) s.
Proof.
  induction m as [|m IH]; intros p.
  - cbn [repeat app test_from].
    rewrite digits_no_match_other by reflexivity. reflexivity.
  - change (repeat "X"%char (S (S m)) ++ s)
      with ("X"%char :: (repeat "X"%char (S m) ++ s)).
    cbn [test_from]. rewrite digits_no_match_other by reflexivity.
    apply IH.
Qed.

Lemma test_through_mask (p : option ascii) (s : text) :
  test_from (re_digits n) p (mask n ++ s)
  = test_from (re_digits n) (Some "X"%char) s.
Proof.
  unfold mask. pose proof (test_through_letters s (n - 1) p) as H.
  replace (S (n - 1)) with n in H by lia. exact H.
Qed.

(** After the scan no match is left. *)
Lemma scan_digits_clean :
  forall (m : nat) (l : text) (p p' : option ascii),
    List.length l <= m -> wordy p = wordy p' ->
    test_from (re_digits n) p' (scan_digits p l 0) = false.
Proof.
  induction m as [|m IH]; intros l p p' Hm Hp.
  - destruct l; [| simpl in Hm; lia].
    rewrite scan_nil by apply digits_no_match_nil.
    cbn [test_from]. rewrite digits_no_match_nil. reflexivity.
  - destruct (match_here (re_digits n) p l) as [k |] eqn:E.
    + destruct (scan_digits_match _ _ _ E) as [-> [_ [Hw Hlt]]].
      rewrite test_through_mask. apply IH; [lia | exact Hw].
    + destruct l as [|c l].
      * rewrite scan_nil by exact E.
        cbn [test_from]. rewrite digits_no_match_nil. reflexivity.
      * rewrite scan_skip by exact E. cbn [test_from].
        destruct (match_here (re_digits n) p' (c :: scan_digits (Some c) l 0))
          as [k |] eqn:E'.
        -- assert (Hl : Forall2 masked (c :: l)
                                (c :: scan_digits (Some c) l 0)).
           { constructor; [apply masked_refl |].
             apply (scan_digits_masks (List.length l)). lia. }
           rewrite (digits_match_unmasked p p' _ _ k Hp Hl E') in E.
           discriminate.
        -- apply IH; [simpl in Hm; lia | reflexivity].
Qed.

End Run.

End DigitRunFacts.

(** ** The email pattern *)

Module EmailFacts.

Import ScanFacts.

(** The pattern, read from the right: the part after the domain run,
    the domain run, and the part after the local run. *)
Definition tld : cont := exec [Lit "."; Plus is_word; WordBoundary] accept.

Definition domain : cont := plus is_mail tld.

Definition after_local : cont :=
exec [Lit "@"; Plus is_mail; Lit "."; Plus is_word; WordBoundary] accept.

Lemma email_form (p : option ascii) (l : text) :
  match_here re_email p l
  = if at_boundary p l then plus is_mail after_local 0 p l else None.
Proof. reflexivity. Qed.

Lemma after_local_form (u : nat) (p : option ascii) (l : text) :
  after_local u p l
  = match l with
    | c :: l' => if Ascii.eqb c "@" then domain (S u) (Some c) l' else None
    | [] => None
    end.
Proof. reflexivity. Qed.

(** The length of the run of word characters a text starts with. *)
Fixpoint wordrun (l : text) : nat :=
match l with
| c :: l' => if is_word c then S (wordrun l') else 0
| [] => 0
end.

Lemma wordrun_le (l : text) : wordrun l <= List.length l.
Proof.
  induction l as [|c l IH]; simpl; [lia |]. destruct (is_word c); lia.
Qed.

Lemma wordrun_next (l : text) :
  wordy (hd_error (skipn (wordrun l) l)) = false.
Proof.
  induction l as [|c l IH]; simpl; [reflexivity |].
  destruct (is_word c) eqn:E; simpl; [exact IH | exact E].
Qed.

Lemma wordrun_last :
  forall (l : text) (p : option ascii),
    1 <= wordrun l -> wordy (prev_after p l (wordrun l)) = true.
Proof.
  induction l as [|c l IH]; intros p H; simpl in *; [lia |].
  destruct (is_word c) eqn:E; [| lia]. simpl.
  destruct (wordrun l) as [|k] eqn:Ek; [exact E |].
  apply IH. lia.
Qed.

Lemma word_tail :
  forall (s : text) (u : nat) (p : option ascii),
    plus is_word (exec [WordBoundary] accept) u p s
    = match s with
      | w :: _ => if is_word w then Some (u + wordrun s) else None
      | [] => None
      end.
Proof.
  induction s as [|w s IH]; intros u p; [reflexivity |].
  cbn [plus wordrun]. destruct (is_word w) eqn:Ew; [| reflexivity].
  rewrite IH. destruct s as [|w2 s].
  - cbn [exec]. unfold at_boundary, accept. simpl. rewrite Ew. simpl.
    f_equal. lia.
  - destruct (is_word w2) eqn:Ew2.
    + f_equal. cbn [wordrun]. rewrite Ew2. lia.
    + cbn [exec]. unfold at_boundary, accept. simpl. rewrite Ew, Ew2. simpl.
      f_equal. lia.
Qed.

Lemma tld_form (u : nat) (p : option ascii) (s : text) :
  tld u p s
  = match s with
    | c :: s' =>
        if Ascii.eqb c "." && wordy (hd_error s')
        then Some (S u + wordrun s') else None
    | [] => None
    end.
Proof.
  unfold tld. cbn [exec]. destruct s as [|c s]; [reflexivity |].
  destruct (Ascii.eqb c "."); [| reflexivity]. rewrite word_tail.
  destruct s as [|w s]; [reflexivity |]. simpl.
  destruct (is_word w); reflexivity.
Qed.

(** *** Whether an attempt succeeds

    [dotted s]: inside the run of address characters that [s] starts
    with, some dot is followed by a word character.  [domain_ok s]: a
    domain can be read from the start of [s].  [tail_ok s]: the rest of a
    local part, the at sign and a domain can be read from [s]. *)

Fixpoint dotted (s : text) : bool :=
match s with
| c :: s' =>
    is_mail c && ((Ascii.eqb c "." && wordy (hd_error s')) || dotted s')
| [] => false
end.

Definition domain_ok (s : text) : bool :=
match s with
| c :: s' => is_mail c && dotted s'
| [] => false
end.

Fixpoint tail_ok (s : text) : bool :=
match s with
| c :: s' => if Ascii.eqb c "@" then domain_ok s' else is_mail c && tail_ok s'
| [] => false
end.

Definition found (o : option nat) : bool :=
match o with
| Some _ => true
| None => false
end.

Lemma dot_is_mail (c : ascii) : Ascii.eqb c "." = true -> is_mail c = true.
Proof. intros H. apply Ascii.eqb_eq in H. subst. reflexivity. Qed.

Lemma at_is_not_mail (c : ascii) : Ascii.eqb c "@" = true -> is_mail c = false.
Proof. intros H. apply Ascii.eqb_eq in H. subst. reflexivity. Qed.

Lemma found_tld (u : nat) (p : option ascii) (s : text) :
  found (tld u p s)
  = match s with
    | c :: s' => Ascii.eqb c "." && wordy (hd_error s')
    | [] => false
    end.
Proof.
  rewrite tld_form. destruct s as [|c s]; [reflexivity |].
  destruct (Ascii.eqb c "." && wordy (hd_error s)); reflexivity.
Qed.

Lemma found_domain :
  forall (s : text) (u : nat) (p : option ascii),
    found (domain u p s) = domain_ok s.
Proof.
  unfold domain.
  induction s as [|c s IH]; intros u p; [reflexivity |].
  cbn [plus domain_ok]. destruct (is_mail c); [| reflexivity].
  specialize (IH (S u) (Some c)).
  destruct (plus is_mail tld (S u) (Some c) s) as [r |] eqn:E.
  - simpl in *. destruct s as [|c2 s]; [discriminate |].
    cbn [domain_ok] in IH. cbn [dotted]. symmetry in IH.
    apply andb_true_iff in IH. destruct IH as [Hm Hd].
    rewrite Hm, Hd. rewrite orb_true_r. reflexivity.
  - simpl in IH. rewrite found_tld.
    destruct s as [|c2 s]; [reflexivity |].
    cbn [domain_ok] in IH. cbn [dotted andb].
    destruct (Ascii.eqb c2 ".") eqn:Ed.
    + rewrite (dot_is_mail _ Ed) in *. simpl in *. rewrite <- IH.
      rewrite orb_false_r. reflexivity.
    + simpl. rewrite <- IH. reflexivity.
Qed.

Lemma found_local :
  forall (l : text) (u : nat) (p : option ascii),
    found (plus is_mail after_local u p l)
    = match l with
      | c :: l' => is_mail c && tail_ok l'
      | [] => false
      end.
Proof.
  induction l as [|c l IH]; intros u p; [reflexivity |].
  cbn [plus]. destruct (is_mail c); [| reflexivity].
  specialize (IH (S u) (Some c)).
  destruct (plus is_mail after_local (S u) (Some c) l) as [r |] eqn:E.
  - simpl in *. destruct l as [|c2 l]; [discriminate |].
    cbn [tail_ok]. destruct (Ascii.eqb c2 "@") eqn:Ea.
    + rewrite (at_is_not_mail _ Ea) in IH. discriminate.
    + exact IH.
  - simpl in IH. rewrite after_local_form.
    destruct l as [|c2 l]; [reflexivity |].
    cbn [tail_ok]. destruct (Ascii.eqb c2 "@") eqn:Ea.
    + apply found_domain.
    + simpl. exact IH.
Qed.

Lemma found_email (p : option ascii) (l : text) :
  found (match_here re_email p l)
  = at_boundary p l
    && match l with
       | c :: l' => is_mail c && tail_ok l'
       | [] => false
       end.
Proof.
  rewrite email_form. destruct (at_boundary p l); [| reflexivity].
  apply found_local.
Qed.

Lemma email_no_match_nil (p : option ascii) : match_here re_email p [] = None.
Proof. rewrite email_form. destruct (at_boundary p []); reflexivity. Qed.

(** *** What a match looks like *)

(** A match of length [j] ends in a word character, is followed by none,
    and no later dot of the run it stopped in could have ended it. *)
Definition well_ended (p : option ascii) (s : text) (j : nat) : Prop :=
1 <= j <= List.length s
/\ wordy (prev_after p s j) = true
/\ wordy (hd_error (skipn j s)) = false
/\ dotted (skipn j s) = false.

Lemma well_ended_cons (p : option ascii) (c : ascii) (s : text) (j : nat) :
  well_ended (Some c) s j -> well_ended p (c :: s) (S j).
Proof.
  intros [[H1 H2] [H3 [H4 H5]]]. repeat split; simpl; try assumption; lia.
Qed.

Lemma wordrun_zero (s : text) : wordy (hd_error s) = false -> wordrun s = 0.
Proof. destruct s as [|c s]; simpl; [reflexivity |]. intros ->. reflexivity. Qed.

Lemma wordrun_positive (s : text) : wordy (hd_error s) = true -> 1 <= wordrun s.
Proof. destruct s as [|c s]; simpl; [discriminate |]. intros ->. lia. Qed.

Lemma dotted_after_wordrun (l : text) :
  dotted (skipn (wordrun l) l) = true -> dotted l = true.
Proof.
  induction l as [|c l IH]; simpl; [discriminate |].
  destruct (is_word c) eqn:E; simpl.
  - intros H. rewrite (word_is_mail _ E), (IH H). simpl.
    apply orb_true_r.
  - intros H. exact H.
Qed.

Lemma tld_value (u : nat) (p : option ascii) (s : text) (r : nat) :
  tld u p s = Some r ->
  exists c s', s = c :: s' /\ Ascii.eqb c "." = true
    /\ exists j, r = S u + j
        /\ (dotted s' = false -> well_ended (Some c) s' j).
Proof.
  rewrite tld_form. destruct s as [|c s]; [discriminate |].
  destruct (Ascii.eqb c ".") eqn:Ec; [| discriminate]. simpl.
  destruct (wordy (hd_error s)) eqn:Ew; [| discriminate].
  intros H. inversion H; subst. exists c, s.
  split; [reflexivity | split; [exact Ec |]].
  exists (wordrun s). split; [reflexivity |]. intros Hd.
  pose proof (wordrun_positive _ Ew) as Hpos.
  pose proof (wordrun_le s) as Hle.
  repeat split; try assumption.
  - apply wordrun_last. exact Hpos.
  - apply wordrun_next.
  - destruct (dotted (skipn (wordrun s) s)) eqn:E; [| reflexivity].
    rewrite (dotted_after_wordrun _ E) in Hd. discriminate.
Qed.

Lemma domain_value :
  forall (s : text) (u : nat) (p : option ascii) (r : nat),
    domain u p s = Some r -> exists j, r = u + j /\ well_ended p s j.
Proof.
  unfold domain.
  induction s as [|c s IH]; intros u p r H; [discriminate |].
  cbn [plus] in H. destruct (is_mail c) eqn:Ec; [| discriminate].
  destruct (plus is_mail tld (S u) (Some c) s) as [r' |] eqn:E.
  - inversion H; subst. destruct (IH _ _ _ E) as [j [-> Hj]].
    exists (S j). split; [lia | apply well_ended_cons; exact Hj].
  - destruct (tld_value _ _ _ _ H) as [c2 [s' [-> [Ed [j [-> Hj]]]]]].
    assert (Hd : dotted s' = false).
    { pose proof (found_domain (c2 :: s') (S u) (Some c)) as F.
      unfold domain in F. rewrite E in F. simpl in F.
      rewrite (dot_is_mail _ Ed) in F. simpl in F. congruence. }
    exists (S (S j)). split; [lia |].
    apply well_ended_cons, well_ended_cons. apply Hj. exact Hd.
Qed.

Lemma local_value :
  forall (l : text) (u : nat) (p : option ascii) (r : nat),
    plus is_mail after_local u p l = Some r ->
    exists j, r = u + j /\ well_ended p l j.
Proof.
  induction l as [|c l IH]; intros u p r H; [discriminate |].
  cbn [plus] in H. destruct (is_mail c) eqn:Ec; [| discriminate].
  destruct (plus is_mail after_local (S u) (Some c) l) as [r' |] eqn:E.
  - inversion H; subst. destruct (IH _ _ _ E) as [j [-> Hj]].
    exists (S j). split; [lia | apply well_ended_cons; exact Hj].
  - rewrite after_local_form in H. destruct l as [|c2 l]; [discriminate |].
    destruct (Ascii.eqb c2 "@"); [| discriminate].
    destruct (domain_value _ _ _ _ H) as [j [-> Hj]].
    exists (S (S j)). split; [lia |].
    apply well_ended_cons, well_ended_cons. exact Hj.
Qed.

Lemma email_match_inv (p : option ascii) (l : text) (n : nat) :
  match_here re_email p l = Some n ->
  at_boundary p l = true /\ well_ended p l n.
Proof.
  rewrite email_form. destruct (at_boundary p l); [| discriminate].
  intros H. destruct (local_value _ _ _ _ H) as [j [-> Hj]].
  split; [reflexivity | exact Hj].
Qed.

(** *** The placeholder is matched as a whole *)

Lemma plus_longest (cls : ascii -> bool) (k : cont) :
  forall (a rest : text) (u : nat) (p : option ascii) (r : nat),
    a <> [] -> forallb cls a = true ->
    plus cls k (u + List.length a) (prev_after p a (List.length a)) rest
    = None ->
    k (u + List.length a) (prev_after p a (List.length a)) rest = Some r ->
    plus cls k u p (a ++ rest) = Some r.
Proof.
  induction a as [|c a IH]; intros rest u p r Hne Hall Hmore Hk;
    [congruence |].
  simpl in Hall. apply andb_true_iff in Hall. destruct Hall as [Hc Hall].
  cbn [app plus]. rewrite Hc. destruct a as [|c2 a].
  - simpl in *. rewrite Nat.add_1_r in Hmore, Hk. rewrite Hmore. exact Hk.
  - rewrite (IH rest (S u) (Some c) r); [reflexivity | discriminate | exact Hall | |].
    + replace (S u + List.length (c2 :: a))
        with (u + List.length (c :: c2 :: a)) by (simpl; lia).
      exact Hmore.
    + replace (S u + List.length (c2 :: a))
        with (u + List.length (c :: c2 :: a)) by (simpl; lia).
      exact Hk.
Qed.

Lemma dotted_letter (c : ascii) (s : text) :
  is_mail c = true -> Ascii.eqb c "." = false -> dotted (c :: s) = dotted s.
Proof. intros Hm Hd. cbn [dotted]. rewrite Hm, Hd. reflexivity. Qed.

Lemma dotted_stop (c : ascii) (s : text) :
  is_mail c = false -> dotted (c :: s) = false.
Proof. intros Hm. cbn [dotted]. rewrite Hm. reflexivity. Qed.

Lemma mask_email_parts (s : text) :
  mask_email ++ s
  = lit "email" ++ ("@"%char :: lit "redacted" ++ (lit ".com" ++ s)).
Proof. reflexivity. Qed.

Lemma mask_email_not_dotted (s : text) : dotted (mask_email ++ s) = false.
Proof.
  rewrite mask_email_parts.
  change (lit "email" ++ ("@"%char :: lit "redacted" ++ (lit ".com" ++ s)))
    with ("e"%char :: "m"%char :: "a"%char :: "i"%char :: "l"%char
          :: "@"%char :: lit "redacted" ++ (lit ".com" ++ s)).
  repeat (rewrite dotted_letter by reflexivity).
  apply dotted_stop. reflexivity.
Qed.

Lemma mask_email_no_domain (s : text) : domain_ok (mask_email ++ s) = false.
Proof.
  change (mask_email ++ s)
    with ("e"%char :: "m"%char :: "a"%char :: "i"%char :: "l"%char
          :: "@"%char :: lit "redacted" ++ (lit ".com" ++ s)).
  cbn [domain_ok].
  repeat (rewrite dotted_letter by reflexivity).
  rewrite dotted_stop by reflexivity. apply andb_false_r.
Qed.

Lemma mask_email_match (p : option ascii) (s : text) :
  wordy p = false -> wordy (hd_error s) = false -> dotted s = false ->
  match_here re_email p (mask_email ++ s) = Some 18.
Proof.
  intros Hp Hs Hd. rewrite email_form.
  assert (Hb : at_boundary p (mask_email ++ s) = true).
  { unfold at_boundary. rewrite Hp. reflexivity. }
  rewrite Hb, mask_email_parts.
  apply plus_longest; [discriminate | reflexivity | reflexivity |].
  rewrite after_local_form. cbn [Ascii.eqb]. simpl Ascii.eqb.
  change (domain 6 (Some "@"%char) (lit "redacted" ++ (lit ".com" ++ s))
          = Some 18).
  unfold domain.
  apply plus_longest; [discriminate | reflexivity | |].
  - pose proof (found_domain (lit ".com" ++ s) 14 (Some "d"%char)) as F.
    unfold domain in F.
    change (lit ".com" ++ s)
      with ("."%char :: "c"%char :: "o"%char :: "m"%char :: s) in F.
    cbn [domain_ok] in F.
    repeat (rewrite dotted_letter in F by reflexivity).
    rewrite Hd in F. rewrite andb_false_r in F.
    change (6 + List.length (lit "redacted")) with 14.
    change (prev_after (Some "@"%char) (lit "redacted")
                       (List.length (lit "redacted")))
      with (Some "d"%char).
    change (lit ".com" ++ s)
      with ("."%char :: "c"%char :: "o"%char :: "m"%char :: s).
    destruct (plus is_mail tld 14 (Some "d"%char)
                   ("."%char :: "c"%char :: "o"%char :: "m"%char :: s));
      [discriminate | reflexivity].
  - rewrite tld_form.
    change (lit ".com" ++ s)
      with ("."%char :: "c"%char :: "o"%char :: "m"%char :: s).
    cbn [hd_error wordy andb]. simpl Ascii.eqb.
    change (is_word "c") with true. cbn [andb].
    change (wordrun ("c"%char :: "o"%char :: "m"%char :: s))
      with (S (S (S (wordrun s)))).
    rewrite (wordrun_zero _ Hs). reflexivity.
Qed.

(** *** Addresses that start with a word character

    The scan of [replace] over the text, checking at each address it
    replaces that the address starts with a letter, a digit or an
    underscore, and not with a dot or a hyphen. *)

Fixpoint emails_start_ok_from (p : option ascii) (l : text) (skip : nat)
         {struct l} : bool :=
match l with
| [] => true
| c :: l' =>
    match skip with
    | S k => emails_start_ok_from (Some c) l' k
    | 0 =>
        match match_here re_email p l with
        | Some (S k) => is_word c && emails_start_ok_from (Some c) l' k
        | _ => emails_start_ok_from (Some c) l' 0
        end
    end
end.

Definition emails_start_with_word_char (t : text) : bool :=
emails_start_ok_from None t 0.

Abbreviation scan_email := (replace_from re_email mask_email).

Lemma ok_skip_phase :
  forall (l : text) (p : option ascii) (k : nat),
    emails_start_ok_from p l k
    = emails_start_ok_from (prev_after p l k) (skipn k l) 0.
Proof.
  induction l as [|c l IH]; intros p k.
  - destruct k; reflexivity.
  - destruct k as [|k]; [reflexivity |]. simpl. apply IH.
Qed.

Lemma ok_match (p : option ascii) (l : text) (n : nat) :
  match_here re_email p l = Some n ->
  emails_start_ok_from p l 0 = true ->
  wordy (hd_error l) = true
  /\ emails_start_ok_from (prev_after p l n) (skipn n l) 0 = true.
Proof.
  intros H Hok. destruct (email_match_inv _ _ _ H) as [_ [[Hpos Hlen] _]].
  destruct l as [|c l]; [simpl in Hlen; lia |].
  destruct n as [|n]; [lia |].
  cbn [emails_start_ok_from] in Hok. rewrite H in Hok.
  apply andb_true_iff in Hok. destruct Hok as [Hc Hok].
  rewrite ok_skip_phase in Hok. split; [exact Hc | exact Hok].
Qed.

Lemma ok_skip (p : option ascii) (c : ascii) (l : text) :
  match_here re_email p (c :: l) = None ->
  emails_start_ok_from p (c :: l) 0 = true ->
  emails_start_ok_from (Some c) l 0 = true.
Proof. intros H Hok. cbn [emails_start_ok_from] in Hok. rewrite H in Hok. exact Hok. Qed.

Lemma scan_email_match (p : option ascii) (l : text) (n : nat) :
  match_here re_email p l = Some n ->
  scan_email p l 0 = mask_email ++ scan_email (prev_after p l n) (skipn n l) 0
  /\ List.length (skipn n l) < List.length l.
Proof.
  intros H. destruct (email_match_inv _ _ _ H) as [_ [[Hpos Hlen] _]].
  split; [apply scan_match; [exact H | lia] |].
  rewrite length_skipn. lia.
Qed.

(** The first character keeps its kind. *)
Lemma head_kept (p : option ascii) (l : text) :
  emails_start_ok_from p l 0 = true ->
  wordy (hd_error (scan_email p l 0)) = wordy (hd_error l).
Proof.
  intros Hok. destruct (match_here re_email p l) as [n |] eqn:E.
  - destruct (scan_email_match _ _ _ E) as [-> _].
    destruct (ok_match _ _ _ E Hok) as [-> _]. reflexivity.
  - destruct l as [|c l].
    + rewrite scan_nil by exact E. reflexivity.
    + rewrite scan_skip by exact E. reflexivity.
Qed.

(** What lets an attempt succeed on the scanned text lets it succeed on
    the text itself. *)
Lemma dotted_kept :
  forall (l : text) (p : option ascii),
    emails_start_ok_from p l 0 = true ->
    dotted (scan_email p l 0) = true -> dotted l = true.
Proof.
  induction l as [|c l IH]; intros p Hok H.
  - rewrite scan_nil in H by apply email_no_match_nil. discriminate.
  - destruct (match_here re_email p (c :: l)) as [n |] eqn:E.
    + destruct (scan_email_match _ _ _ E) as [Hs _]. rewrite Hs in H.
      rewrite mask_email_not_dotted in H. discriminate.
    + rewrite scan_skip in H by exact E.
      pose proof (ok_skip _ _ _ E Hok) as Hok'.
      cbn [dotted] in *. apply andb_true_iff in H. destruct H as [Hm H].
      rewrite Hm. simpl. rewrite (head_kept _ _ Hok') in H.
      apply orb_true_iff in H. destruct H as [H | H].
      * rewrite H. reflexivity.
      * rewrite (IH _ Hok' H). apply orb_true_r.
Qed.

Lemma domain_kept (p : option ascii) (l : text) :
  emails_start_ok_from p l 0 = true ->
  domain_ok (scan_email p l 0) = true -> domain_ok l = true.
Proof.
  intros Hok H. destruct (match_here re_email p l) as [n |] eqn:E.
  - destruct (scan_email_match _ _ _ E) as [Hs _]. rewrite Hs in H.
    rewrite mask_email_no_domain in H. discriminate.
  - destruct l as [|c l].
    + rewrite scan_nil in H by exact E. discriminate.
    + rewrite scan_skip in H by exact E. cbn [domain_ok] in *.
      apply andb_true_iff in H. destruct H as [Hm H]. rewrite Hm. simpl.
      apply (dotted_kept _ _ (ok_skip _ _ _ E Hok) H).
Qed.

Lemma matched_tail (p : option ascii) (l : text) (n : nat) :
  match_here re_email p l = Some n -> tail_ok l = true.
Proof.
  intros H. pose proof (found_email p l) as F. rewrite H in F. simpl in F.
  symmetry in F. apply andb_true_iff in F. destruct F as [_ F].
  destruct l as [|c l]; [discriminate |].
  apply andb_true_iff in F. destruct F as [Hm Ht].
  cbn [tail_ok]. destruct (Ascii.eqb c "@") eqn:Ea.
  - rewrite (at_is_not_mail _ Ea) in Hm. discriminate.
  - rewrite Hm, Ht. reflexivity.
Qed.

Lemma tail_kept :
  forall (l : text) (p : option ascii),
    emails_start_ok_from p l 0 = true ->
    tail_ok (scan_email p l 0) = true -> tail_ok l = true.
Proof.
  induction l as [|c l IH]; intros p Hok H.
  - rewrite scan_nil in H by apply email_no_match_nil. discriminate.
  - destruct (match_here re_email p (c :: l)) as [n |] eqn:E.
    + apply (matched_tail _ _ _ E).
    + rewrite scan_skip in H by exact E.
      pose proof (ok_skip _ _ _ E Hok) as Hok'.
      cbn [tail_ok] in *. destruct (Ascii.eqb c "@").
      * apply (domain_kept _ _ Hok' H).
      * apply andb_true_iff in H. destruct H as [Hm H]. rewrite Hm. simpl.
        apply (IH _ Hok' H).
Qed.

(** *** Masked texts *)

Lemma email_respects : Forall atom_respects re_email.
Proof.
  unfold re_email. repeat constructor; intros c c' H;
    (apply masked_mail || apply masked_word); exact H.
Qed.

Lemma email_match_masked (p p' : option ascii) (l l' : text) :
  wordy p = wordy p' -> Forall2 masked l l' ->
  match_here re_email p l = match_here re_email p' l'.
Proof. intros Hp Hl. apply match_here_respects; [apply email_respects | exact Hp | exact Hl]. Qed.

Lemma dotted_masked :
  forall (l l' : text), Forall2 masked l l' -> dotted l = dotted l'.
Proof.
  induction 1 as [|c c' l l' Hc Hl IH]; [reflexivity |].
  cbn [dotted]. rewrite (masked_mail _ _ Hc), (masked_head _ _ Hl), IH.
  rewrite (masked_literal "."%char _ _ eq_refl Hc). reflexivity.
Qed.

Lemma ok_masked :
  forall (l l' : text), Forall2 masked l l' ->
  forall (p p' : option ascii) (k : nat),
    wordy p = wordy p' ->
    emails_start_ok_from p l k = emails_start_ok_from p' l' k.
Proof.
  induction 1 as [|c c' l l' Hc Hl IH]; intros p p' k Hp; [reflexivity |].
  assert (Hn : wordy (Some c) = wordy (Some c'))
    by (simpl; apply masked_word; exact Hc).
  cbn [emails_start_ok_from]. destruct k as [|k]; [| apply IH; exact Hn].
  rewrite (email_match_masked p p' (c :: l) (c' :: l') Hp
             (Forall2_cons _ _ Hc Hl)).
  destruct (match_here re_email p' (c' :: l')) as [[|n] |].
  - apply IH; exact Hn.
  - rewrite (masked_word _ _ Hc). f_equal. apply IH; exact Hn.
  - apply IH; exact Hn.
Qed.

Lemma undigited_masked :
  forall (a b : text),
    forallb (fun c => negb (is_digit c)) a = true ->
    Forall2 masked a b -> b = a.
Proof.
  intros a b Ha H. induction H as [|c c' a b Hc H IH]; [reflexivity |].
  simpl in Ha. apply andb_true_iff in Ha. destruct Ha as [Hd Ha].
  rewrite (IH Ha). destruct Hc as [-> | [Hc _]]; [reflexivity |].
  rewrite Hc in Hd. discriminate.
Qed.

Lemma masked_after_mask_email (out y : text) :
  Forall2 masked (mask_email ++ out) y ->
  exists y', y = mask_email ++ y' /\ Forall2 masked out y'.
Proof.
  intros H. apply Forall2_app_inv_l in H.
  destruct H as [y1 [y2 [H1 [H2 ->]]]].
  exists y2. split; [| exact H2].
  rewrite (undigited_masked mask_email y1 eq_refl H1). reflexivity.
Qed.

(** *** The scanned text is a fixed point of the scan

    and so is every masked form of it. *)
Lemma scan_email_fixed :
  forall (m : nat) (l : text) (p p' : option ascii) (y : text),
    List.length l <= m -> wordy p = wordy p' ->
    emails_start_ok_from p l 0 = true ->
    Forall2 masked (scan_email p l 0) y ->
    scan_email p' y 0 = y.
Proof.
  induction m as [|m IH]; intros l p p' y Hm Hp Hok Hy.
  - destruct l; [| simpl in Hm; lia].
    rewrite scan_nil in Hy by apply email_no_match_nil.
    inversion Hy; subst. apply scan_nil, email_no_match_nil.
  - destruct (match_here re_email p l) as [n |] eqn:E.
    + destruct (scan_email_match _ _ _ E) as [Hs Hlt]. rewrite Hs in Hy.
      destruct (masked_after_mask_email _ _ Hy) as [y' [-> Hy']].
      destruct (ok_match _ _ _ E Hok) as [Hhead Hok'].
      destruct (email_match_inv _ _ _ E) as [Hb [_ [Hlast [Hnext Hdot]]]].
      assert (Hp0 : wordy p' = false).
      { unfold at_boundary in Hb. rewrite Hhead in Hb. rewrite <- Hp.
        destruct (wordy p); [discriminate | reflexivity]. }
      assert (Hy0 : wordy (hd_error y') = false).
      { rewrite <- (masked_head _ _ Hy'), (head_kept _ _ Hok'). exact Hnext. }
      assert (Hd0 : dotted y' = false).
      { rewrite <- (dotted_masked _ _ Hy').
        destruct (dotted (scan_email (prev_after p l n) (skipn n l) 0))
          eqn:Ed; [| reflexivity].
        rewrite (dotted_kept _ _ Hok' Ed) in Hdot. discriminate. }
      pose proof (mask_email_match p' y' Hp0 Hy0 Hd0) as Hmatch.
      rewrite (scan_match re_email mask_email p' (mask_email ++ y') 18 Hmatch)
        by (rewrite length_app; simpl; lia).
      f_equal.
      change (skipn 18 (mask_email ++ y')) with y'.
      change (prev_after p' (mask_email ++ y') 18) with (Some "m"%char).
      apply (IH (skipn n l) (prev_after p l n) (Some "m"%char) y');
        [lia | rewrite Hlast; reflexivity | exact Hok' | exact Hy'].
    + destruct l as [|c l].
      * rewrite scan_nil in Hy by exact E. inversion Hy; subst.
        apply scan_nil, email_no_match_nil.
      * rewrite scan_skip in Hy by exact E.
        pose proof (ok_skip _ _ _ E Hok) as Hok'.
        inversion Hy as [|c0 c' out y' Hc Hy' E1 E2]; subst.
        assert (Hnone : match_here re_email p' (c' :: y') = None).
        { rewrite <- (email_match_masked p p' _ _ Hp Hy).
          destruct (match_here re_email p (c :: scan_email (Some c) l 0))
            as [k |] eqn:E'; [| reflexivity].
          pose proof (found_email p (c :: scan_email (Some c) l 0)) as F.
          rewrite E' in F. simpl in F. symmetry in F.
          apply andb_true_iff in F. destruct F as [Fb F].
          apply andb_true_iff in F. destruct F as [Fm Ft].
          pose proof (found_email p (c :: l)) as F'.
          rewrite E in F'. simpl in F'.
          assert (Fb' : at_boundary p (c :: l) = true) by exact Fb.
          rewrite Fb', Fm, (tail_kept _ _ Hok' Ft) in F'. discriminate. }
        rewrite scan_skip by exact Hnone. f_equal.
        apply (IH l (Some c) (Some c') y');
          [simpl in Hm; lia | simpl; apply masked_word; exact Hc
           | exact Hok' | exact Hy'].
Qed.

End EmailFacts.

(** ** Redacting twice *)

Module RedactFacts.

Import ScanFacts DigitRunFacts EmailFacts.

Section DigitsAcrossEmails.

Variable n : nat.
Hypothesis n_positive : 1 <= n.

(** A digit run read off the scanned text stands in the text itself. *)
Lemma digits_read_back :
  forall (k : nat) (l : text) (q : option ascii),
    digits_prefix k (scan_email q l 0) = true ->
    wordy (hd_error (skipn k (scan_email q l 0))) = false ->
    digits_prefix k l = true /\ wordy (hd_error (skipn k l)) = false.
Proof.
  induction k as [|k IH]; intros l q Hd Hs.
  - split; [reflexivity |]. simpl in *.
    destruct (match_here re_email q l) as [j |] eqn:E.
    + destruct (scan_email_match _ _ _ E) as [Hm _]. rewrite Hm in Hs.
      discriminate.
    + destruct l as [|c l]; [reflexivity |].
      rewrite scan_skip in Hs by exact E. exact Hs.
  - destruct (match_here re_email q l) as [j |] eqn:E.
    + destruct (scan_email_match _ _ _ E) as [Hm _]. rewrite Hm in Hd.
      discriminate.
    + destruct l as [|c l].
      * rewrite scan_nil in Hd by exact E. discriminate.
      * rewrite scan_skip in Hd, Hs by exact E. simpl in *.
        apply andb_true_iff in Hd. destruct Hd as [Hc Hd].
        rewrite Hc. simpl. apply (IH l (Some c) Hd Hs).
Qed.

Lemma test_through_mask_email (p : option ascii) (s : text) :
  test_from (re_digits n) p (mask_email ++ s)
  = test_from (re_digits n) (Some "m"%char) s.
Proof.
  change (mask_email ++ s)
    with ("e"%char :: "m"%char :: "a"%char :: "i"%char :: "l"%char
          :: "@"%char :: "r"%char :: "e"%char :: "d"%char :: "a"%char
          :: "c"%char :: "t"%char :: "e"%char :: "d"%char :: "."%char
          :: "c"%char :: "o"%char :: "m"%char :: s).
  repeat (cbn [test_from];
          rewrite (digits_no_match_other n n_positive) by reflexivity).
  reflexivity.
Qed.

(** Replacing addresses brings no digit run into being. *)
Lemma digits_survive :
  forall (m : nat) (l : text) (p p' : option ascii),
    List.length l <= m -> wordy p = wordy p' ->
    test_from (re_digits n) p' (scan_email p l 0) = true ->
    test_from (re_digits n) p l = true.
Proof.
  induction m as [|m IH]; intros l p p' Hm Hp H.
  - destruct l; [| simpl in Hm; lia].
    rewrite scan_nil in H by apply email_no_match_nil.
    cbn [test_from] in H.
    rewrite (digits_no_match_nil n n_positive) in H. discriminate.
  - destruct (match_here re_email p l) as [j |] eqn:E.
    + destruct (scan_email_match _ _ _ E) as [Hs Hlt]. rewrite Hs in H.
      rewrite test_through_mask_email in H.
      destruct (email_match_inv _ _ _ E) as [_ [_ [Hlast _]]].
      apply (test_later (re_digits n) j).
      apply (IH _ _ (Some "m"%char)); [lia | rewrite Hlast; reflexivity |].
      exact H.
    + destruct l as [|c l].
      * rewrite scan_nil in H by exact E. cbn [test_from] in H.
        rewrite (digits_no_match_nil n n_positive) in H. discriminate.
      * pose proof H as H0. rewrite scan_skip in H by exact E.
        cbn [test_from] in *.
        destruct (match_here (re_digits n) p'
                             (c :: scan_email (Some c) l 0)) as [k |] eqn:E'.
        -- rewrite <- (scan_skip re_email mask_email p c l E) in E'.
           apply (digits_match_inv n n_positive) in E'.
           destruct E' as [_ [Hd [Hp' Hnext]]].
           destruct (digits_read_back n (c :: l) p Hd Hnext) as [Hd' Hn'].
           rewrite (digits_match_intro n n_positive p (c :: l) Hd'
                      ltac:(congruence) Hn').
           reflexivity.
        -- destruct (match_here (re_digits n) p (c :: l)); [reflexivity |].
           apply (IH l (Some c) (Some c)); [simpl in Hm; lia | reflexivity |].
           exact H.
Qed.

End DigitsAcrossEmails.

Lemma redact_aadhaar_form (t : text) :
  redact_aadhaar t = replace_from (re_digits 12) (mask 12) None t 0.
Proof. reflexivity. Qed.

Lemma redact_phone_form (t : text) :
  redact_phone t = replace_from (re_digits 10) (mask 10) None t 0.
Proof. reflexivity. Qed.

Lemma redact_email_form (t : text) :
  redact_email t = scan_email None t 0.
Proof. reflexivity. Qed.

Definition twelve_positive : 1 <= 12 := ltac:(lia).
Definition ten_positive : 1 <= 10 := ltac:(lia).

(** The three passes, one after the other, on any text. *)
Definition redacted (t : text) : text :=
redact_phone (redact_email (redact_aadhaar t)).

Lemma redactPII_form (t : text) : redactPII t = redacted t.
Proof. destruct t; reflexivity. Qed.

(** No pass finds a twelve-digit run in the redacted text. *)
Lemma redacted_has_no_aadhaar (t : text) :
  test_from re_aadhaar None (redacted t) = false.
Proof.
  destruct (test_from re_aadhaar None (redacted t)) eqn:H; [| reflexivity].
  unfold redacted in H. rewrite redact_phone_form in H.
  assert (Hm : Forall2 masked (redact_email (redact_aadhaar t))
                       (replace_from (re_digits 10) (mask 10) None
                                     (redact_email (redact_aadhaar t)) 0)).
  { apply (scan_digits_masks 10 ten_positive
             (List.length (redact_email (redact_aadhaar t)))). lia. }
  apply (digits_test_unmasked 12 twelve_positive _ _ Hm None None eq_refl)
    in H.
  rewrite redact_email_form in H.
  apply (digits_survive 12 twelve_positive
           (List.length (redact_aadhaar t)) _ None None (le_n _) eq_refl)
    in H.
  rewrite redact_aadhaar_form in H.
  rewrite (scan_digits_clean 12 twelve_positive (List.length t) t None None
             (le_n _) eq_refl) in H.
  discriminate.
Qed.

(** Nor a ten-digit run. *)
Lemma redacted_has_no_phone (t : text) :
  test_from re_phone None (redacted t) = false.
Proof.
  unfold redacted. rewrite redact_phone_form.
  apply (scan_digits_clean 10 ten_positive
           (List.length (redact_email (redact_aadhaar t)))); [lia |].
  reflexivity.
Qed.

(** The two digit passes are always idempotent on a redacted text. *)
Lemma digit_passes_are_stable (t : text) :
  redact_aadhaar (redacted t) = redacted t
  /\ redact_phone (redacted t) = redacted t.
Proof.
  split.
  - apply scan_without_match, redacted_has_no_aadhaar.
  - apply scan_without_match, redacted_has_no_phone.
Qed.

(** C7, as the code has it: redaction is idempotent on every text in
    which each email address that the redaction replaces starts with a
    letter, a digit or an underscore. *)
Theorem redact_idempotent (t : text) :
  emails_start_with_word_char t = true ->
  redactPII (redactPII t) = redactPII t.
Proof.
  intros Hok. rewrite !redactPII_form.
  destruct (digit_passes_are_stable t) as [Ha Hp].
  assert (He : redact_email (redacted t) = redacted t).
  { rewrite redact_email_form.
    apply (scan_email_fixed (List.length (redact_aadhaar t))
             (redact_aadhaar t) None None (redacted t) (le_n _) eq_refl).
    - unfold emails_start_with_word_char in Hok. rewrite <- Hok.
      symmetry. apply ok_masked; [| reflexivity].
      rewrite redact_aadhaar_form.
      apply (scan_digits_masks 12 twelve_positive (List.length t)). lia.
    - unfold redacted at 1. rewrite redact_phone_form.
      apply (scan_digits_masks 10 ten_positive
               (List.length (redact_email (redact_aadhaar t)))). lia. }
  unfold redacted at 1. rewrite Ha, He, Hp. reflexivity.
Qed.

Definition contact_line : text :=
lit "Call 9876543210 or mail a.b@example.org, id 123456789012.".

Lemma redact_idempotent_witness :
  redactPII (redactPII contact_line) = redactPII contact_line.
Proof. apply (redact_idempotent contact_line). vm_compute. reflexivity. Defined.

Example contact_line_redacted :
  redactPII contact_line
  = lit "Call XXXXXXXXXX or mail email@redacted.com, id XXXXXXXXXXXX.".
Proof. vm_compute. reflexivity. Qed.


Definition two_emails : text := lit "1234567890 a@b.c-d@e.f".

Example two_emails_once :
  redactPII two_emails
  = lit "XXXXXXXXXX email@redacted.comemail@redacted.com".
Proof. vm_compute. reflexivity. Qed.

Example two_emails_twice :
  redactPII (redactPII two_emails)
  = lit "XXXXXXXXXX email@redacted.com@redacted.com".
Proof. vm_compute. reflexivity. Qed.

(** C7, as the specification words it, fails: the text holds a
    ten-digit sequence and an email address, and redacting it twice
    differs from redacting it once.  The second address starts with a
    hyphen right after the first, so the two placeholders end up side by
    side and the second pass reads them as one longer address. *)
Lemma redact_twice_differs :
  test re_phone two_emails = true
  /\ test re_email two_emails = true
  /\ redactPII (redactPII two_emails) <> redactPII two_emails.
Proof.
  split; [vm_compute; reflexivity | split; [vm_compute; reflexivity |]].
  rewrite two_emails_twice, two_emails_once. vm_compute. discriminate.
Qed.

End RedactFacts.

(** ** Descriptor formatting *)

Module FormatFacts.

Definition ellipsis : text := lit "...".

(** X1: [truncateText] returns a text of at most [maxLength + 3]
    characters that agrees with the input on its first [maxLength]
    characters: the input itself when it fits, and otherwise its first
    [maxLength] characters followed by three dots, which is up to two
    characters longer than an input that exceeds the limit by one or two.
    An absent text stays absent. *)
Theorem truncateText_bound (t : option text) (maxLength : nat) :
  match t, truncateText t maxLength with
  | Some s, Some s' =>
      List.length s' <= maxLength + 3
      /\ firstn maxLength s' = firstn maxLength s
      /\ (List.length s <= maxLength -> s' = s)
      /\ (maxLength < List.length s ->
          s' = firstn maxLength s ++ ellipsis
          /\ List.length s' = maxLength + 3)
  | None, None => True
  | _, _ => False
  end.
Proof.
  destruct t as [s |]; [| exact I]. unfold truncateText.
  destruct (List.length s <=? maxLength) eqn:E.
  - rewrite orb_true_r. apply Nat.leb_le in E.
    split; [lia | split; [reflexivity | split; [reflexivity |]]].
    intros; lia.
  - apply Nat.leb_gt in E.
    assert (Ht : truthy (Some s) = true) by (destruct s; [simpl in E; lia | reflexivity]).
    rewrite Ht. simpl negb. simpl orb.
    assert (Hl : List.length (firstn maxLength s) = maxLength)
      by (rewrite length_firstn; lia).
    repeat split.
    + rewrite length_app, Hl. reflexivity.
    + rewrite <- Hl at 1. rewrite firstn_app, Hl, Nat.sub_diag. simpl.
      rewrite app_nil_r. rewrite <- Hl at 1. apply firstn_all.
    + intros; lia.
    + rewrite length_app, Hl. reflexivity.
Qed.

Lemma scored_le (b : bool) (w : nat) : scored b w <= w.
Proof. destruct b; simpl; lia. Qed.

Lemma scored_step (b : bool) (w : nat) : scored b w = 0 \/ scored b w = w.
Proof. destruct b; simpl; auto. Qed.

(** X2: the quality score of every descriptor is at most 100 and a
    multiple of five. *)
Theorem calculateQualityScore_range (d : dataset) :
  calculateQualityScore d <= 100
  /\ exists k, calculateQualityScore d = 5 * k.
Proof.
  unfold calculateQualityScore. split.
  - repeat match goal with
           | |- context [scored ?b ?w] =>
               pose proof (scored_le b w); generalize dependent (scored b w);
               intros
           end.
    lia.
  - repeat match goal with
           | |- context [scored ?b ?w] =>
               pose proof (scored_step b w); generalize dependent (scored b w);
               intros
           end.
    match goal with
    | |- exists k, ?x = 5 * k => exists (x / 5)
    end.
    repeat match goal with H : _ \/ _ |- _ => destruct H end; subst;
      reflexivity.
Qed.

(** X3: in the formatted metadata of every descriptor the description
    has at most 503 characters, the quality score is at most 100, and an
    identifier is missing only when the descriptor has neither a
    non-empty [id] nor a non-empty [name]. *)
Theorem formatDatasetMetadata_bounds (d : dataset) :
  match m_description (formatDatasetMetadata d) with
  | Some s => List.length s <= 503
  | None => truthy (ds_notes d) = false /\ ds_description d = None
  end
  /\ m_qualityScore (formatDatasetMetadata d) <= 100
  /\ (truthy (m_id (formatDatasetMetadata d)) = false ->
      truthy (ds_id d) = false /\ truthy (ds_name d) = false)
  /\ m_organization (formatDatasetMetadata d) <> []
  /\ m_license (formatDatasetMetadata d) <> []
  /\ m_sector (formatDatasetMetadata d) <> [].
Proof.
  split; [| split; [| split; [| split; [| split]]]].
  - cbn [formatDatasetMetadata m_description].
    pose proof (truncateText_bound (or_else (ds_notes d) (ds_description d))
                                   500) as H.
    destruct (or_else (ds_notes d) (ds_description d)) as [s |] eqn:E;
      destruct (truncateText _ 500) as [s' |]; try contradiction.
    + destruct H as [H _]. exact H.
    + unfold or_else in E. destruct (truthy (ds_notes d)) eqn:En.
      * destruct (ds_notes d); discriminate.
      * split; [reflexivity | exact E].
  - apply calculateQualityScore_range.
  - cbn [formatDatasetMetadata m_id]. unfold or_else.
    destruct (truthy (ds_id d)) eqn:E; intros H; [congruence |].
    split; [reflexivity | exact H].
  - cbn [formatDatasetMetadata m_organization]. unfold organization_label.
    destruct (ds_organization d) as [org |]; [| discriminate].
    unfold or_default. destruct (or_else (org_title org) (org_name org))
      as [[|c s] |]; discriminate.
  - cbn [formatDatasetMetadata m_license]. unfold or_default.
    destruct (or_else (ds_license_title d) (ds_license_id d)) as [[|c s] |];
      discriminate.
  - cbn [formatDatasetMetadata m_sector]. unfold sector_label, or_default.
    match goal with
    | |- context [or_else ?a ?b] => destruct (or_else a b) as [[|c s] |]
    end; discriminate.
Qed.

End FormatFacts.

(** ** Query compilation *)

Module QueryFacts.

Definition space : ascii := " "%char.

(** The characters a sanitized query is made of. *)
Definition plain (c : ascii) : bool := is_mail c || Ascii.eqb c space.

(** No two spaces in a row; [after_space] tells whether a space came
    just before. *)
Fixpoint single_spaced (after_space : bool) (l : text) : bool :=
match l with
| [] => true
| c :: l' =>
    if Ascii.eqb c space then negb after_space && single_spaced true l'
    else single_spaced false l'
end.

Lemma space_is_space (c : ascii) : Ascii.eqb c space = true -> is_space c = true.
Proof. intros H. apply Ascii.eqb_eq in H. subst. reflexivity. Qed.

Lemma collapse_plain :
  forall (s : text) (b : bool),
    forallb (fun c => is_mail c || is_space c) s = true ->
    forallb plain (collapse b s) = true.
Proof.
  induction s as [|c s IH]; intros b H; [reflexivity |].
  simpl in H. apply andb_true_iff in H. destruct H as [Hc H].
  cbn [collapse]. destruct (is_space c) eqn:Es.
  - destruct b; [apply IH; exact H |].
    cbn [forallb]. rewrite (IH true H). reflexivity.
  - cbn [forallb]. rewrite (IH false H). unfold plain.
    rewrite orb_false_r in Hc. rewrite Hc. reflexivity.
Qed.

Lemma collapse_single_spaced :
  forall (s : text) (b : bool), single_spaced b (collapse b s) = true.
Proof.
  induction s as [|c s IH]; intros b; [reflexivity |].
  cbn [collapse]. destruct (is_space c) eqn:Es.
  - destruct b; [apply IH |]. cbn [single_spaced].
    change (Ascii.eqb " " space) with true. cbn [negb andb]. apply IH.
  - cbn [single_spaced]. destruct (Ascii.eqb c space) eqn:E.
    + rewrite (space_is_space _ E) in Es. discriminate.
    + apply IH.
Qed.

Lemma blank_special_kept (s : text) :
  forallb (fun c => is_mail c || is_space c) (map blank_special s) = true.
Proof.
  induction s as [|c s IH]; [reflexivity |]. cbn [map forallb].
  rewrite IH, andb_true_r. unfold blank_special.
  destruct (is_mail c || is_space c) eqn:E; [exact E | reflexivity].
Qed.

Lemma firstn_forallb {A : Type} (f : A -> bool) :
  forall (n : nat) (l : list A),
    forallb f l = true -> forallb f (firstn n l) = true.
Proof.
  induction n as [|n IH]; intros l H; [reflexivity |].
  destruct l as [|x l]; [reflexivity |]. simpl in *.
  apply andb_true_iff in H. destruct H as [Hx H].
  rewrite Hx, (IH _ H). reflexivity.
Qed.

Lemma firstn_single_spaced :
  forall (n : nat) (l : text) (b : bool),
    single_spaced b l = true -> single_spaced b (firstn n l) = true.
Proof.
  induction n as [|n IH]; intros l b H; [reflexivity |].
  destruct l as [|c l]; [reflexivity |]. cbn [firstn single_spaced] in *.
  destruct (Ascii.eqb c space).
  - apply andb_true_iff in H. destruct H as [Hb H].
    rewrite Hb, (IH _ _ H). reflexivity.
  - apply IH. exact H.
Qed.

(** X4: a sanitized query has at most 500 characters, consists of
    letters, digits, underscores, dots, hyphens and spaces only, and never
    has two spaces in a row; an absent or empty query gives the empty
    text. *)
Theorem sanitizeQuery_shape (query : option text) :
  List.length (sanitizeQuery query) <= 500
  /\ forallb plain (sanitizeQuery query) = true
  /\ single_spaced false (sanitizeQuery query) = true
  /\ (truthy query = false -> sanitizeQuery query = []).
Proof.
  destruct query as [[|c q] |]; try (repeat split; simpl; lia).
  unfold sanitizeQuery. split; [| split; [| split]].
  - rewrite length_firstn. lia.
  - apply firstn_forallb, collapse_plain, blank_special_kept.
  - apply firstn_single_spaced, collapse_single_spaced.
  - discriminate.
Qed.

Section Solr.

Variable formatDateForAPI : text -> option text.

Definition starred (c : text) : bool :=
match c with
| x :: _ => Ascii.eqb x "*"
| [] => true
end.

Lemma conditions_unstarred (f : filters) :
  forallb (fun c => negb (starred c)) (conditions formatDateForAPI f) = true.
Proof.
  unfold conditions.
  repeat rewrite forallb_app.
  destruct (truthy (organization f)); destruct (truthy (sector f));
    destruct (tags f) as [[|t ts] |];
    destruct (truthy (dateFrom f) || truthy (dateTo f)); reflexivity.
Qed.

Lemma join_head (sep c : text) (cs : list text) :
  starred c = false -> starred (join sep (c :: cs)) = false.
Proof.
  destruct c as [|x c]; [discriminate |]. intros H.
  destruct cs; exact H.
Qed.

(** Which filters constrain the query. *)
Definition constrains (f : filters) : bool :=
truthy (organization f) || truthy (sector f)
|| match tags f with
   | Some (_ :: _) => true
   | _ => false
   end
|| truthy (dateFrom f) || truthy (dateTo f).

Lemma conditions_nil (f : filters) :
  conditions formatDateForAPI f = [] <-> constrains f = false.
Proof.
  unfold conditions, constrains.
  destruct (truthy (organization f)); destruct (truthy (sector f));
    destruct (tags f) as [[|t ts] |];
    destruct (truthy (dateFrom f)); destruct (truthy (dateTo f));
    simpl; split; intros H; try reflexivity; try discriminate.
Qed.

(** X5: [buildSolrQuery] returns the match-all query ["*:*"] exactly
    when no non-empty organization, sector, tag list or date bound is
    set; the [format] filter never reaches the query.  [search] passes a
    filter expression to the catalog exactly in the other case. *)
Theorem buildSolrQuery_match_all (f : filters) :
  (buildSolrQuery formatDateForAPI f = match_all <-> constrains f = false)
  /\ (DiscoveryFacts.compiled_filter formatDateForAPI f = None
      <-> constrains f = false)
  /\ buildSolrQuery formatDateForAPI f
     = buildSolrQuery formatDateForAPI
         {| organization := organization f; sector := sector f;
            tags := tags f; format := None;
            dateFrom := dateFrom f; dateTo := dateTo f |}.
Proof.
  assert (Hq : buildSolrQuery formatDateForAPI f = match_all
               <-> constrains f = false).
  { rewrite <- conditions_nil. unfold buildSolrQuery.
    pose proof (conditions_unstarred f) as Hs.
    destruct (conditions formatDateForAPI f) as [|c cs].
    - split; reflexivity.
    - split; [| discriminate]. intros H.
      simpl in Hs. apply andb_true_iff in Hs. destruct Hs as [Hc _].
      apply negb_true_iff in Hc.
      pose proof (join_head (lit " AND ") c cs Hc) as Hj.
      rewrite H in Hj. discriminate. }
  split; [exact Hq | split; [| reflexivity]].
  unfold DiscoveryFacts.compiled_filter. cbv zeta.
  destruct (has_keys f) eqn:Hk.
  - destruct (text_eqb (buildSolrQuery formatDateForAPI f) match_all) eqn:E.
    + simpl. split; [intros _ | reflexivity]. apply Hq.
      unfold text_eqb in E.
      destruct (list_eq_dec ascii_dec (buildSolrQuery formatDateForAPI f)
                            match_all); [assumption | discriminate].
    + simpl. split; [discriminate |]. intros H. apply Hq in H.
      rewrite H in E. discriminate.
  - simpl. split; [intros _ | reflexivity].
    unfold has_keys, constrains in *.
    destruct (organization f), (sector f), (tags f), (format f),
      (dateFrom f), (dateTo f); simpl in *; try discriminate; reflexivity.
Qed.

End Solr.

End QueryFacts.

(** ** Facets *)

Module FacetFacts.

Import Discovery.
Local Open Scope Z_scope.

(** An item comes no later than the items it outnumbers or equals. *)
Definition no_less (a b : facet_item) : Prop := fi_count b <= fi_count a.

Definition counts (c : Z) (i : facet_item) : bool := fi_count i =? c.

Lemma insert_permutation (x : facet_item) (l : list facet_item) :
  Permutation (insert_by_count x l) (x :: l).
Proof.
  induction l as [|y l IH]; [reflexivity |]. cbn [insert_by_count].
  destruct (fi_count x <? fi_count y); [| reflexivity].
  rewrite IH. apply perm_swap.
Qed.

Lemma insert_descending (x : facet_item) (l : list facet_item) :
  StronglySorted no_less l -> StronglySorted no_less (insert_by_count x l).
Proof.
  induction 1 as [|y l Hl IH Hy]; cbn [insert_by_count].
  - constructor; constructor.
  - destruct (fi_count x <? fi_count y) eqn:E.
    + apply Z.ltb_lt in E. constructor; [exact IH |].
      apply (Permutation_Forall (Permutation_sym (insert_permutation x l))).
      constructor; [unfold no_less; lia | exact Hy].
    + apply Z.ltb_ge in E. constructor; [constructor; assumption |].
      constructor; [exact E |].
      eapply Forall_impl; [| exact Hy].
      unfold no_less. intros z Hz. lia.
Qed.

Lemma insert_keeps_ties (c : Z) (x : facet_item) (l : list facet_item) :
  filter (counts c) (insert_by_count x l) = filter (counts c) (x :: l).
Proof.
  induction l as [|y l IH]; [reflexivity |]. cbn [insert_by_count].
  destruct (fi_count x <? fi_count y) eqn:E; [| reflexivity].
  apply Z.ltb_lt in E. cbn [filter] in *. rewrite IH. unfold counts.
  destruct (fi_count x =? c) eqn:Ex; destruct (fi_count y =? c) eqn:Ey;
    try reflexivity.
  apply Z.eqb_eq in Ex, Ey. lia.
Qed.

Lemma sort_permutation (l : list facet_item) :
  Permutation (sort_by_count l) l.
Proof.
  induction l as [|x l IH]; [reflexivity |]. cbn [sort_by_count fold_right].
  rewrite insert_permutation. constructor. exact IH.
Qed.

Lemma sort_descending (l : list facet_item) :
  StronglySorted no_less (sort_by_count l).
Proof.
  induction l as [|x l IH]; [constructor |].
  cbn [sort_by_count fold_right]. apply insert_descending. exact IH.
Qed.

Lemma sort_keeps_ties (c : Z) (l : list facet_item) :
  filter (counts c) (sort_by_count l) = filter (counts c) l.
Proof.
  induction l as [|x l IH]; [reflexivity |].
  cbn [sort_by_count fold_right]. rewrite insert_keeps_ties.
  cbn [filter]. fold (sort_by_count l). rewrite IH. reflexivity.
Qed.

(** X6: the formatted items of a facet are the first twenty of its
    items in descending order of count, items of equal count staying in
    their original order: the result has twenty items, or as many as the
    facet has when those are fewer, and followed by the items left out it
    is a descending rearrangement of the input that keeps ties in input
    order.  A facet without items gives the empty list. *)
Theorem formatFacetItems_top (its : list facet_item) :
  let out := formatFacetItems (Some {| items := Some its |}) in
  List.length out = Nat.min 20 (List.length its)
  /\ (exists rest,
        Permutation (out ++ rest) its
        /\ StronglySorted no_less (out ++ rest)
        /\ forall c, filter (counts c) (out ++ rest) = filter (counts c) its)
  /\ formatFacetItems None = []
  /\ formatFacetItems (Some {| items := None |}) = [].
Proof.
  cbn [formatFacetItems items]. split; [| split; [| split; reflexivity]].
  - rewrite length_firstn.
    rewrite (Permutation_length (sort_permutation its)). reflexivity.
  - exists (skipn 20 (sort_by_count its)). rewrite firstn_skipn.
    split; [apply sort_permutation | split; [apply sort_descending |]].
    intros c. apply sort_keeps_ties.
Qed.

End FacetFacts.

(** ** Pagination *)

Module PaginationFacts.

Import Discovery.

(** The page requests of one search, with their bounds: each asks for
    between one and [batchSize] rows and for no more than [cap], and
    starts where the one before it stopped asking. *)
Inductive page_run (q : text) (fq : option text) (cap : nat)
  : nat -> list event -> Prop :=
| run_end : forall from, page_run q fq cap from []
| run_page : forall from rows evs,
    1 <= rows <= batchSize -> rows <= cap ->
    page_run q fq cap (from + rows) evs ->
    page_run q fq cap from
             (CallPackageSearch q (page_request fq rows from) :: evs).

(** X7: the loop of [search] asks the catalog for pages of between one
    and one hundred rows, never more rows than [maxResults], each page
    starting at the offset where the previous request ended; it makes at
    most one request per round of fuel, and none at all when the results
    held already reach [maxResults]. *)
Theorem pages_requests (c : client) (cfg : config) (q : text)
        (fq : option text) (maxResults fuel : nat) :
  forall (s : loop_state) (h : history),
  exists evs,
    snd (pages fuel c cfg q fq maxResults s h) = h ++ evs
    /\ page_run q fq maxResults (offset s) evs
    /\ List.length evs <= fuel
    /\ (maxResults <= List.length (acc s) -> evs = []).
Proof.
  induction fuel as [|fuel IH]; intros s h.
  - exists []. simpl. rewrite app_nil_r.
    repeat split; [constructor | lia].
  - cbn [pages]. destruct (List.length (acc s) <? maxResults) eqn:Hlt.
    2:{ exists []. simpl. rewrite app_nil_r.
        repeat split; [constructor | lia]. }
    apply Nat.ltb_lt in Hlt.
    set (rows := Nat.min batchSize (maxResults - List.length (acc s))).
    assert (Hrows : 1 <= rows <= batchSize /\ rows <= maxResults).
    { unfold rows, batchSize. lia. }
    clearbody rows. destruct Hrows as [Hrows Hcap].
    assert (Hone : forall o : outcome loop_state,
               exists evs,
                 snd (o, h ++ [CallPackageSearch q
                                 (page_request fq rows (offset s))])
                 = h ++ evs
                 /\ page_run q fq maxResults (offset s) evs
                 /\ List.length evs <= S fuel
                 /\ (maxResults <= List.length (acc s) -> evs = [])).
    { intros o. eexists. split; [reflexivity |].
      split; [apply run_page; [exact Hrows | exact Hcap | constructor] |].
      split; [simpl; lia | intros; lia]. }
    unfold bind, call_packageSearch.
    destruct (packageSearch c h q (page_request fq rows (offset s)))
      as [e | sr]; cbn [lift]; [apply Hone |].
    destruct (results sr) as [[|d page]|]; try apply Hone.
    match goal with
    | |- context [if ?b then _ else _] => destruct b
    end; [apply Hone |].
    match goal with
    | |- context [pages fuel c cfg q fq maxResults ?s' ?h'] =>
        destruct (IH s' h') as [evs [Hh [Hc [Hn _]]]]
    end.
    eexists. split; [rewrite Hh; rewrite <- app_assoc; reflexivity |].
    split; [apply run_page; [exact Hrows | exact Hcap | exact Hc] |].
    split; [simpl; lia | intros; lia].
Qed.

(** A catalog that never answers with more items than the rows asked
    for. *)
Definition respects_rows (c : client) : Prop :=
forall (h : history) (q : text) (o : search_options) (sr : search_result)
       (page : list dataset),
  packageSearch c h q o = inr sr -> results sr = Some page ->
  List.length page <= rows o.

Lemma pages_keep_relevant (c : client) (cfg : config) (q : text)
      (fq : option text) (maxResults fuel : nat) :
  forall (s s' : loop_state) (h h' : history),
    pages fuel c cfg q fq maxResults s h = (Done s', h') ->
    forallb (relevant cfg) (acc s) = true ->
    forallb (relevant cfg) (acc s') = true
    /\ (respects_rows c -> List.length (acc s) <= maxResults ->
        List.length (acc s') <= maxResults).
Proof.
  induction fuel as [|fuel IH]; intros s s' h h' H Hrel; [discriminate |].
  cbn [pages] in H. destruct (List.length (acc s) <? maxResults) eqn:Hlt.
  2:{ inversion H; subst. split; [exact Hrel | intros; assumption]. }
  apply Nat.ltb_lt in Hlt.
  unfold bind, call_packageSearch in H.
  set (rows := Nat.min batchSize (maxResults - List.length (acc s))) in *.
  assert (Hrows : rows <= maxResults - List.length (acc s))
    by (unfold rows; lia).
  clearbody rows.
  destruct (packageSearch c h q (page_request fq rows (offset s)))
    as [e | sr] eqn:Hcall; cbn [lift] in H; [discriminate |].
  destruct (results sr) as [[|d page]|] eqn:Hres.
  - inversion H; subst. cbn [acc]. split; [exact Hrel | intros; assumption].
  - assert (Hrel' : forallb (relevant cfg)
                            (acc s ++ filter (relevant cfg) (d :: page))
                    = true).
    { rewrite forallb_app, Hrel. cbn [andb].
      apply forallb_forall. intros x Hx. apply filter_In in Hx. apply Hx. }
    assert (Hfit : respects_rows c -> List.length (acc s) <= maxResults ->
                   List.length (acc s ++ filter (relevant cfg) (d :: page))
                   <= maxResults).
    { intros Hc _. rewrite length_app.
      pose proof (filter_length_le (relevant cfg) (d :: page)) as Hf.
      pose proof (Hc _ _ _ _ _ Hcall Hres) as Hp.
      cbn [Remote.rows page_request] in Hp.
      lia. }
    match type of H with
    | context [if ?b then _ else _] => destruct b
    end.
    + inversion H; subst. cbn [acc]. split; assumption.
    + destruct (IH _ _ _ _ H Hrel') as [Hr Hl]. split; [exact Hr |].
      intros Hc Hs. apply Hl; [exact Hc |]. cbn [acc]. apply Hfit; assumption.
  - inversion H; subst. cbn [acc]. split; [exact Hrel | intros; assumption].
Qed.

(** X8: when the loop of [search] ends, every item it has accumulated
    passed the relevance filter; and against a catalog that never answers
    with more items than the rows asked for, it has accumulated at most
    [maxResults] items. *)
Theorem pages_accumulate (c : client) (cfg : config) (q : text)
        (fq : option text) (maxResults fuel : nat)
        (s' : loop_state) (h h' : history) :
  pages fuel c cfg q fq maxResults
        {| acc := []; offset := 0; totalFound := 0 |} h = (Done s', h') ->
  forallb (relevant cfg) (acc s') = true
  /\ (respects_rows c -> List.length (acc s') <= maxResults).
Proof.
  intros H.
  destruct (pages_keep_relevant c cfg q fq maxResults fuel _ _ _ _ H eq_refl)
    as [Hr Hl].
  split; [exact Hr |]. intros Hc. apply Hl; [exact Hc | simpl; lia].
Qed.

(** A catalog of three items that serves the page asked for. *)
Definition paged_catalog : client :=
{| packageSearch := fun _ _ o =>
     inr {| count := Some 3;
            results :=
              Some (firstn (rows o)
                      (skipn (start o)
                         [DiscoveryFacts.item "a"; DiscoveryFacts.item "b";
                          DiscoveryFacts.item "c"]));
            facets := None |};
   packageShow := fun _ _ => inr None;
   downloadResource := fun _ _ _ => inl DiscoveryFacts.not_found |}.

Lemma paged_catalog_respects_rows : respects_rows paged_catalog.
Proof.
  intros h q o sr page H Hres. cbn in H. inversion H; subst sr.
  cbn in Hres. inversion Hres; subst page. rewrite length_firstn. lia.
Qed.

Lemma pages_accumulate_witness :
  forallb (relevant (make_config None))
          [DiscoveryFacts.item "a"; DiscoveryFacts.item "b"] = true
  /\ List.length [DiscoveryFacts.item "a"; DiscoveryFacts.item "b"] <= 2.
Proof.
  destruct (pages_accumulate paged_catalog (make_config None)
              (lit "rainfall") None 2 5
              {| acc := [DiscoveryFacts.item "a"; DiscoveryFacts.item "b"];
                 offset := 2; totalFound := 3 |}
              [] _ eq_refl) as [Hr Hl].
  split; [exact Hr | exact (Hl paged_catalog_respects_rows)].
Defined.

(** X9: an item without a score, or with a score of zero, counts as
    fully relevant: it passes the filter exactly when the threshold is at
    most one, and so always under the default configuration, where an
    absent threshold and a threshold of zero both stand for one half. *)
Theorem unscored_is_relevant (cfg : config) (d : dataset) :
  (ds_score d = None \/ ds_score d = Some 0%Q) ->
  relevant cfg d = Qle_bool (relevanceThreshold cfg) 1
  /\ relevant (make_config None) d = true
  /\ relevant (make_config (Some 0%Q)) d = true.
Proof.
  intros H. unfold relevant, score_of.
  destruct H as [-> | ->]; repeat split.
Qed.

Lemma unscored_is_relevant_witness :
  relevant (make_config None) (DiscoveryFacts.item "a")
  = Qle_bool (relevanceThreshold (make_config None)) 1
  /\ relevant (make_config None) (DiscoveryFacts.item "a") = true
  /\ relevant (make_config (Some 0%Q)) (DiscoveryFacts.item "a") = true.
Proof.
  apply (unscored_is_relevant (make_config None) (DiscoveryFacts.item "a")).
  left. reflexivity.
Defined.

End PaginationFacts.

(** ** Outcomes of the acquisition engine *)

Module AcquisitionOutcomes.

Import Acquisition.
Import AcquisitionFacts.
Local Open Scope Z_scope.

Definition is_download (e : event) : bool :=
  match e with
  | CallDownloadResource _ _ => true
  | _ => false
  end.

Definition is_show (e : event) : bool :=
  match e with
  | CallPackageShow _ => true
  | _ => false
  end.

Section Engine.

Variable parseInt : Z -> Z.
Variable formatBytes : Z -> text.
Variable preview : Type.
Variable parseResourceData : text -> text -> preview.

(** What the client answers to the download [acquireResource] asks
    for. *)
Definition answer (c : client) (cfg : config) (r : resource)
           (o : resource_options) (h : history) : js_error + text :=
  downloadResource c h (or_default (res_url r) [])
                   (if ro_maxFileSize o =? 0 then maxFileSize cfg
                    else ro_maxFileSize o).

(** X10: [acquireResource] always returns an outcome and never throws.
    The outcome is marked acquired exactly when the download is reached
    (the format is supported, the size is absent, zero or read by
    [parseInt] as within the limit, data is requested and there is a
    URL) and the client answered it; it then carries the decoded bytes.
    A download that fails is reported with the error's message and no
    reason, a download that is not reached with a reason, no error and
    no call made, and an outcome that is not acquired has no data.
    Whether the download is reached does not depend on the size limit
    passed with the call. *)
Theorem acquireResource_outcome (c : client) (cfg : config) (r : resource)
        (o : resource_options) (h : history) :
  exists out h',
    acquireResource parseInt formatBytes parseResourceData c cfg r o h
    = (Done out, h')
    /\ (acquired out = true <->
        will_download parseInt cfg r o = true
        /\ exists bytes, answer c cfg r o h = inr bytes)
    /\ (forall bytes,
           will_download parseInt cfg r o = true -> answer c cfg r o h = inr bytes ->
           data out = Some (parseResourceData bytes (declared_format r))
           /\ dataSize out
              = Some (formatBytes (Z.of_nat (List.length bytes))))
    /\ (forall e,
           will_download parseInt cfg r o = true -> answer c cfg r o h = inl e ->
           failure out = Some (message e) /\ reason out = None)
    /\ (will_download parseInt cfg r o = false ->
        reason out <> None /\ failure out = None /\ h' = h)
    /\ (acquired out = false -> data out = None /\ dataSize out = None)
    /\ (forall m,
           will_download parseInt cfg r o
           = will_download parseInt cfg r {| includeData := includeData o;
                                    ro_maxFileSize := m |}).
Proof.
  set (independent := forall m,
          will_download parseInt cfg r o
          = will_download parseInt cfg r {| includeData := includeData o;
                                   ro_maxFileSize := m |}).
  assert (Hind : independent) by (intros m; reflexivity).
  clearbody independent.
  unfold acquireResource, will_download, answer.
  destruct (existsb (text_eqb (declared_format r)) supportedFormats);
    cbn [negb andb].
  2:{ do 2 eexists. split; [reflexivity |]. cbn.
      repeat split; try exact Hind; intros; try discriminate.
      destruct H; discriminate. }
  destruct (oversized parseInt cfg r); cbn [negb andb].
  { do 2 eexists. split; [reflexivity |]. cbn.
    repeat split; try exact Hind; intros; try discriminate.
    destruct H; discriminate. }
  destruct (includeData o && truthy (res_url r))%bool.
  - unfold try_catch, bind, call_downloadResource.
    destruct (downloadResource c h (or_default (res_url r) [])
                (if ro_maxFileSize o =? 0 then maxFileSize cfg
                 else ro_maxFileSize o)) as [e | bytes];
      do 2 eexists; (split; [reflexivity |]); cbn.
    + repeat split; try exact Hind; intros; try discriminate.
      * destruct H as [_ [b Hb]]. discriminate.
      * inversion H0; reflexivity.
    + repeat split; try exact Hind; intros; try discriminate.
      * exists bytes. reflexivity.
      * inversion H0; reflexivity.
      * inversion H0; reflexivity.
  - do 2 eexists. split; [reflexivity |]. cbn.
    repeat split; try exact Hind; intros; try discriminate.
    destruct H; discriminate.
Qed.

Lemma calls_are_downloads (cfg : config) (o : resource_options)
      (l : list resource) :
  forallb is_download (flat_map (calls_of parseInt cfg o) l) = true.
Proof.
  induction l as [|r l IH]; [reflexivity |]. cbn [flat_map].
  rewrite forallb_app, IH. unfold calls_of.
  destruct (will_download parseInt cfg r o); reflexivity.
Qed.

(** What [acquireDataset] returns when the descriptor could not be
    had. *)
Definition failed (id : text) (e : js_error) : acquisition preview :=
  {| success := false;
     item := None;
     datasetId := Some id;
     error := Some (message e);
     resources := [];
     resourceCount := None |}.

(** The error [acquireDataset] catches when no descriptor comes back:
    the one the client threw, or its own for an empty answer. *)
Definition descriptor_error (c : client) (h : history) (id : text)
  : js_error :=
  match packageShow c h id with
  | inl e => e
  | inr _ =>
      {| message := Some (lit "Dataset " ++ id ++ lit " not found") |}
  end.

Lemma acquireDataset_log (c : client) (cfg : config) (id : text)
      (o : options) (h : history) :
  exists a evs,
    acquireDataset parseInt formatBytes parseResourceData c cfg id o h
    = (Done a, h ++ CallPackageShow id :: evs)
    /\ forallb is_download evs = true
    /\ (success a = true <-> exists d, packageShow c h id = inr (Some d))
    /\ (success a = false ->
        evs = [] /\ a = failed id (descriptor_error c h id)).
Proof.
  unfold descriptor_error.
  destruct (packageShow c h id) as [e | [d |]] eqn:Hshow.
  - exists (failed id e), [].
    unfold acquireDataset, try_catch, bind, call_packageShow.
    rewrite Hshow. cbn. repeat split; try discriminate.
    intros [d Hd]. discriminate.
  - destruct (@acquireDataset_run parseInt formatBytes preview
                parseResourceData c cfg id o h d Hshow)
      as [a [Hrun [Hs _]]].
    exists a. eexists. split; [exact Hrun |].
    split; [apply calls_are_downloads |].
    split; [split; [intros _; exists d; reflexivity | intros _; exact Hs] |].
    intros Hf. rewrite Hs in Hf. discriminate.
  - exists (failed id {| message := Some (lit "Dataset " ++ id
                                            ++ lit " not found") |}), [].
    unfold acquireDataset, try_catch, bind, call_packageShow.
    rewrite Hshow. cbn. split; [reflexivity |].
    repeat split; try discriminate.
    intros [d Hd]. discriminate.
Qed.

(** X11: [acquireDataset] always returns a result and never throws.
    It starts with one request for the descriptor; every call after it
    is a download.  The result reports success exactly when the client
    answered with a descriptor; otherwise no further call is made and the
    result carries the identifier asked for, no outcomes, and the message
    of the error: that of the error the client threw, or "Dataset <id>
    not found" when the client answered with nothing. *)
Theorem acquireDataset_total (c : client) (cfg : config) (id : text)
        (o : options) (h : history) :
  exists a evs,
    acquireDataset parseInt formatBytes parseResourceData c cfg id o h
    = (Done a, h ++ CallPackageShow id :: evs)
    /\ forallb is_download evs = true
    /\ (success a = true <-> exists d, packageShow c h id = inr (Some d))
    /\ (success a = false ->
        evs = []
        /\ datasetId a = Some id
        /\ resources a = []
        /\ item a = None
        /\ match packageShow c h id with
           | inl e => error a = Some (message e)
           | inr None =>
               error a
               = Some (Some (lit "Dataset " ++ id ++ lit " not found"))
           | inr (Some _) => False
           end).
Proof.
  destruct (acquireDataset_log c cfg id o h) as [a [evs [Hrun [Hd [Hs Hf]]]]].
  exists a, evs.
  split; [exact Hrun | split; [exact Hd | split; [exact Hs |]]].
  intros H. destruct (Hf H) as [He Ha].
  split; [exact He |]. rewrite Ha. cbn [datasetId resources item error failed].
  repeat split. unfold descriptor_error.
  destruct (packageShow c h id) as [e | [d |]] eqn:Hshow; try reflexivity.
  assert (Ht : success a = true) by (apply Hs; exists d; reflexivity).
  rewrite H in Ht. discriminate.
Qed.

(** X12: [batchAcquire] always returns, with exactly one result per
    identifier; it asks for the descriptors of the identifiers in the
    order given, each once, and makes no other calls than these and
    downloads.  A result that reports failure names the identifier at
    its position. *)
Theorem batchAcquire_one_per_id (c : client) (cfg : config) (o : options) :
  forall (ids : list text) (h : history),
  exists rs evs,
    batchAcquire parseInt formatBytes parseResourceData c cfg ids o h
    = (Done rs, h ++ evs)
    /\ List.length rs = List.length ids
    /\ filter is_show evs = map CallPackageShow ids
    /\ forallb is_download (filter (fun e => negb (is_show e)) evs) = true
    /\ Forall2 (fun id a => success a = false -> datasetId a = Some id)
               ids rs.
Proof.
  induction ids as [|id ids IH]; intros h.
  - exists [], []. cbn. rewrite app_nil_r. repeat split. constructor.
  - destruct (acquireDataset_log c cfg id o h)
      as [a [evs [Hrun [Hd [_ Hf]]]]].
    destruct (IH (h ++ CallPackageShow id :: evs))
      as [rs [evs' [Hrest [Hlen [Hshows [Hdown Hids]]]]]].
    exists (a :: rs), (CallPackageShow id :: evs ++ evs').
    cbn [batchAcquire]. unfold bind, try_catch. rewrite Hrun.
    fold (batchAcquire parseInt formatBytes parseResourceData).
    unfold bind in Hrest. rewrite Hrest.
    assert (Hnone : filter is_show evs = []).
    { clear - Hd. induction evs as [|e evs IHe]; [reflexivity |].
      cbn in Hd. apply andb_prop in Hd. destruct Hd as [He Hd].
      destruct e; try discriminate. cbn. apply IHe. exact Hd. }
    assert (Hall : filter (fun e => negb (is_show e)) evs = evs).
    { clear - Hd. induction evs as [|e evs IHe]; [reflexivity |].
      cbn in Hd. apply andb_prop in Hd. destruct Hd as [He Hd].
      destruct e; try discriminate. cbn. rewrite IHe by exact Hd.
      reflexivity. }
    split; [rewrite <- app_assoc; reflexivity |].
    split; [cbn; rewrite Hlen; reflexivity |].
    split; [cbn; rewrite filter_app, Hnone, Hshows; reflexivity |].
    split.
    + cbn. rewrite filter_app, Hall, forallb_app, Hd, Hdown. reflexivity.
    + constructor; [| exact Hids].
      intros Hfail. destruct (Hf Hfail) as [_ ->]. reflexivity.
Qed.

End Engine.

End AcquisitionOutcomes.

(** ** Verdicts and the state of the governance layer *)

Module GovernanceInvariants.

Import Governance.

Lemma find_none_existsb {A : Type} (f : A -> bool) (l : list A) :
  find f l = None <-> existsb f l = false.
Proof.
  induction l as [|x l IH]; cbn; [tauto |].
  destruct (f x); cbn; [split; discriminate | exact IH].
Qed.

Definition mentions_restriction (d : dataset) : bool :=
  existsb (fun keyword => includes (datasetText d) keyword)
          restrictedKeywords.

Lemma restriction_verdict (st : state) (d : dataset) :
  r_allowed (fst (checkRestrictions st d)) = negb (mentions_restriction d)
  /\ (mentions_restriction d = true ->
      exists k, In k restrictedKeywords
                /\ includes (datasetText d) k = true
                /\ r_reason (fst (checkRestrictions st d)) = blocked_reason k).
Proof.
  unfold checkRestrictions, mentions_restriction.
  destruct (foundRestriction d) as [k |] eqn:E.
  - destruct (GovernanceFacts.found_is_listed d E) as [Hin Hinc].
    assert (Hex : existsb (fun keyword => includes (datasetText d) keyword)
                          restrictedKeywords = true).
    { apply existsb_exists. exists k. split; assumption. }
    rewrite Hex.
    destruct (GovernanceFacts.found_is_nonempty d E) as [c [k' ->]].
    cbn. split; [reflexivity |]. intros _. eexists.
    split; [exact Hin | split; [exact Hinc | reflexivity]].
  - apply find_none_existsb in E. unfold foundRestriction in E.
    rewrite E. cbn. split; [reflexivity | discriminate].
Qed.

(** The state after the restriction check. *)
Lemma restriction_state (st : state) (d : dataset) :
  snd (checkRestrictions st d)
  = {| auditLog := auditLog st;
       blockedDatasets :=
         if r_allowed (fst (checkRestrictions st d))
         then blockedDatasets st
         else set_add (dataset_key d) (blockedDatasets st);
       licenseWarnings := licenseWarnings st |}.
Proof.
  unfold checkRestrictions.
  destruct (foundRestriction d) as [[|c k] |]; cbn; destruct st; reflexivity.
Qed.

Lemma restriction_result_fixed (st st' : state) (d : dataset) :
  fst (checkRestrictions st d) = fst (checkRestrictions st' d).
Proof.
  unfold checkRestrictions.
  destruct (foundRestriction d) as [[|c k] |]; reflexivity.
Qed.

Lemma license_state (st : state) (d : dataset) :
  snd (checkLicense st d)
  = {| auditLog := auditLog st;
       blockedDatasets := blockedDatasets st;
       licenseWarnings :=
         if restrictive (fst (checkLicense st d))
         then set_add (dataset_key d) (licenseWarnings st)
         else licenseWarnings st |}.
Proof.
  unfold checkLicense, note_license_warning.
  repeat match goal with
         | |- context [if ?b then (_, _) else _] => destruct b
         end; cbn; destruct st; reflexivity.
Qed.

Lemma license_result_fixed (st st' : state) (d : dataset) :
  fst (checkLicense st d) = fst (checkLicense st' d).
Proof.
  unfold checkLicense.
  repeat match goal with
         | |- context [if ?b then (_, _) else _] => destruct b
         end; reflexivity.
Qed.

Lemma license_warning_present (st : state) (d : dataset) :
  restrictive (fst (checkLicense st d)) = true ->
  exists w, warning (fst (checkLicense st d)) = Some w.
Proof.
  unfold checkLicense.
  repeat match goal with
         | |- context [if ?b then (_, _) else _] => destruct b
         end; cbn; intros H; try discriminate; eexists; reflexivity.
Qed.

(** The verdict in closed form: it is decided by the two checks, each
    read off a fresh layer. *)
Definition verdict_of (cfg : config) (d : dataset) : verdict :=
  let rc := fst (checkRestrictions initial_state d) in
  let lc := fst (checkLicense initial_state d) in
  let v1 := if blockRestrictedData cfg && negb (r_allowed rc)
            then block fresh_verdict (r_reason rc) else fresh_verdict in
  if respectLicenses cfg && restrictive lc
  then warn_license v1 (warning lc) else v1.

Lemma validateDatasetAccess_verdict_of (cfg : config) (now : text)
      (st : state) (d : dataset) :
  fst (validateDatasetAccess cfg now st d) = verdict_of cfg d.
Proof.
  unfold validateDatasetAccess, verdict_of.
  rewrite (restriction_result_fixed initial_state st d).
  destruct (checkRestrictions st d) as [rc st1]. cbn [fst].
  remember (fst (checkLicense initial_state d)) as lc eqn:Hlc.
  destruct (blockRestrictedData cfg), (respectLicenses cfg);
    cbn beta iota; cbn [andb fst];
    destruct (r_allowed rc); cbn [negb]; cbn beta iota;
    try match goal with
        | |- context [checkLicense ?s d] =>
            pose proof (license_result_fixed initial_state s d) as Hs;
            rewrite <- Hlc in Hs;
            destruct (checkLicense s d) as [lc1 s1]; cbn [fst] in Hs;
            rewrite <- Hs
        end;
    try destruct (restrictive lc); reflexivity.
Qed.

Lemma verdict_blocked_iff (cfg : config) (d : dataset) :
  allowed (verdict_of cfg d) = false <->
  blockRestrictedData cfg = true /\ mentions_restriction d = true.
Proof.
  unfold verdict_of.
  destruct (restriction_verdict initial_state d) as [Hra _].
  rewrite Hra, Bool.negb_involutive.
  destruct (blockRestrictedData cfg); cbn [andb];
    destruct (mentions_restriction d); cbn [andb];
    destruct (respectLicenses cfg); cbn [andb];
    destruct (restrictive (fst (checkLicense initial_state d)));
    cbn; split; intros H; try reflexivity; try discriminate;
    try (split; reflexivity); destruct H; discriminate.
Qed.

(** X13: the verdict of [validateDatasetAccess].  Access is refused
    exactly when restriction blocking is on and the scanned text contains
    one of the restriction keywords, and then the only error names such a
    keyword.  The verdict is allowed exactly when it has no errors, its
    restriction flag equals its decision, its license flag is set exactly
    when it has no warnings, it has at most one warning and none when the
    license check is off, and its PII flag is always set.  The verdict
    depends neither on the clock nor on the state of the layer. *)
Theorem validateDatasetAccess_verdict (cfg : config) (now : text)
        (st : state) (d : dataset) :
  let v := fst (validateDatasetAccess cfg now st d) in
  (allowed v = false <->
   blockRestrictedData cfg = true /\ mentions_restriction d = true)
  /\ (allowed v = true <-> errors v = [])
  /\ (allowed v = false ->
      exists k, In k restrictedKeywords
                /\ includes (datasetText d) k = true
                /\ errors v = [blocked_reason k])
  /\ restrictionCheck (checks v) = allowed v
  /\ piiCheck (checks v) = true
  /\ (licenseCheck (checks v) = true <-> warnings v = [])
  /\ List.length (warnings v) <= 1
  /\ (respectLicenses cfg = false -> warnings v = [])
  /\ forall now' st', fst (validateDatasetAccess cfg now' st' d) = v.
Proof.
  intros v. subst v. rewrite validateDatasetAccess_verdict_of.
  set (fixed := forall now' st',
          fst (validateDatasetAccess cfg now' st' d) = verdict_of cfg d).
  assert (Hfixed : fixed)
    by (intros now' st'; apply validateDatasetAccess_verdict_of).
  clearbody fixed. unfold verdict_of.
  destruct (restriction_verdict initial_state d) as [Hra Hrk].
  rewrite Hra, Bool.negb_involutive.
  destruct (blockRestrictedData cfg); cbn [andb];
    destruct (mentions_restriction d); cbn [andb];
    destruct (respectLicenses cfg); cbn [andb];
    destruct (restrictive (fst (checkLicense initial_state d)));
    cbn;
    repeat match goal with
           | |- _ /\ _ => split
           | |- _ <-> _ => split
           end;
    try exact Hfixed;
    intros; try reflexivity; try discriminate; try lia;
    try (destruct H; discriminate);
    try (destruct (Hrk eq_refl) as [k [Hin [Hinc Hr]]];
         exists k; rewrite Hr; repeat split; assumption);
    try (destruct (errors _); discriminate);
    try (destruct (warnings _); discriminate).
Qed.

(** *** The state *)

Lemma set_add_In (k : option text) (s : list (option text)) :
  In k (set_add k s).
Proof.
  induction s as [|x s IH]; cbn; [left; reflexivity |].
  destruct (key_eq_dec k x) as [-> | N]; [left; reflexivity |].
  right. exact IH.
Qed.

Lemma set_add_keeps (k x : option text) (s : list (option text)) :
  In x s -> In x (set_add k s).
Proof.
  induction s as [|y s IH]; cbn; [contradiction |].
  destruct (key_eq_dec k y); [trivial |].
  intros [-> | H]; [left; reflexivity | right; apply IH; exact H].
Qed.

Lemma set_add_only (k x : option text) (s : list (option text)) :
  In x (set_add k s) -> x = k \/ In x s.
Proof.
  induction s as [|y s IH]; cbn.
  - intros [<- | []]. left. reflexivity.
  - destruct (key_eq_dec k y); [intros H; right; exact H |].
    intros [<- | H]; [right; left; reflexivity |].
    destruct (IH H) as [-> | Hs]; [left; reflexivity | right; right; exact Hs].
Qed.

Lemma set_add_NoDup (k : option text) (s : list (option text)) :
  NoDup s -> NoDup (set_add k s).
Proof.
  induction 1 as [|y s Hy Hs IH]; cbn.
  - constructor; [intros [] | constructor].
  - destruct (key_eq_dec k y) as [-> | N]; [constructor; assumption |].
    constructor; [| exact IH].
    intros Hin. apply set_add_only in Hin. destruct Hin as [-> | Hin];
      [apply N; reflexivity | apply Hy; exact Hin].
Qed.

Lemma set_add_present (k : option text) (s : list (option text)) :
  In k s -> set_add k s = s.
Proof.
  induction s as [|y s IH]; cbn; [contradiction |].
  destruct (key_eq_dec k y) as [-> | N]; [reflexivity |].
  intros [-> | H]; [contradiction N; reflexivity |].
  rewrite IH by exact H. reflexivity.
Qed.

(** The entry [logAccess] writes. *)
Definition entry_of (now : text) (d : dataset) (v : verdict) : audit_entry :=
  {| timestamp := now;
     datasetId := dataset_key d;
     datasetTitle := ds_title d;
     action := lit "ACCESS_ATTEMPT";
     logged := v |}.

Lemma logAccess_log (cfg : config) (now : text) (st : state) (d : dataset)
      (v : verdict) :
  enableAuditLog cfg = true ->
  auditLog (logAccess cfg now st d v)
  = (if List.length (auditLog st) <? max_audit_entries then auditLog st
     else tl (auditLog st)) ++ [entry_of now d v]
  /\ blockedDatasets (logAccess cfg now st d v) = blockedDatasets st
  /\ licenseWarnings (logAccess cfg now st d v) = licenseWarnings st.
Proof.
  intros Hon. unfold logAccess. rewrite Hon. cbn [negb auditLog].
  fold (entry_of now d v). rewrite length_app. cbn [List.length].
  split; [| split; reflexivity].
  destruct (List.length (auditLog st) <? max_audit_entries) eqn:E.
  - apply Nat.ltb_lt in E.
    destruct (max_audit_entries <? List.length (auditLog st) + 1) eqn:F;
      [apply Nat.ltb_lt in F; lia | reflexivity].
  - apply Nat.ltb_ge in E.
    destruct (max_audit_entries <? List.length (auditLog st) + 1) eqn:F;
      [| apply Nat.ltb_ge in F; lia].
    destruct (auditLog st) as [|e l]; [cbn in E; unfold max_audit_entries in E; lia |].
    reflexivity.
Qed.

Lemma logAccess_off (cfg : config) (now : text) (st : state) (d : dataset)
      (v : verdict) :
  enableAuditLog cfg = false -> logAccess cfg now st d v = st.
Proof. intros Hoff. unfold logAccess. rewrite Hoff. reflexivity. Qed.

Lemma logAccess_length (cfg : config) (now : text) (st : state)
      (d : dataset) (v : verdict) :
  List.length (auditLog (logAccess cfg now st d v))
  <= Nat.max max_audit_entries (List.length (auditLog st))
  /\ List.length (auditLog (logAccess cfg now st d v))
     <= S (List.length (auditLog st)).
Proof.
  destruct (enableAuditLog cfg) eqn:Hon.
  - destruct (logAccess_log cfg now st d v Hon) as [-> _].
    rewrite length_app. cbn [List.length].
    destruct (List.length (auditLog st) <? max_audit_entries) eqn:E.
    + apply Nat.ltb_lt in E. lia.
    + unfold max_audit_entries.
      destruct (auditLog st) as [|e l]; cbn [tl List.length]; lia.
  - rewrite (logAccess_off cfg now st d v Hon). lia.
Qed.

(** The state [validateDatasetAccess] leaves, step by step. *)
Definition after_checks (cfg : config) (st : state) (d : dataset) : state :=
  let st1 := if blockRestrictedData cfg then snd (checkRestrictions st d)
             else st in
  if respectLicenses cfg then snd (checkLicense st1 d) else st1.

Lemma validateDatasetAccess_state_of (cfg : config) (now : text)
      (st : state) (d : dataset) :
  snd (validateDatasetAccess cfg now st d)
  = if enableAuditLog cfg
    then logAccess cfg now (after_checks cfg st d) d (verdict_of cfg d)
    else after_checks cfg st d.
Proof.
  rewrite <- (validateDatasetAccess_verdict_of cfg now st d).
  unfold validateDatasetAccess, after_checks.
  destruct (checkRestrictions st d) as [rc st1]. cbn [snd].
  destruct (blockRestrictedData cfg), (respectLicenses cfg);
    cbn beta iota; cbn [snd];
    destruct (r_allowed rc); cbn [negb]; cbn beta iota;
    try match goal with
        | |- context [checkLicense ?s d] =>
            destruct (checkLicense s d) as [lc1 s1];
            destruct (restrictive lc1)
        end;
    reflexivity.
Qed.

Lemma after_checks_fields (cfg : config) (st : state) (d : dataset) :
  auditLog (after_checks cfg st d) = auditLog st
  /\ blockedDatasets (after_checks cfg st d)
     = (if blockRestrictedData cfg && mentions_restriction d
        then set_add (dataset_key d) (blockedDatasets st)
        else blockedDatasets st)
  /\ licenseWarnings (after_checks cfg st d)
     = (if respectLicenses cfg
           && restrictive (fst (checkLicense initial_state d))
        then set_add (dataset_key d) (licenseWarnings st)
        else licenseWarnings st).
Proof.
  unfold after_checks.
  destruct (restriction_verdict st d) as [Hra _].
  remember (mentions_restriction d) as m eqn:Hm.
  remember (restrictive (fst (checkLicense initial_state d))) as rl eqn:Hrl.
  destruct (blockRestrictedData cfg); cbn [andb];
    destruct (respectLicenses cfg); cbn [andb];
    rewrite ?license_state, ?restriction_state;
    cbn [auditLog blockedDatasets licenseWarnings];
    rewrite ?Hra;
    try rewrite (license_result_fixed _ initial_state d), <- Hrl;
    destruct m; cbn [negb]; repeat split.
Qed.

(** X14: the state [validateDatasetAccess] leaves behind.  With the
    audit log on, the log ends with the entry of this call, which records
    the key, the title and the verdict, after the entries held before,
    less the oldest one when a thousand were held; with the audit log off
    the log is unchanged.  A refused item has its key among the blocked
    ones, an allowed item leaves the blocked set as it was, an item with
    a warning has its key among the license warnings, and no key is ever
    removed from either set. *)
Theorem validateDatasetAccess_state (cfg : config) (now : text)
        (st : state) (d : dataset) :
  let v := fst (validateDatasetAccess cfg now st d) in
  let st' := snd (validateDatasetAccess cfg now st d) in
  (enableAuditLog cfg = true ->
   auditLog st'
   = (if List.length (auditLog st) <? 1000 then auditLog st
      else tl (auditLog st)) ++ [entry_of now d v])
  /\ (enableAuditLog cfg = false -> auditLog st' = auditLog st)
  /\ List.length (auditLog st') <= Nat.max 1000 (List.length (auditLog st))
  /\ (allowed v = false -> In (dataset_key d) (blockedDatasets st'))
  /\ (allowed v = true -> blockedDatasets st' = blockedDatasets st)
  /\ (warnings v <> [] -> In (dataset_key d) (licenseWarnings st'))
  /\ (warnings v = [] -> licenseWarnings st' = licenseWarnings st)
  /\ (forall k, In k (blockedDatasets st) -> In k (blockedDatasets st'))
  /\ (forall k, In k (licenseWarnings st) -> In k (licenseWarnings st')).
Proof.
  intros v st'.
  assert (Hv : v = verdict_of cfg d)
    by apply validateDatasetAccess_verdict_of.
  pose proof (verdict_blocked_iff cfg d) as Hblock.
  rewrite <- Hv in Hblock.
  assert (Hst : st' = if enableAuditLog cfg
                      then logAccess cfg now (after_checks cfg st d) d v
                      else after_checks cfg st d).
  { subst st'. rewrite Hv. apply validateDatasetAccess_state_of. }
  destruct (after_checks_fields cfg st d) as [Hlog [Hb Hw]].
  assert (Hfields :
            blockedDatasets st' = blockedDatasets (after_checks cfg st d)
            /\ licenseWarnings st' = licenseWarnings (after_checks cfg st d)).
  { rewrite Hst. destruct (enableAuditLog cfg) eqn:Hon;
      [| split; reflexivity].
    destruct (logAccess_log cfg now (after_checks cfg st d) d v Hon)
      as [_ [H1 H2]]. split; assumption. }
  destruct Hfields as [Hb' Hw'].
  assert (Hwarn : warnings v
                  = if respectLicenses cfg
                       && restrictive (fst (checkLicense initial_state d))
                    then [interpolate
                            (warning (fst (checkLicense initial_state d)))]
                    else []).
  { rewrite Hv. unfold verdict_of.
    destruct (blockRestrictedData cfg
              && negb (r_allowed (fst (checkRestrictions initial_state d))));
      destruct (respectLicenses cfg
                && restrictive (fst (checkLicense initial_state d)));
      reflexivity. }
  split; [| split; [| split; [| split; [| split; [| split;
    [| split; [| split]]]]]]].
  - intros Hon. rewrite Hst, Hon.
    destruct (logAccess_log cfg now (after_checks cfg st d) d v Hon)
      as [-> _]. rewrite Hlog. reflexivity.
  - intros Hoff. rewrite Hst, Hoff. exact Hlog.
  - rewrite Hst. destruct (enableAuditLog cfg).
    + pose proof (logAccess_length cfg now (after_checks cfg st d) d v)
        as [H _]. rewrite Hlog in H. exact H.
    + rewrite Hlog. lia.
  - intros Hf. apply Hblock in Hf. destruct Hf as [H1 H2].
    rewrite Hb', Hb, H1, H2. apply set_add_In.
  - intros Ht. rewrite Hb', Hb.
    destruct (blockRestrictedData cfg && mentions_restriction d) eqn:E;
      [| reflexivity].
    apply andb_prop in E. apply Hblock in E. rewrite E in Ht. discriminate.
  - intros Hne. rewrite Hw', Hw. rewrite Hwarn in Hne.
    destruct (respectLicenses cfg
              && restrictive (fst (checkLicense initial_state d)));
      [apply set_add_In | contradiction Hne; reflexivity].
  - intros He. rewrite Hw', Hw. rewrite Hwarn in He.
    destruct (respectLicenses cfg
              && restrictive (fst (checkLicense initial_state d)));
      [discriminate | reflexivity].
  - intros k Hk. rewrite Hb', Hb.
    destruct (blockRestrictedData cfg && mentions_restriction d);
      [apply set_add_keeps |]; exact Hk.
  - intros k Hk. rewrite Hw', Hw.
    destruct (respectLicenses cfg
              && restrictive (fst (checkLicense initial_state d)));
      [apply set_add_keeps |]; exact Hk.
Qed.

(** [reset] *)
Definition reset (st : state) : state := initial_state.

(** The states a layer goes through under calls of its methods. *)
Inductive reachable (cfg : config) : state -> Prop :=
| reach_new : reachable cfg initial_state
| reach_validate : forall st now d,
    reachable cfg st ->
    reachable cfg (snd (validateDatasetAccess cfg now st d))
| reach_restrictions : forall st d,
    reachable cfg st -> reachable cfg (snd (checkRestrictions st d))
| reach_license : forall st d,
    reachable cfg st -> reachable cfg (snd (checkLicense st d))
| reach_log : forall st now d v,
    reachable cfg st -> reachable cfg (logAccess cfg now st d v)
| reach_reset : forall st,
    reachable cfg st -> reachable cfg (reset st).

(** X15: whatever sequence of [validateDatasetAccess],
    [checkRestrictions], [checkLicense], [logAccess] and [reset] a layer
    has gone through since it was made, its audit log holds at most a
    thousand entries and none when the audit log is off, and neither the
    blocked set nor the license-warning set holds a key twice. *)
Theorem reachable_invariants (cfg : config) (st : state) :
  reachable cfg st ->
  List.length (auditLog st) <= 1000
  /\ (enableAuditLog cfg = false -> auditLog st = [])
  /\ NoDup (blockedDatasets st)
  /\ NoDup (licenseWarnings st).
Proof.
  assert (Hr : forall s d,
             List.length (auditLog s) <= 1000
             /\ (enableAuditLog cfg = false -> auditLog s = [])
             /\ NoDup (blockedDatasets s)
             /\ NoDup (licenseWarnings s) ->
             List.length (auditLog (snd (checkRestrictions s d))) <= 1000
             /\ (enableAuditLog cfg = false ->
                 auditLog (snd (checkRestrictions s d)) = [])
             /\ NoDup (blockedDatasets (snd (checkRestrictions s d)))
             /\ NoDup (licenseWarnings (snd (checkRestrictions s d)))).
  { intros s d [H1 [H2 [H3 H4]]]. rewrite restriction_state. cbn.
    repeat split; try assumption.
    destruct (r_allowed (fst (checkRestrictions s d)));
      [exact H3 | apply set_add_NoDup; exact H3]. }
  assert (Hl : forall s d,
             List.length (auditLog s) <= 1000
             /\ (enableAuditLog cfg = false -> auditLog s = [])
             /\ NoDup (blockedDatasets s)
             /\ NoDup (licenseWarnings s) ->
             List.length (auditLog (snd (checkLicense s d))) <= 1000
             /\ (enableAuditLog cfg = false ->
                 auditLog (snd (checkLicense s d)) = [])
             /\ NoDup (blockedDatasets (snd (checkLicense s d)))
             /\ NoDup (licenseWarnings (snd (checkLicense s d)))).
  { intros s d [H1 [H2 [H3 H4]]]. rewrite license_state. cbn.
    repeat split; try assumption.
    destruct (restrictive (fst (checkLicense s d)));
      [apply set_add_NoDup; exact H4 | exact H4]. }
  assert (Hg : forall s now d v,
             List.length (auditLog s) <= 1000
             /\ (enableAuditLog cfg = false -> auditLog s = [])
             /\ NoDup (blockedDatasets s)
             /\ NoDup (licenseWarnings s) ->
             List.length (auditLog (logAccess cfg now s d v)) <= 1000
             /\ (enableAuditLog cfg = false ->
                 auditLog (logAccess cfg now s d v) = [])
             /\ NoDup (blockedDatasets (logAccess cfg now s d v))
             /\ NoDup (licenseWarnings (logAccess cfg now s d v))).
  { intros s now d v [H1 [H2 [H3 H4]]].
    pose proof (logAccess_length cfg now s d v) as [Hlen _].
    unfold max_audit_entries in Hlen.
    destruct (enableAuditLog cfg) eqn:Hon.
    - destruct (logAccess_log cfg now s d v Hon) as [_ [-> ->]].
      repeat split; try assumption; [lia | discriminate].
    - rewrite (logAccess_off cfg now s d v Hon).
      repeat split; assumption. }
  induction 1 as [| st now d _ IH | st d _ IH | st d _ IH
                  | st now d v _ IH | st _ IH].
  - cbn. repeat split; try constructor. lia.
  - rewrite validateDatasetAccess_state_of.
    assert (Ha : List.length (auditLog (after_checks cfg st d)) <= 1000
                 /\ (enableAuditLog cfg = false ->
                     auditLog (after_checks cfg st d) = [])
                 /\ NoDup (blockedDatasets (after_checks cfg st d))
                 /\ NoDup (licenseWarnings (after_checks cfg st d))).
    { unfold after_checks.
      destruct (blockRestrictedData cfg); destruct (respectLicenses cfg);
        auto. }
    pose proof (Hg (after_checks cfg st d) now d (verdict_of cfg d) Ha)
      as Hlogged.
    destruct (enableAuditLog cfg); [exact Hlogged | exact Ha].
  - apply Hr. exact IH.
  - apply Hl. exact IH.
  - apply Hg. exact IH.
  - cbn. repeat split; try constructor. lia.
Qed.

Lemma reachable_invariants_witness :
  List.length
    (auditLog (snd (validateDatasetAccess GovernanceFacts.all_enabled
                      (lit "t0") initial_state
                      GovernanceFacts.confidential_survey))) <= 1000
  /\ (enableAuditLog GovernanceFacts.all_enabled = false ->
      auditLog (snd (validateDatasetAccess GovernanceFacts.all_enabled
                       (lit "t0") initial_state
                       GovernanceFacts.confidential_survey)) = [])
  /\ NoDup (blockedDatasets
              (snd (validateDatasetAccess GovernanceFacts.all_enabled
                      (lit "t0") initial_state
                      GovernanceFacts.confidential_survey)))
  /\ NoDup (licenseWarnings
              (snd (validateDatasetAccess GovernanceFacts.all_enabled
                      (lit "t0") initial_state
                      GovernanceFacts.confidential_survey))).
Proof.
  apply (reachable_invariants GovernanceFacts.all_enabled).
  apply reach_validate. apply reach_new.
Defined.

End GovernanceInvariants.

(** ** Download checks *)

Module DownloadFacts.

Import Governance.
Local Open Scope Z_scope.

Section WithParser.

Variable parseURL : text -> text + (text * text * text).
Variable parseInt : Z -> Z.
Variable numberToString : Z -> text.

Lemma text_eqb_eq (a b : text) : text_eqb a b = true <-> a = b.
Proof.
  unfold text_eqb. destruct (list_eq_dec ascii_dec a b);
    split; congruence.
Qed.

(** X16: [validateURL] finds a URL safe exactly when it parses, its
    protocol is [http:] or [https:], and its host name contains none of
    the four internal host names as a substring; it gives a reason
    exactly when it finds the URL unsafe.  So a host name that merely
    contains one of the four names, with anything before and after it, is
    refused. *)
Theorem validateURL_safe (url : text) :
  (safe (validateURL parseURL url) = true <->
   exists protocol hostname href,
     parseURL url = inr (protocol, hostname, href)
     /\ (protocol = lit "http:" \/ protocol = lit "https:")
     /\ forall host, In host suspiciousHosts ->
                     includes hostname host = false)
  /\ (safe (validateURL parseURL url) = true <->
      url_reason (validateURL parseURL url) = None)
  /\ (forall protocol before host after href,
         parseURL url = inr (protocol, before ++ host ++ after, href) ->
         In host suspiciousHosts ->
         safe (validateURL parseURL url) = false).
Proof.
  unfold validateURL.
  destruct (parseURL url) as [msg | [[p h] href]].
  - cbn. split; [| split].
    + split; [discriminate | intros [? [? [? [H _]]]]; discriminate].
    + split; discriminate.
    + reflexivity.
  - destruct (existsb (text_eqb p) allowedProtocols) eqn:Ep; cbn [negb].
    + assert (Hp : p = lit "http:" \/ p = lit "https:").
      { apply existsb_exists in Ep. destruct Ep as [x [Hin Hx]].
        apply text_eqb_eq in Hx. subst x. cbn in Hin.
        destruct Hin as [<- | [<- | []]]; [left | right]; reflexivity. }
      destruct (existsb (fun host => includes h host) suspiciousHosts)
        eqn:Eh; cbn.
      * split; [| split].
        -- split; [discriminate |].
           intros [p' [h' [href' [H [_ Hclean]]]]]. inversion H; subst.
           apply existsb_exists in Eh. destruct Eh as [x [Hin Hx]].
           rewrite (Hclean x Hin) in Hx. discriminate.
        -- split; discriminate.
        -- reflexivity.
      * split; [| split].
        -- split; [| reflexivity]. intros _. exists p, h, href.
           split; [reflexivity | split; [exact Hp |]].
           intros host Hin.
           destruct (includes h host) eqn:Ei; [| reflexivity].
           assert (Hex : existsb (fun host => includes h host)
                                 suspiciousHosts = true)
             by (apply existsb_exists; exists host; split; assumption).
           rewrite Hex in Eh. discriminate.
        -- split; reflexivity.
        -- intros p' before host after href' H Hin. inversion H; subst.
           assert (Hex : existsb
                           (fun x => includes (before ++ host ++ after) x)
                           suspiciousHosts = true).
           { apply existsb_exists. exists host.
             split; [exact Hin | apply TextFacts.includes_app]. }
           rewrite Hex in Eh. discriminate.
    + cbn. split; [| split].
      * split; [discriminate |].
        intros [p' [h' [href' [H [Hp _]]]]]. inversion H; subst.
        destruct Hp as [-> | ->]; vm_compute in Ep; discriminate.
      * split; discriminate.
      * reflexivity.
Qed.

(** X17: [validateResourceDownload] refuses a download exactly when
    the attachment has a URL that [validateURL] finds unsafe, and refuses
    exactly when it reports an error.  The declared size never decides:
    it adds at most one warning, present exactly when the size is not
    zero and what [parseInt] reads off it is above five hundred
    mebibytes; the warning prints the size as the template literal
    does.  An attachment without a URL is always allowed. *)
Theorem validateResourceDownload_decision (r : resource) :
  let v := validateResourceDownload parseURL parseInt numberToString r in
  (dl_allowed v = false <->
   truthy (res_url r) = true
   /\ safe (validateURL parseURL (or_default (res_url r) [])) = false)
  /\ (dl_allowed v = true <-> dl_errors v = [])
  /\ (dl_warnings v <> [] <->
      exists n, res_size r = Some n /\ n <> 0
                /\ 500 * 1024 * 1024 < parseInt n)
  /\ (forall n, res_size r = Some n -> n <> 0 ->
                500 * 1024 * 1024 < parseInt n ->
                dl_warnings v
                = [lit "Large file size (" ++ numberToString n
                   ++ lit "). Consider streaming or chunked download."])
  /\ (List.length (dl_warnings v) <= 1)%nat
  /\ (forall size,
         dl_allowed v
         = dl_allowed
             (validateResourceDownload parseURL parseInt numberToString
                {| res_id := res_id r; res_name := res_name r;
                   res_description := res_description r;
                   res_format := res_format r; res_url := res_url r;
                   res_size := size; res_created := res_created r;
                   res_last_modified := res_last_modified r;
                   res_mimetype := res_mimetype r |})).
Proof.
  intros v. subst v. unfold validateResourceDownload. cbn [res_url res_size].
  set (ws := match res_size r with
             | Some n =>
                 if negb (n =? 0) && (large_size_limit <? parseInt n)
                 then [lit "Large file size (" ++ numberToString n
                       ++ lit "). Consider streaming or chunked download."]
                 else []
             | None => []
             end).
  assert (Hws : (ws <> [] <->
                 exists n, res_size r = Some n /\ n <> 0
                           /\ 500 * 1024 * 1024 < parseInt n)
                /\ (forall n, res_size r = Some n -> n <> 0 ->
                      500 * 1024 * 1024 < parseInt n ->
                      ws = [lit "Large file size (" ++ numberToString n
                            ++ lit "). Consider streaming or chunked download."])
                /\ (List.length ws <= 1)%nat).
  { subst ws. destruct (res_size r) as [n |].
    - destruct (n =? 0) eqn:E0; cbn [negb andb].
      + apply Z.eqb_eq in E0.
        split; [| split; [| cbn; lia]].
        * split; [intros H; contradiction H; reflexivity |].
          intros [m [Hm [Hnz _]]]. inversion Hm. lia.
        * intros m Hm Hnz _. inversion Hm. lia.
      + apply Z.eqb_neq in E0.
        destruct (large_size_limit <? parseInt n) eqn:El.
        * apply Z.ltb_lt in El. unfold large_size_limit in El.
          split; [| split; [| cbn; lia]].
          -- split; [intros _; exists n; repeat split; assumption
                    | discriminate].
          -- intros m Hm _ _. inversion Hm; subst. reflexivity.
        * apply Z.ltb_ge in El. unfold large_size_limit in El.
          split; [| split; [| cbn; lia]].
          -- split; [intros H; contradiction H; reflexivity |].
             intros [m [Hm [_ Hlt]]]. inversion Hm; subst. lia.
          -- intros m Hm _ Hlt. inversion Hm; subst. lia.
    - split; [| split; [| cbn; lia]].
      + split; [intros H; contradiction H; reflexivity |].
        intros [m [Hm _]]. discriminate.
      + intros m Hm. discriminate. }
  destruct Hws as [Hws [Htext Hlen]]. clearbody ws.
  destruct (truthy (res_url r)).
  - destruct (safe (validateURL parseURL (or_default (res_url r) [])));
      cbn [dl_allowed dl_errors dl_warnings negb];
      (split; [| split; [| split; [exact Hws | split; [exact Htext
                | split; [exact Hlen | intros size; reflexivity]]]]]).
    + split; [discriminate | intros [_ H]; discriminate].
    + split; reflexivity.
    + split; [intros _; split; reflexivity | reflexivity].
    + split; discriminate.
  - cbn [dl_allowed dl_errors dl_warnings].
    split; [| split; [| split; [exact Hws | split; [exact Htext
                | split; [exact Hlen | intros size; reflexivity]]]]].
    + split; [discriminate | intros [H _]; discriminate].
    + split; reflexivity.
Qed.

End WithParser.

End DownloadFacts.

(** ** What redaction reaches *)

Module RedactionReach.

Import ScanFacts DigitRunFacts EmailFacts.

Lemma masked_trans (a b c : ascii) : masked a b -> masked b c -> masked a c.
Proof.
  intros [-> | [Ha ->]] H; [exact H |].
  destruct H as [-> | [Hx _]]; [right; split; [exact Ha | reflexivity] |].
  discriminate.
Qed.

Lemma masked_all_trans (l1 l2 l3 : text) :
  Forall2 masked l1 l2 -> Forall2 masked l2 l3 -> Forall2 masked l1 l3.
Proof.
  intros H. revert l3. induction H as [|a b l1 l2 Hab _ IH]; intros l3 H3.
  - inversion H3. constructor.
  - inversion H3; subst. constructor; [| apply IH; assumption].
    eapply masked_trans; eassumption.
Qed.

Lemma masked_length (l l' : text) :
  Forall2 masked l l' -> List.length l' = List.length l.
Proof. induction 1; cbn; congruence. Qed.

(** Masking digits neither makes nor unmakes an address. *)
Lemma email_test_masked :
  forall (l l' : text), Forall2 masked l l' ->
  forall (p p' : option ascii),
    wordy p = wordy p' ->
    test_from re_email p l = test_from re_email p' l'.
Proof.
  induction 1 as [|c c' l l' Hc Hl IH]; intros p p' Hp.
  - cbn [test_from].
    rewrite (email_match_masked p p' [] [] Hp (Forall2_nil masked)).
    reflexivity.
  - cbn [test_from].
    rewrite (email_match_masked p p' (c :: l) (c' :: l') Hp
               (Forall2_cons c c' Hc Hl)).
    destruct (match_here re_email p' (c' :: l')); [reflexivity |].
    apply IH. cbn [wordy]. apply masked_word. exact Hc.
Qed.

Lemma word_is_not_at (c : ascii) :
  is_word c = true -> Ascii.eqb c "@" = false.
Proof.
  intros H. destruct (Ascii.eqb c "@") eqn:E; [| reflexivity].
  apply Ascii.eqb_eq in E. subst c. discriminate.
Qed.

Lemma tail_ok_after_word (w s : text) :
  forallb is_word w = true -> tail_ok (w ++ s) = tail_ok s.
Proof.
  induction w as [|c w IH]; intros H; [reflexivity |].
  cbn in H. apply andb_prop in H. destruct H as [Hc Hw].
  cbn [app tail_ok]. rewrite (word_is_not_at c Hc), (word_is_mail c Hc).
  cbn [andb]. apply IH. exact Hw.
Qed.

Lemma tail_ok_placeholder (s : text) :
  tail_ok (mask_email ++ s) = true.
Proof. reflexivity. Qed.

(** A word before the placeholder and the placeholder read as one
    address. *)
Lemma placeholder_matches (q : option ascii) (w s : text) :
  forallb is_word w = true -> wordy q = false ->
  found (match_here re_email q (w ++ mask_email ++ s)) = true.
Proof.
  intros Hw Hq. rewrite found_email. unfold at_boundary. rewrite Hq.
  destruct w as [|c w].
  - reflexivity.
  - cbn in Hw. apply andb_prop in Hw. destruct Hw as [Hc Hw].
    cbn [app hd_error wordy]. rewrite Hc, (word_is_mail c Hc).
    cbn [xorb andb]. rewrite (tail_ok_after_word w _ Hw).
    apply tail_ok_placeholder.
Qed.

Lemma prev_after_app (q : option ascii) (w : text) (c : ascii) (s : text) :
  prev_after q (w ++ c :: s) (S (List.length w)) = Some c
  /\ skipn (S (List.length w)) (w ++ c :: s) = s.
Proof.
  revert q. induction w as [|x w IH]; intros q; [split; reflexivity |].
  cbn [app List.length]. destruct (IH (Some x)) as [H1 H2].
  split; [exact H1 | exact H2].
Qed.

(** Wherever the scan for addresses finds one, the text it writes
    still holds one. *)
Lemma email_survives_scan :
  forall (l : text) (p q : option ascii) (w : text),
    forallb is_word w = true -> wordy q = false ->
    test_from re_email p l = true ->
    test_from re_email q (w ++ scan_email p l 0) = true.
Proof.
  induction l as [|c l IH]; intros p q w Hw Hq H.
  - cbn [test_from] in H. rewrite email_no_match_nil in H. discriminate.
  - destruct (match_here re_email p (c :: l)) as [n |] eqn:E.
    + destruct (scan_email_match p (c :: l) n E) as [Hs _]. rewrite Hs.
      pose proof (placeholder_matches q w
                    (scan_email (prev_after p (c :: l) n)
                                (skipn n (c :: l)) 0) Hw Hq) as Hf.
      destruct (match_here re_email q
                  (w ++ mask_email
                     ++ scan_email (prev_after p (c :: l) n)
                                   (skipn n (c :: l)) 0)) as [k |] eqn:Ek;
        [| discriminate].
      destruct (w ++ mask_email
                  ++ scan_email (prev_after p (c :: l) n)
                                (skipn n (c :: l)) 0);
        cbn [test_from]; rewrite Ek; reflexivity.
    + cbn [test_from] in H. rewrite E in H.
      rewrite (scan_skip re_email mask_email p c l E).
      destruct (is_word c) eqn:Hc.
      * replace (w ++ c :: scan_email (Some c) l 0)
          with ((w ++ [c]) ++ scan_email (Some c) l 0)
          by (rewrite <- app_assoc; reflexivity).
        apply IH; [| exact Hq | exact H].
        rewrite forallb_app, Hw. cbn. rewrite Hc. reflexivity.
      * apply (test_later re_email (S (List.length w))).
        destruct (prev_after_app q w c (scan_email (Some c) l 0))
          as [-> ->].
        apply (IH (Some c) (Some c) []); [reflexivity | exact Hc | exact H].
Qed.

Lemma aadhaar_pass_masks (t : text) : Forall2 masked t (redact_aadhaar t).
Proof.
  rewrite RedactFacts.redact_aadhaar_form.
  apply (scan_digits_masks 12 RedactFacts.twelve_positive (List.length t)).
  lia.
Qed.

Lemma phone_pass_masks (t : text) : Forall2 masked t (redact_phone t).
Proof.
  rewrite RedactFacts.redact_phone_form.
  apply (scan_digits_masks 10 RedactFacts.ten_positive (List.length t)).
  lia.
Qed.

(** X18: after redaction no run of exactly twelve or exactly ten
    digits is left for the detector, whatever the text was. *)
Theorem redactPII_clears_digit_runs (t : text) :
  test re_aadhaar (redactPII t) = false
  /\ test re_phone (redactPII t) = false.
Proof.
  rewrite RedactFacts.redactPII_form. unfold test.
  split; [apply RedactFacts.redacted_has_no_aadhaar
         | apply RedactFacts.redacted_has_no_phone].
Qed.

(** X19: a text in which the detector finds an email address is still
    flagged after redaction: the placeholder that replaces the address is
    itself an address for the detector. *)
Theorem email_still_detected (t : text) :
  test re_email t = true ->
  test re_email (redactPII t) = true /\ detectPII (redactPII t) = true.
Proof.
  intros H. unfold test in H.
  assert (Hr : test re_email (redactPII t) = true).
  { rewrite RedactFacts.redactPII_form. unfold RedactFacts.redacted, test.
    rewrite <- (email_test_masked _ _
                  (phone_pass_masks (redact_email (redact_aadhaar t)))
                  None None eq_refl).
    rewrite RedactFacts.redact_email_form.
    apply (email_survives_scan (redact_aadhaar t) None None []);
      [reflexivity | reflexivity |].
    rewrite <- (email_test_masked _ _ (aadhaar_pass_masks t)
                  None None eq_refl).
    exact H. }
  split; [exact Hr |].
  unfold detectPII. destruct (redactPII t) as [|c l] eqn:E.
  - unfold test in Hr. cbn [test_from] in Hr.
    rewrite email_no_match_nil in Hr. discriminate.
  - cbn [existsb]. rewrite Hr. rewrite !orb_true_r. reflexivity.
Qed.

Lemma email_still_detected_witness :
  test re_email (redactPII RedactFacts.contact_line) = true
  /\ detectPII (redactPII RedactFacts.contact_line) = true.
Proof.
  apply (email_still_detected RedactFacts.contact_line).
  vm_compute. reflexivity.
Defined.

(** X20: on a text without an email address, redaction works in
    place: the result has the length of the text, and differs from it
    only where a digit was replaced by an X. *)
Theorem redactPII_masks_in_place (t : text) :
  test re_email t = false ->
  List.length (redactPII t) = List.length t
  /\ Forall2 masked t (redactPII t).
Proof.
  intros H. unfold test in H.
  assert (Hm : Forall2 masked t (redactPII t)).
  { rewrite RedactFacts.redactPII_form. unfold RedactFacts.redacted.
    assert (He : redact_email (redact_aadhaar t) = redact_aadhaar t).
    { rewrite RedactFacts.redact_email_form. apply scan_without_match.
      rewrite <- (email_test_masked _ _ (aadhaar_pass_masks t)
                    None None eq_refl).
      exact H. }
    rewrite He.
    apply (masked_all_trans t (redact_aadhaar t));
      [apply aadhaar_pass_masks | apply phone_pass_masks]. }
  split; [apply masked_length; exact Hm | exact Hm].
Qed.

Definition helpline : text := lit "Helpline 9876543210, ref 123456789012.".

Lemma redactPII_masks_in_place_witness :
  List.length (redactPII helpline) = List.length helpline
  /\ Forall2 masked helpline (redactPII helpline).
Proof.
  apply (redactPII_masks_in_place helpline). vm_compute. reflexivity.
Defined.

End RedactionReach.

(** ** The retry delay under the defaults *)

Module RetryFacts.

Import Double Backoff DoubleFacts.
Local Open Scope Q_scope.

Lemma default_cap_reached (k : Z) :
  (5 <= k)%Z ->
  exponentialDelay k (Finite 1000) (Finite 30000) = Finite 30000.
Proof.
  intros Hk.
  apply BackoffFacts.exponentialDelay_capped;
    [lia | exact BackoffFacts.thousand_is_double
     | exact BackoffFacts.thirty_thousand_is_double
     | reflexivity | discriminate |].
  assert (H : 2 ^ 5 <= 2 ^ k) by (apply pow2_le; exact Hk).
  assert (E : 2 ^ 5 == 32) by reflexivity.
  lra.
Qed.

(** X21: under the defaults of the signature, for every attempt from
    zero on and every draw in [0, 1), the delay is an integer between 750
    and 37500 milliseconds.  From the sixth attempt on the capped delay
    is the cap, also when [2^k] is no longer a double: the delay no
    longer depends on the attempt and is between 22500 and 37500. *)
Theorem calculateBackoff_default_range (k : Z) (r : Q) :
  (0 <= k)%Z -> is_double r -> 0 <= r -> r < 1 ->
  exists d : Z,
    calculateBackoff_default k (Finite r) = Finite (inject_Z d)
    /\ (750 <= d <= 37500)%Z
    /\ ((5 <= k)%Z ->
        (22500 <= d <= 37500)%Z
        /\ calculateBackoff_default k (Finite r)
           = calculateBackoff_default 5 (Finite r)).
Proof.
  intros Hk Hr Hr0 Hr1.
  assert (D30 : dyadic53 30000).
  { apply (is_double_dyadic53 _ BackoffFacts.thirty_thousand_is_double).
    discriminate. }
  assert (H52 : 30000 <= 2 ^ 52) by (vm_compute; discriminate).
  destruct (Z.lt_ge_cases k 5) as [Hlow | Hhigh].
  - destruct (BackoffFacts.exponentialDelay_value k 1000 30000)
      as [e [He [Ee De]]];
      [lia | exact BackoffFacts.thousand_is_double
       | exact BackoffFacts.thirty_thousand_is_double
       | discriminate | discriminate |].
    assert (He1 : 1000 <= e).
    { rewrite Ee. apply Q.min_glb; [| discriminate].
      assert (H : 2 ^ 0 <= 2 ^ k) by (apply pow2_le; lia).
      assert (E : 2 ^ 0 == 1) by reflexivity. lra. }
    assert (He2 : e <= 30000) by (rewrite Ee; apply Q.le_min_r).
    destruct (BackoffFacts.jittered_band e r De) as [d [Hd [Hlo Hhi]]];
      [lra | exact Hr | exact Hr0 | exact Hr1 |].
    exists d. unfold calculateBackoff_default, calculateBackoff.
    rewrite He. split; [exact Hd |]. split; [| lia].
    split.
    + eapply Z.le_trans; [| exact Hlo].
      change 750%Z with (Qfloor (1000 * (3 # 4))).
      apply Qfloor_resp_le. lra.
    + eapply Z.le_trans; [exact Hhi |].
      change 37500%Z with (Qceiling (30000 * (5 # 4))).
      apply Qceiling_resp_le. lra.
  - destruct (BackoffFacts.jittered_band 30000 r D30) as [d [Hd [Hlo Hhi]]];
      [exact H52 | exact Hr | exact Hr0 | exact Hr1 |].
    change (Qfloor (30000 * (3 # 4))) with 22500%Z in Hlo.
    change (Qceiling (30000 * (5 # 4))) with 37500%Z in Hhi.
    exists d. unfold calculateBackoff_default, calculateBackoff.
    rewrite (default_cap_reached k) by lia.
    rewrite (default_cap_reached 5) by lia.
    split; [exact Hd |]. split; [lia |].
    intros _. split; [lia | reflexivity].
Qed.

Lemma calculateBackoff_default_range_witness :
  exists d : Z,
    calculateBackoff_default 7 (Finite (3 # 4)) = Finite (inject_Z d)
    /\ (750 <= d <= 37500)%Z
    /\ ((5 <= 7)%Z ->
        (22500 <= d <= 37500)%Z
        /\ calculateBackoff_default 7 (Finite (3 # 4))
           = calculateBackoff_default 5 (Finite (3 # 4))).
Proof.
  apply (calculateBackoff_default_range 7 (3 # 4)).
  - lia.
  - exact BackoffFacts.three_quarters_is_double.
  - discriminate.
  - reflexivity.
Defined.

End RetryFacts.

(** ** Reading the audit log *)

Module AuditLogFacts.

Import Governance.
Local Open Scope Z_scope.

(** [Array.prototype.slice(start)]: a negative [start] counts from the
    end, and either way the index is clamped to the array. *)
Definition slice_from {A : Type} (start : Z) (l : list A) : list A :=
  let len := Z.of_nat (List.length l) in
  let k := if start <? 0 then Z.max (len + start) 0 else Z.min start len in
  skipn (Z.to_nat k) l.

(** [getAuditLog(limit = 100)]: [this.auditLog.slice(-limit)]. *)
Definition getAuditLog (limit : option Z) (st : state) : list audit_entry :=
  slice_from (- match limit with
                | Some n => n
                | None => 100
                end) (auditLog st).

(** X22: [getAuditLog] returns the end of the log: with a limit of at
    least one, the newest [limit] entries, or all of them when there are
    fewer; without a limit, the newest hundred.  With a limit of zero it
    returns the whole log, not an empty list, and with a negative limit
    it drops that many of the oldest entries. *)
Theorem getAuditLog_suffix (limit : option Z) (st : state) :
  let out := getAuditLog limit st in
  (exists older, auditLog st = older ++ out)
  /\ (forall n, limit = Some n -> 1 <= n ->
        List.length out = Nat.min (Z.to_nat n) (List.length (auditLog st)))
  /\ (limit = None ->
      List.length out = Nat.min 100 (List.length (auditLog st)))
  /\ (limit = Some 0 -> out = auditLog st)
  /\ (forall n, limit = Some n -> n < 0 ->
        out = skipn (Z.to_nat (- n)) (auditLog st)).
Proof.
  intros out. subst out. unfold getAuditLog, slice_from.
  set (log := auditLog st).
  split; [| split; [| split; [| split]]].
  - eexists. symmetry. apply firstn_skipn.
  - intros n -> Hn.
    destruct (- n <? 0) eqn:E; [| apply Z.ltb_ge in E; lia].
    rewrite length_skipn. lia.
  - intros ->. cbn [Z.opp Z.ltb Z.compare]. rewrite length_skipn. lia.
  - intros ->. cbn [Z.opp Z.ltb Z.compare]. rewrite Z.min_l by lia.
    reflexivity.
  - intros n -> Hn.
    destruct (- n <? 0) eqn:E; [apply Z.ltb_lt in E; lia |].
    destruct (Z.le_ge_cases (- n) (Z.of_nat (List.length log))) as [H | H].
    + rewrite Z.min_l by exact H. reflexivity.
    + rewrite Z.min_r by exact H. rewrite Nat2Z.id.
      rewrite skipn_all. symmetry. apply skipn_all2. lia.
Qed.

End AuditLogFacts.

(** ** The text parser *)

Module ParserFacts.

Definition newline : ascii := ascii_of_nat 10.

(** [text.split('\n')] *)
Fixpoint split_lines (l : text) : list text :=
  match l with
  | [] => [[]]
  | c :: l' =>
      if Ascii.eqb c newline then [] :: split_lines l'
      else match split_lines l' with
           | line :: rest => (c :: line) :: rest
           | [] => [[c]]
           end
  end.

Record text_preview := {
  lineCount : nat;
  characterCount : nat;
  preview : text;
  hasMore : bool
}.

(** [parseText], on the decoded text. *)
Definition parseText (t : text) : text_preview :=
  let lines := split_lines t in
  {| lineCount := List.length lines;
     characterCount := List.length t;
     preview := join [newline] (firstn 100 lines);
     hasMore := 100 <? List.length lines |}.

Definition is_newline (c : ascii) : bool := Ascii.eqb c newline.

Lemma split_lines_count (t : text) :
  List.length (split_lines t) = S (List.length (filter is_newline t)).
Proof.
  induction t as [|c t IH]; [reflexivity |]. cbn [split_lines filter].
  unfold is_newline at 1. destruct (Ascii.eqb c newline).
  - cbn [List.length]. rewrite IH. reflexivity.
  - destruct (split_lines t) as [|line rest]; [discriminate |]. exact IH.
Qed.

Lemma join_split_lines (t : text) : join [newline] (split_lines t) = t.
Proof.
  induction t as [|c t IH]; [reflexivity |]. cbn [split_lines].
  pose proof (split_lines_count t) as Hn.
  destruct (Ascii.eqb c newline) eqn:E.
  - apply Ascii.eqb_eq in E. subst c.
    destruct (split_lines t) as [|line rest]; [discriminate |].
    cbn [join app] in *. rewrite IH. reflexivity.
  - destruct (split_lines t) as [|line rest]; [discriminate |].
    destruct rest as [|line' rest]; cbn [join app] in *;
      rewrite <- IH; reflexivity.
Qed.

Lemma join_firstn (sep : text) :
  forall (ls : list text) (k : nat),
    exists rest, join sep ls = join sep (firstn k ls) ++ rest.
Proof.
  induction ls as [|p r IH]; intros k.
  - exists []. destruct k; reflexivity.
  - destruct k as [|k]; [eexists; reflexivity |].
    destruct (IH k) as [rest Hrest]. cbn [firstn].
    destruct r as [|q r].
    + exists []. destruct k; cbn; rewrite app_nil_r; reflexivity.
    + destruct k as [|k].
      * eexists. cbn [firstn join]. reflexivity.
      * cbn [firstn] in *. exists rest.
        change (join sep (p :: q :: r)) with (p ++ sep ++ join sep (q :: r)).
        change (join sep (p :: q :: firstn k r))
          with (p ++ sep ++ join sep (q :: firstn k r)).
        rewrite Hrest. rewrite <- !app_assoc. reflexivity.
Qed.

Lemma newlines_of_join :
  forall ls : list text,
    Forall (fun line => filter is_newline line = []) ls ->
    List.length (filter is_newline (join [newline] ls))
    = Nat.pred (List.length ls).
Proof.
  induction ls as [|p r IH]; intros H; [reflexivity |].
  inversion H as [|? ? Hp Hr]; subst.
  destruct r as [|q r].
  - cbn [join List.length Nat.pred]. rewrite Hp. reflexivity.
  - change (join [newline] (p :: q :: r))
      with (p ++ [newline] ++ join [newline] (q :: r)).
    rewrite !filter_app, Hp, !length_app. rewrite (IH Hr).
    reflexivity.
Qed.

Lemma split_lines_clean (t : text) :
  Forall (fun line => filter is_newline line = []) (split_lines t).
Proof.
  induction t as [|c t IH]; [repeat constructor |]. cbn [split_lines].
  destruct (Ascii.eqb c newline) eqn:E.
  - constructor; [reflexivity | exact IH].
  - destruct (split_lines t) as [|line rest]; [repeat constructor |].
    + cbn. unfold is_newline. rewrite E. reflexivity.
    + inversion IH; subst. constructor; [| assumption].
      cbn [filter]. unfold is_newline at 1. rewrite E. assumption.
Qed.

(** X23: [parseText] counts one more line than the text has line
    breaks, so at least one, and as many characters as the text has.  Its
    preview is a prefix of the text with at most ninety-nine line breaks;
    more text is announced exactly when there are more than a hundred
    lines, and when none is announced the preview is the whole text. *)
Theorem parseText_preview (t : text) :
  lineCount (parseText t) = S (List.length (filter is_newline t))
  /\ characterCount (parseText t) = List.length t
  /\ (exists rest, t = preview (parseText t) ++ rest)
  /\ List.length (filter is_newline (preview (parseText t))) <= 99
  /\ (hasMore (parseText t) = true <-> 100 < lineCount (parseText t))
  /\ (hasMore (parseText t) = false -> preview (parseText t) = t).
Proof.
  unfold parseText. cbn [lineCount characterCount preview hasMore].
  split; [apply split_lines_count |].
  split; [reflexivity |].
  split.
  { destruct (join_firstn [newline] (split_lines t) 100) as [rest H].
    exists rest. rewrite <- H. symmetry. apply join_split_lines. }
  split.
  { rewrite newlines_of_join.
    - rewrite length_firstn. lia.
    - apply Forall_forall. intros line Hin.
      pose proof (split_lines_clean t) as Hc.
      rewrite Forall_forall in Hc. apply Hc.
      rewrite <- (firstn_skipn 100 (split_lines t)).
      apply in_or_app. left. exact Hin. }
  split; [apply Nat.ltb_lt |].
  intros H. apply Nat.ltb_ge in H.
  rewrite firstn_all2 by exact H. apply join_split_lines.
Qed.

End ParserFacts.

(** ** Admission through the limiter *)

Module LimiterFacts.

Import Limiter.

Open Scope Z_scope.

Example default_limiter :
  limiter_of {| requestsPerHour := None; concurrentRequests := None |}
  = {| maxConcurrent := 5; minTime := 2000; reservoir := 1800;
       reservoirRefreshAmount := 1800;
       reservoirRefreshInterval := 3600000 |}.
Proof. reflexivity. Qed.

Lemma refill_is_reservoir (config : client_config) :
  reservoirRefreshAmount (limiter_of config) = reservoir (limiter_of config).
Proof. reflexivity. Qed.

Lemma run_app (o : limiter_options) (tr1 tr2 : list event) :
  forall s, run o s (tr1 ++ tr2)
            = match run o s tr1 with
              | Some s' => run o s' tr2
              | None => None
              end.
Proof.
  induction tr1 as [|e tr1 IH]; intros s; [reflexivity |].
  cbn [app run]. destruct (step o s e); [apply IH | reflexivity].
Qed.

(** The bounds of the Quota State. *)
Definition within (o : limiter_options) (s : quota_state) : Prop :=
  0 <= budget s <= reservoir o /\ 0 <= in_flight s <= maxConcurrent o.

(** Options with which the limiter can admit a call: some budget, some
    slot, and a refill that restores the whole budget. *)
Definition usable (o : limiter_options) : Prop :=
  reservoirRefreshAmount o = reservoir o
  /\ 1 <= reservoir o /\ 1 <= maxConcurrent o.

Section Bounds.

Variable o : limiter_options.
Hypothesis fit : usable o.

Let same_amount : reservoirRefreshAmount o = reservoir o := proj1 fit.
Let some_budget : 1 <= reservoir o := proj1 (proj2 fit).
Let some_slot : 1 <= maxConcurrent o := proj2 (proj2 fit).

Lemma step_within (s s' : quota_state) (e : event) :
  within o s -> step o s e = Some s' -> within o s'.
Proof.
  unfold within. intros [Hb Hf] H.
  destruct e as [c | c | |]; cbn [step] in H.
  - inversion H; subst; cbn. lia.
  - unfold can_admit in H.
    destruct (queue s) as [|c' q]; [discriminate |].
    destruct (Nat.eqb c c'); [| discriminate]. cbn [andb] in H.
    destruct (in_flight s <? maxConcurrent o) eqn:E1; [| discriminate].
    destruct (1 <=? budget s) eqn:E2; [| discriminate].
    apply Z.ltb_lt in E1. apply Z.leb_le in E2.
    inversion H; subst; cbn. lia.
  - destruct (1 <=? in_flight s) eqn:E; [| discriminate].
    apply Z.leb_le in E. inversion H; subst; cbn. lia.
  - inversion H; subst; cbn. rewrite same_amount. lia.
Qed.

Lemma run_within (tr : list event) :
  forall s s', within o s -> run o s tr = Some s' -> within o s'.
Proof.
  induction tr as [|e tr IH]; intros s s' Hw H.
  - inversion H; subst. exact Hw.
  - cbn [run] in H. destruct (step o s e) as [s1|] eqn:E; [| discriminate].
    exact (IH _ _ (step_within _ _ _ Hw E) H).
Qed.

Lemma created_within : within o (created o).
Proof. unfold within, created. cbn. lia. Qed.

Lemma opens_within (s : quota_state) :
  opens_window o s -> within o s /\ budget s = reservoir o.
Proof.
  intros [|tr s0 s1 Hrun Hstep].
  - split; [exact created_within | reflexivity].
  - split.
    + exact (step_within _ _ _ (run_within _ _ _ created_within Hrun) Hstep).
    + cbn [step] in Hstep. inversion Hstep; subst. cbn. exact same_amount.
Qed.

(** Within a window the budget falls by one for each admitted call, and
    the calls admitted followed by the calls still queued are the calls
    that were queued before followed by the calls attempted since. *)
Lemma window_account (tr : list event) :
  forall s s',
    one_window tr = true -> run o s tr = Some s' ->
    budget s' = budget s - Z.of_nat (List.length (admitted tr))
    /\ admitted tr ++ queue s' = queue s ++ attempts tr.
Proof.
  unfold one_window.
  induction tr as [|e tr IH]; intros s s' Hw H.
  - inversion H; subst. cbn. rewrite app_nil_r. split; [lia | reflexivity].
  - cbn [run] in H. destruct (step o s e) as [s1|] eqn:E; [| discriminate].
    cbn [existsb] in Hw. rewrite Bool.negb_orb in Hw.
    apply andb_prop in Hw. destruct Hw as [He Hw].
    destruct (IH _ _ Hw H) as [Hb Hq].
    destruct e as [c | c | |]; cbn [step] in E;
      cbn [admitted attempts]; try discriminate He.
    + inversion E; subst; cbn [budget queue] in *.
      split; [exact Hb |].
      rewrite Hq, <- app_assoc. reflexivity.
    + destruct (queue s) as [|c' q] eqn:Eq; [discriminate |].
      destruct (Nat.eqb c c') eqn:Ec; [| discriminate].
      apply Nat.eqb_eq in Ec. subst c'.
      destruct (can_admit o s); [| discriminate]. cbn [andb] in E.
      inversion E; subst; cbn [budget queue] in *.
      split.
      * cbn [List.length]. lia.
      * cbn [app]. rewrite Hq. reflexivity.
    + destruct (1 <=? in_flight s); [| discriminate].
      inversion E; subst; cbn [budget queue] in *.
      split; [exact Hb | exact Hq].
Qed.

(** Only completions and admissions. *)
Definition drains (e : event) : bool :=
  match e with Complete | Admit _ => true | _ => false end.

(** While more calls are queued than the budget covers, the budget can
    be used up: calls complete and queued calls are admitted. *)
Lemma budget_can_be_spent (n : nat) :
  forall s,
    within o s -> Z.to_nat (budget s) = n ->
    budget s < Z.of_nat (List.length (queue s)) ->
    exists tr s',
      forallb drains tr = true /\ run o s tr = Some s' /\ budget s' = 0.
Proof.
  induction n as [|n IH]; intros s Hw Hn Hq.
  - exists [], s. split; [reflexivity | split; [reflexivity |]].
    destruct Hw as [Hb _]. lia.
  - destruct Hw as [Hb Hf].
    destruct (queue s) as [|c q] eqn:Eq; [cbn in Hq; lia |].
    assert (Hadmit : forall s0, queue s0 = c :: q -> budget s0 = budget s ->
              in_flight s0 < maxConcurrent o -> 0 <= in_flight s0 ->
              exists tr s', forallb drains tr = true
                            /\ run o s0 (Admit c :: tr) = Some s'
                            /\ budget s' = 0).
    { intros s0 Hq0 Hb0 Hlt Hge.
      set (s1 := {| budget := budget s0 - 1; in_flight := in_flight s0 + 1;
                    queue := q |}).
      assert (Hstep : step o s0 (Admit c) = Some s1).
      { cbn [step]. unfold can_admit. rewrite Hq0, Nat.eqb_refl.
        cbn [andb].
        destruct (Z.ltb_spec (in_flight s0) (maxConcurrent o)); [| lia].
        destruct (Z.leb_spec 1 (budget s0)); [| lia]. reflexivity. }
      destruct (IH s1) as [tr [s' [Hd [Hrun Hz]]]].
      - unfold within, s1. cbn. lia.
      - unfold s1. cbn. lia.
      - unfold s1. cbn. cbn [List.length] in Hq. lia.
      - exists tr, s'. split; [exact Hd |].
        split; [| exact Hz]. cbn [run]. rewrite Hstep. exact Hrun. }
    destruct (Z.ltb_spec (in_flight s) (maxConcurrent o)) as [Hlt | Hge].
    + destruct (Hadmit s Eq eq_refl Hlt (proj1 Hf)) as [tr [s' [Hd [Hrun Hz]]]].
      exists (Admit c :: tr), s'. split; [exact Hd | split; assumption].
    + set (s0 := {| budget := budget s; in_flight := in_flight s - 1;
                    queue := queue s |}).
      assert (Hstep : step o s Complete = Some s0).
      { cbn [step]. destruct (Z.leb_spec 1 (in_flight s)); [| lia].
        reflexivity. }
      destruct (Hadmit s0) as [tr [s' [Hd [Hrun Hz]]]];
        try (unfold s0; cbn; first [exact Eq | reflexivity | lia]).
      exists (Complete :: Admit c :: tr), s'.
      split; [exact Hd | split; [| exact Hz]].
      change (run o s (Complete :: Admit c :: tr))
        with (match step o s Complete with
              | Some s1 => run o s1 (Admit c :: tr)
              | None => None
              end).
      rewrite Hstep. exact Hrun.
Qed.

Lemma drains_one_window (tr : list event) :
  forallb drains tr = true -> one_window tr = true.
Proof.
  unfold one_window. induction tr as [|e tr IH]; [reflexivity |].
  cbn [forallb existsb]. intros H. apply andb_prop in H.
  destruct H as [He H]. rewrite Bool.negb_orb, (IH H).
  destruct e; try discriminate He; reflexivity.
Qed.

Lemma drains_no_attempt (tr : list event) :
  forallb drains tr = true -> attempts tr = [].
Proof.
  induction tr as [|e tr IH]; [reflexivity |].
  cbn [forallb]. intros H. apply andb_prop in H. destruct H as [He H].
  destruct e; try discriminate He; cbn [attempts]; exact (IH H).
Qed.

Lemma one_window_app (tr1 tr2 : list event) :
  one_window tr1 = true -> one_window tr2 = true ->
  one_window (tr1 ++ tr2) = true.
Proof.
  unfold one_window. rewrite existsb_app, Bool.negb_orb.
  intros -> ->. reflexivity.
Qed.

Lemma admitted_app (tr1 tr2 : list event) :
  admitted (tr1 ++ tr2) = admitted tr1 ++ admitted tr2.
Proof.
  induction tr1 as [|e tr1 IH]; [reflexivity |].
  destruct e; cbn [app admitted]; rewrite ?IH; reflexivity.
Qed.

Lemma attempts_app (tr1 tr2 : list event) :
  attempts (tr1 ++ tr2) = attempts tr1 ++ attempts tr2.
Proof.
  induction tr1 as [|e tr1 IH]; [reflexivity |].
  destruct e; cbn [app attempts]; rewrite ?IH; reflexivity.
Qed.

Lemma split_at_length (A : Type) (l1 l2 l : list A) :
  l1 ++ l2 = l -> l1 = firstn (List.length l1) l
                  /\ l2 = skipn (List.length l1) l.
Proof.
  intros <-. split.
  - rewrite firstn_app, Nat.sub_diag, firstn_all. cbn.
    rewrite app_nil_r. reflexivity.
  - rewrite skipn_app, Nat.sub_diag, skipn_all. reflexivity.
Qed.

End Bounds.



(** A rate of two and a cap of one: three calls are attempted, two are
    admitted one after the other, and the third waits. *)
Definition two_an_hour : client_config :=
  {| requestsPerHour := Some 2; concurrentRequests := Some 1 |}.

Definition burst_of_three : list event :=
  [Attempt 0%nat; Attempt 1%nat; Attempt 2%nat;
   Admit 0%nat; Complete; Admit 1%nat; Complete].

Definition third_waits : quota_state :=
  {| budget := 0; in_flight := 0; queue := [2%nat] |}.

Example burst_of_three_run :
  run (limiter_of two_an_hour) (created (limiter_of two_an_hour))
      burst_of_three
  = Some third_waits
  /\ can_admit (limiter_of two_an_hour) third_waits = false
  /\ admitted burst_of_three = [0%nat; 1%nat]
  /\ run (limiter_of two_an_hour) third_waits [Admit 2%nat] = None
  /\ run (limiter_of two_an_hour) third_waits [Refill; Admit 2%nat]
     = Some {| budget := 1; in_flight := 1; queue := [] |}.
Proof. repeat split. Qed.

(** With a cap of one, a second call is not admitted while the first
    runs. *)
Example one_at_a_time :
  run (limiter_of two_an_hour) (created (limiter_of two_an_hour))
      [Attempt 0%nat; Attempt 1%nat; Admit 0%nat; Admit 1%nat]
  = None.
Proof. reflexivity. Qed.


End LimiterFacts.

(** ** The request counters of the catalog client *)

Module ClientStats.

Record stats := {
  totalRequests : nat;
  successfulRequests : nat;
  failedRequests : nat;
  retries : nat
}.

(** The counters the constructor sets up. *)
Definition no_requests : stats :=
  {| totalRequests := 0; successfulRequests := 0; failedRequests := 0;
     retries := 0 |}.

(** What comes back from the HTTP layer for one call, retries
    included: a rejection, or a response; the response may lack a body,
    and a body may say [success: false]. *)
Inductive reply :=
| Rejected
| Responded (body : option (option bool)).

Definition count_total (s : stats) : stats :=
  {| totalRequests := S (totalRequests s);
     successfulRequests := successfulRequests s;
     failedRequests := failedRequests s;
     retries := retries s |}.

Definition count_success (s : stats) : stats :=
  {| totalRequests := totalRequests s;
     successfulRequests := S (successfulRequests s);
     failedRequests := failedRequests s;
     retries := retries s |}.

Definition count_failure (s : stats) : stats :=
  {| totalRequests := totalRequests s;
     successfulRequests := successfulRequests s;
     failedRequests := S (failedRequests s);
     retries := retries s |}.

(** [request], after the [await]: the response is counted as a
    success before its body is looked at, and the [catch] counts what is
    thrown then as a failure: the error made for [success === false], or
    the [TypeError] of reading [success] off a missing body. *)
Definition request_settles (r : reply) (s : stats) : bool * stats :=
  match r with
  | Rejected => (false, count_failure s)
  | Responded None => (false, count_failure (count_success s))
  | Responded (Some (Some false)) =>
      (false, count_failure (count_success s))
  | Responded (Some _) => (true, count_success s)
  end.

(** [downloadResource], after the [await]. *)
Definition download_settles (r : reply) (s : stats) : bool * stats :=
  match r with
  | Rejected => (false, count_failure s)
  | Responded _ => (true, count_success s)
  end.

(** The counters together with the number of calls in flight.  The
    calls run concurrently: each counts itself when it starts and settles
    later, in any order.  [resetStats] puts the counters back to zero at
    any moment, whatever is in flight. *)
Inductive step : stats * nat -> stats * nat -> Prop :=
| call_starts : forall s n, step (s, n) (count_total s, S n)
| request_ends : forall s n r,
    step (s, S n) (snd (request_settles r s), n)
| download_ends : forall s n r,
    step (s, S n) (snd (download_settles r s), n)
| stats_reset : forall s n, step (s, n) (no_requests, n).

Inductive reachable : stats * nat -> Prop :=
| at_start : reachable (no_requests, 0)
| after_step : forall a b, reachable a -> step a b -> reachable b.

(** The states reached while every reset finds no call in flight. *)
Inductive reachable_quietly : stats * nat -> Prop :=
| quiet_start : reachable_quietly (no_requests, 0)
| quiet_step : forall a b,
    reachable_quietly a -> step a b ->
    (b = (no_requests, snd a) -> snd a = 0) ->
    reachable_quietly b.

Definition bounded (s : stats) (n : nat) : Prop :=
  n <= totalRequests s
  /\ successfulRequests s <= totalRequests s - n
  /\ failedRequests s <= totalRequests s - n
  /\ totalRequests s - n <= successfulRequests s + failedRequests s
  /\ successfulRequests s + failedRequests s <= 2 * (totalRequests s - n).

Lemma quiet_bounds (s : stats) (n : nat) :
  reachable_quietly (s, n) -> bounded s n.
Proof.
  intros H. remember (s, n) as a eqn:Ha. revert s n Ha.
  induction H as [|a b Hreach IH Hstep Hquiet]; intros s n Ha.
  - inversion Ha; subst. unfold bounded. cbn. lia.
  - destruct Hstep as [s0 n0 | s0 n0 r | s0 n0 r | s0 n0];
      inversion Ha; subst; clear Ha;
      specialize (IH _ _ eq_refl); unfold bounded in *.
    + cbn. lia.
    + destruct r as [|[[[|]|]|]]; cbn; lia.
    + destruct r as [|o]; cbn; lia.
    + cbn in Hquiet. rewrite (Hquiet eq_refl). cbn. lia.
Qed.

Lemma never_a_retry (s : stats) (n : nat) :
  reachable (s, n) -> retries s = 0.
Proof.
  intros H. remember (s, n) as a eqn:Ha. revert s n Ha.
  induction H as [|a b Hreach IH Hstep]; intros s n Ha.
  - inversion Ha; subst. reflexivity.
  - destruct Hstep as [s0 n0 | s0 n0 r | s0 n0 r | s0 n0];
      inversion Ha; subst; clear Ha;
      try specialize (IH _ _ eq_refl).
    + exact IH.
    + destruct r as [|[[[|]|]|]]; exact IH.
    + destruct r as [|o]; exact IH.
    + reflexivity.
Qed.

(** A call starts, the counters are reset, and the call is answered. *)
Definition reset_in_flight : stats * nat :=
  (count_success no_requests, 0).

Lemma reset_in_flight_reachable : reachable reset_in_flight.
Proof.
  apply (after_step (no_requests, 1)).
  - apply (after_step (count_total no_requests, 1)).
    + apply (after_step (no_requests, 0));
        [apply at_start | apply call_starts].
    + apply stats_reset.
  - apply (request_ends no_requests 0 (Responded (Some (Some true)))).
Qed.

(** X24: as long as every [resetStats] finds no call in flight, the
    counters stay bounded: with [n] calls in flight, the successes and
    the failures are each at most the number of settled calls, and
    together at least that number and at most twice it, twice because a
    response whose body says [success: false], or which has no body, is
    counted as a success and as a failure.  The retry counter is zero at
    every moment, resets or not.  A [resetStats] with a call in flight
    breaks the bounds: when that call is answered, one success is counted
    against a total of zero. *)
Theorem counters_invariant :
  (forall s n, reachable_quietly (s, n) -> bounded s n)
  /\ (forall s n, reachable (s, n) -> retries s = 0)
  /\ (reachable reset_in_flight
      /\ totalRequests (fst reset_in_flight) = 0
      /\ successfulRequests (fst reset_in_flight) = 1
      /\ ~ bounded (fst reset_in_flight) (snd reset_in_flight)).
Proof.
  split; [exact quiet_bounds | split; [exact never_a_retry |]].
  split; [exact reset_in_flight_reachable |].
  split; [reflexivity | split; [reflexivity |]].
  unfold bounded. cbn. lia.
Qed.

End ClientStats.

(** ** Licenses that pass *)

Module LicenseFacts.

Import Governance GovernanceInvariants.

Lemma open_names_are_not_the_placeholder :
  forallb (fun ol => negb (includes (lit "not specified") ol)) openLicenses
  = true.
Proof. vm_compute. reflexivity. Qed.

Lemma open_names_are_nonempty :
  forallb (fun ol => negb (text_eqb ol [])) openLicenses = true.
Proof. vm_compute. reflexivity. Qed.

Lemma checkLicense_open (st : state) (d : dataset) (a ol b : text) :
  In ol openLicenses ->
  toLowerCase (declared_license d) = a ++ ol ++ b ->
  checkLicense st d
  = ({| restrictive := false;
        warning := None;
        license := declared_license d;
        requiresAttribution :=
          includes (toLowerCase (declared_license d)) (lit "cc-by");
        compliant := Some true |}, st).
Proof.
  intros Hin Hl. unfold checkLicense.
  assert (Hne : truthy (Some (declared_license d)) = true).
  { destruct (declared_license d) as [|c l]; [| reflexivity].
    cbn in Hl. destruct a; [| discriminate]. cbn in Hl.
    pose proof open_names_are_nonempty as H.
    rewrite forallb_forall in H. specialize (H ol Hin).
    destruct ol; [discriminate H | discriminate Hl]. }
  assert (Hns : text_eqb (toLowerCase (declared_license d))
                         (lit "not specified") = false).
  { destruct (text_eqb (toLowerCase (declared_license d))
                       (lit "not specified")) eqn:E; [| reflexivity].
    apply DownloadFacts.text_eqb_eq in E. rewrite Hl in E.
    pose proof open_names_are_not_the_placeholder as H.
    rewrite forallb_forall in H. specialize (H ol Hin).
    rewrite <- E, TextFacts.includes_app in H. discriminate. }
  assert (Hopen : existsb (fun x => includes
                                      (toLowerCase (declared_license d)) x)
                          openLicenses = true).
  { apply existsb_exists. exists ol. split; [exact Hin |].
    rewrite Hl. apply TextFacts.includes_app. }
  rewrite Hne, Hns, Hopen. reflexivity.
Qed.

(** X25: an item whose declared license, the title or else the
    identifier, contains the name of one of the eight open licenses
    anywhere in it, in any letter case, passes the license check: the
    verdict has no warning, its license flag stays set, and the item is
    not added to the license warnings, whatever else the license text
    says. *)
Theorem open_license_passes (cfg : config) (now : text) (st : state)
        (d : dataset) (a ol b : text) :
  In ol openLicenses ->
  toLowerCase (declared_license d) = a ++ ol ++ b ->
  let v := fst (validateDatasetAccess cfg now st d) in
  let st' := snd (validateDatasetAccess cfg now st d) in
  warnings v = []
  /\ licenseCheck (checks v) = true
  /\ restrictive (fst (checkLicense st d)) = false
  /\ licenseWarnings st' = licenseWarnings st.
Proof.
  intros Hin Hl v st'.
  assert (Hr : restrictive (fst (checkLicense initial_state d)) = false)
    by (rewrite (checkLicense_open initial_state d a ol b Hin Hl);
        reflexivity).
  assert (Hv : v = verdict_of cfg d)
    by apply validateDatasetAccess_verdict_of.
  split; [| split; [| split]].
  - rewrite Hv. unfold verdict_of. rewrite Hr, Bool.andb_false_r.
    destruct (blockRestrictedData cfg
              && negb (r_allowed (fst (checkRestrictions initial_state d))));
      reflexivity.
  - rewrite Hv. unfold verdict_of. rewrite Hr, Bool.andb_false_r.
    destruct (blockRestrictedData cfg
              && negb (r_allowed (fst (checkRestrictions initial_state d))));
      reflexivity.
  - rewrite (checkLicense_open st d a ol b Hin Hl). reflexivity.
  - subst st'. rewrite validateDatasetAccess_state_of.
    destruct (after_checks_fields cfg st d) as [_ [_ Hw]].
    rewrite Hr, Bool.andb_false_r in Hw.
    destruct (enableAuditLog cfg) eqn:Hon; [| exact Hw].
    destruct (logAccess_log cfg now (after_checks cfg st d) d
                (verdict_of cfg d) Hon) as [_ [_ ->]].
    exact Hw.
Qed.

Definition licensed (title : string) : dataset :=
  {| ds_id := Some (lit "d-2"); ds_name := None; ds_title := None;
     ds_notes := None; ds_description := None; ds_organization := None;
     ds_sector := None; ds_groups := None; ds_tags := None;
     ds_license := None; ds_license_title := Some (lit title);
     ds_license_id := None;
     ds_metadata_created := None; ds_metadata_modified := None;
     ds_num_resources := None; ds_resources := None; ds_url := None;
     ds_maintainer := None; ds_author := None; ds_score := None |}.

Lemma open_license_passes_witness :
  let d := licensed "Not under CC0, all rights reserved" in
  let v := fst (validateDatasetAccess GovernanceFacts.all_enabled (lit "t0")
                  initial_state d) in
  let st' := snd (validateDatasetAccess GovernanceFacts.all_enabled
                    (lit "t0") initial_state d) in
  warnings v = []
  /\ licenseCheck (checks v) = true
  /\ restrictive (fst (checkLicense initial_state d)) = false
  /\ licenseWarnings st' = licenseWarnings initial_state.
Proof.
  apply (open_license_passes GovernanceFacts.all_enabled (lit "t0")
           initial_state (licensed "Not under CC0, all rights reserved")
           (lit "not under ") (lit "cc0") (lit ", all rights reserved")).
  - vm_compute. tauto.
  - reflexivity.
Defined.

End LicenseFacts.

(** ** [analytics.js]: the analytics engine *)

Module Analytics.

Definition openLicenses : list text :=
  map lit ["cc-by"; "cc0"; "odc-by"; "odbl"; "public domain"; "open"]%string.

(** [isOpenLicense] *)
Definition isOpenLicense (license : option text) : bool :=
  match license with
  | Some (c :: l) =>
      existsb (fun ol => includes (toLowerCase (c :: l)) ol) openLicenses
  | _ => false
  end.

(** The points one attachment adds in [assessResourceCompleteness]. *)
Definition points (r : resource) : nat :=
  (if truthy (res_name r) then 1 else 0)
  + (if truthy (res_description r) then 1 else 0)
  + (if truthy (res_format r) then 1 else 0)
  + (if truthy (res_url r) then 2 else 0).

(** [assessResourceCompleteness], with the division carried out
    exactly. *)
Definition assessResourceCompleteness (resources : list resource) : Q :=
  match resources with
  | [] => 0%Q
  | _ =>
      let score := fold_left (fun s r => s + points r) resources 0 in
      Qmin 25 (inject_Z (Z.of_nat score)
               / inject_Z (Z.of_nat (List.length resources * 5)) * 25)%Q
  end.

End Analytics.

Module AnalyticsFacts.

Import Analytics.

(** What the governance layer makes of the same license. *)
Definition passes_governance (d : dataset) : bool :=
  negb (Governance.restrictive
          (fst (Governance.checkLicense Governance.initial_state d))).

Definition open_for_analytics (d : dataset) : bool :=
  isOpenLicense (or_else (ds_license_title d) (ds_license_id d)).

Definition attribution_name : text := lit "creative commons attribution".

Lemma includes_part (s k a b : text) :
  includes s (a ++ k ++ b) = true -> includes s k = true.
Proof.
  intros H. destruct (TextFacts.includes_split _ _ H) as [p [q ->]].
  replace (p ++ (a ++ k ++ b) ++ q) with ((p ++ a) ++ k ++ (b ++ q))
    by (repeat rewrite <- app_assoc; reflexivity).
  apply TextFacts.includes_app.
Qed.

Lemma open_for_analytics_form (d : dataset) :
  open_for_analytics d
  = match Governance.declared_license d with
    | [] => false
    | l => existsb (fun ol => includes (toLowerCase l) ol) openLicenses
    end.
Proof.
  unfold open_for_analytics, Governance.declared_license, or_else.
  destruct (ds_license_title d) as [[|c l] |]; cbn;
    try reflexivity;
    destruct (ds_license_id d) as [[|c' l'] |]; reflexivity.
Qed.

Lemma passes_governance_form (d : dataset) :
  passes_governance d
  = match Governance.declared_license d with
    | [] => false
    | l =>
        negb (text_eqb (toLowerCase l) (lit "not specified"))
        && existsb (fun ol => includes (toLowerCase l) ol)
                   Governance.openLicenses
    end.
Proof.
  unfold passes_governance, Governance.checkLicense.
  destruct (Governance.declared_license d) as [|c l]; [reflexivity |].
  cbn [truthy negb orb].
  destruct (text_eqb (toLowerCase (c :: l)) (lit "not specified"));
    [reflexivity |].
  cbn [negb andb].
  destruct (existsb (fun ol => includes (toLowerCase (c :: l)) ol)
                    Governance.openLicenses); reflexivity.
Qed.

Definition attributed : dataset :=
  LicenseFacts.licensed "Creative Commons Attribution".

Definition open_core : dataset :=
  LicenseFacts.licensed "OpenCore commercial license".

(** X26: the analytics engine and the governance layer judge the
    license of an item by different lists.  A license the governance
    layer passes is open for the analytics engine too, unless it passes
    only as "creative commons attribution"; a license that is open for
    the analytics engine passes the governance layer, unless it is open
    only for containing "open".  Both exceptions occur. *)
Theorem license_notions (d : dataset) :
  (passes_governance d = true ->
   open_for_analytics d = true
   \/ includes (toLowerCase (Governance.declared_license d))
               attribution_name = true)
  /\ (open_for_analytics d = true ->
      passes_governance d = true
      \/ includes (toLowerCase (Governance.declared_license d))
                  (lit "open") = true)
  /\ (passes_governance attributed = true
      /\ open_for_analytics attributed = false)
  /\ (passes_governance open_core = false
      /\ open_for_analytics open_core = true).
Proof.
  rewrite passes_governance_form, open_for_analytics_form.
  split; [| split; [| split; vm_compute; split; reflexivity]].
  - destruct (Governance.declared_license d) as [|c l]; [discriminate |].
    cbv beta iota zeta.
    remember (toLowerCase (c :: l)) as s eqn:Hs. clear Hs. intros H.
    apply andb_prop in H. destruct H as [_ H].
    unfold Governance.openLicenses, openLicenses in *.
    cbn [map existsb] in *.
    repeat match type of H with
           | (_ || _)%bool = true =>
               apply orb_prop in H; destruct H as [H | H]
           end; try discriminate.
    + left. rewrite H. reflexivity.
    + left. rewrite (includes_part s (lit "cc-by") [] (lit "-4.0") H).
      reflexivity.
    + right. exact H.
    + left. rewrite H. rewrite !orb_true_r. reflexivity.
    + left. rewrite H. rewrite !orb_true_r. reflexivity.
    + left. rewrite H. rewrite !orb_true_r. reflexivity.
    + left. rewrite H. rewrite !orb_true_r. reflexivity.
    + left.
      rewrite (includes_part s (lit "open") [] (lit " government license")
                 H).
      rewrite !orb_true_r. reflexivity.
  - destruct (Governance.declared_license d) as [|c l]; [discriminate |].
    cbv beta iota zeta.
    remember (toLowerCase (c :: l)) as s eqn:Hs. clear Hs. intros H.
    assert (Hns : text_eqb s (lit "not specified") = true ->
                  existsb (fun ol => includes s ol) openLicenses = false).
    { intros E. apply DownloadFacts.text_eqb_eq in E. rewrite E.
      vm_compute. reflexivity. }
    destruct (text_eqb s (lit "not specified")) eqn:E;
      [rewrite (Hns eq_refl) in H; discriminate |].
    cbn [negb andb].
    unfold Governance.openLicenses, openLicenses in *.
    cbn [map existsb] in *.
    repeat match type of H with
           | (_ || _)%bool = true =>
               apply orb_prop in H; destruct H as [H | H]
           end; try discriminate;
      try (left; rewrite H; rewrite ?orb_true_r; reflexivity).
    right. exact H.
Qed.

(** *** Completeness of the attachments *)

Local Open Scope Q_scope.

Definition complete (r : resource) : bool :=
  truthy (res_name r) && truthy (res_description r)
  && truthy (res_format r) && truthy (res_url r).

Lemma points_le (r : resource) : (points r <= 5)%nat.
Proof.
  unfold points.
  destruct (truthy (res_name r)), (truthy (res_description r)),
    (truthy (res_format r)), (truthy (res_url r)); cbn; lia.
Qed.

Lemma points_full (r : resource) : points r = 5%nat <-> complete r = true.
Proof.
  unfold points, complete.
  destruct (truthy (res_name r)), (truthy (res_description r)),
    (truthy (res_format r)), (truthy (res_url r)); cbn;
    split; intros H; try reflexivity; try discriminate; lia.
Qed.

Lemma inject_Z_eq (a b : Z) : inject_Z a == inject_Z b <-> a = b.
Proof. unfold Qeq. cbn [Qnum Qden inject_Z]. lia. Qed.

Lemma list_sum_cons (x : nat) (l : list nat) :
  list_sum (x :: l) = (x + list_sum l)%nat.
Proof. reflexivity. Qed.

Lemma score_sum (rs : list resource) :
  forall a : nat,
    fold_left (fun s r => (s + points r)%nat) rs a
    = (a + list_sum (map points rs))%nat.
Proof.
  induction rs as [|r rs IH]; intros a; cbn [fold_left map].
  - cbn. lia.
  - rewrite IH, list_sum_cons. lia.
Qed.

Lemma sum_le (rs : list resource) :
  (list_sum (map points rs) <= 5 * List.length rs)%nat.
Proof.
  induction rs as [|r rs IH]; cbn [map List.length]; [cbn; lia |].
  rewrite list_sum_cons. pose proof (points_le r). lia.
Qed.

Lemma sum_full (rs : list resource) :
  list_sum (map points rs) = (5 * List.length rs)%nat
  <-> forallb complete rs = true.
Proof.
  induction rs as [|r rs IH]; cbn [map List.length forallb].
  - split; reflexivity.
  - rewrite list_sum_cons.
    pose proof (points_le r) as Hr. pose proof (sum_le rs) as Hs.
    rewrite andb_true_iff, <- IH, <- points_full.
    split; [intros H; split; lia | intros [H1 H2]; lia].
Qed.

(** X27: with the division carried out exactly, the completeness score
    of a list of attachments is five times their points divided by their
    number, so the cap of twenty-five never cuts anything off.  It lies
    between zero and twenty-five, and it is twenty-five exactly when the
    list is not empty and every attachment has a name, a description, a
    format and a URL. *)
Theorem assessResourceCompleteness_range (rs : list resource) :
  0 <= assessResourceCompleteness rs
  /\ assessResourceCompleteness rs <= 25
  /\ assessResourceCompleteness rs * inject_Z (Z.of_nat (List.length rs))
     == inject_Z (Z.of_nat (5 * list_sum (map points rs)))
  /\ (assessResourceCompleteness rs == 25 <->
      rs <> [] /\ forallb complete rs = true).
Proof.
  destruct rs as [|r0 rs0].
  { cbn [assessResourceCompleteness]. split; [discriminate |].
    split; [discriminate |]. split; [reflexivity |].
    split; [intros H; discriminate H | intros [H _]; contradiction H;
                                       reflexivity]. }
  assert (Hne : r0 :: rs0 <> []) by discriminate.
  unfold assessResourceCompleteness. cbv beta iota zeta.
  rewrite (score_sum (r0 :: rs0) 0). cbn [Nat.add].
  pose proof (sum_le (r0 :: rs0)) as Hsc.
  pose proof (sum_full (r0 :: rs0)) as Hfull.
  assert (Hn : (1 <= List.length (r0 :: rs0))%nat) by (cbn; lia).
  remember (r0 :: rs0) as rs eqn:Ers.
  remember (list_sum (map points rs)) as sc eqn:Esc.
  remember (List.length rs) as n eqn:En.
  clear Esc En Ers.
  assert (Hnz : ~ inject_Z (Z.of_nat n) == 0).
  { intros H. change 0 with (inject_Z 0) in H. apply (proj1 (inject_Z_eq _ _)) in H.
    lia. }
  assert (Hm : inject_Z (Z.of_nat (n * 5)) == inject_Z (Z.of_nat n) * 5).
  { rewrite Nat2Z.inj_mul, inject_Z_mult. reflexivity. }
  set (x := inject_Z (Z.of_nat sc) / inject_Z (Z.of_nat (n * 5)) * 25).
  assert (Hx : x * inject_Z (Z.of_nat n) == inject_Z (Z.of_nat (5 * sc))).
  { unfold x. rewrite Hm. rewrite (Nat2Z.inj_mul 5 sc), inject_Z_mult.
    change (inject_Z (Z.of_nat 5)) with 5. field. exact Hnz. }
  assert (Hpos : 0 < inject_Z (Z.of_nat n)).
  { change 0 with (inject_Z 0). rewrite <- Zlt_Qlt. lia. }
  assert (Hx25 : x <= 25).
  { apply Qmult_le_r with (z := inject_Z (Z.of_nat n)); [exact Hpos |].
    rewrite Hx. change 25 with (inject_Z 25). rewrite <- inject_Z_mult.
    rewrite <- Zle_Qle. lia. }
  assert (Hx0 : 0 <= x).
  { apply Qmult_le_r with (z := inject_Z (Z.of_nat n)); [exact Hpos |].
    rewrite Hx, Qmult_0_l. change 0 with (inject_Z 0).
    rewrite <- Zle_Qle. lia. }
  assert (Hmin : Qmin 25 x == x) by (apply Q.min_r; exact Hx25).
  split; [rewrite Hmin; exact Hx0 |].
  split; [rewrite Hmin; exact Hx25 |].
  split; [rewrite Hmin; exact Hx |].
  rewrite Hmin. split.
  - intros H. split; [exact Hne |]. apply Hfull.
    rewrite H in Hx. change 25 with (inject_Z 25) in Hx.
    rewrite <- inject_Z_mult in Hx.
    apply (proj1 (inject_Z_eq _ _)) in Hx. lia.
  - intros [_ H]. apply Hfull in H.
    apply Qmult_inj_r with (z := inject_Z (Z.of_nat n)); [exact Hnz |].
    rewrite Hx, H. change 25 with (inject_Z 25).
    rewrite <- inject_Z_mult. apply (proj2 (inject_Z_eq _ _)). lia.
Qed.

End AnalyticsFacts.
